(** * FishingBoat: a scale-to-zero TCP reverse proxy for containers

    A shallow embedding of the control plane of [fishingboat.go] and of
    the keyed mutex registry of [mutexmap.go], with the properties of
    the design document stated and settled against the Go code.

    Conventions of the embedding
    - Go's [int] is taken to be 64 bits wide: an [int] is a [Z] and
      every arithmetic operation is followed by [wrap64].  A [uint] is
      a [Z] reduced modulo [2^64].
    - Go maps are stdpp [gmap]s; a missing key reads as the zero value
      exactly where the Go code reads it without the [ok] flag.
    - A Go pointer to a heap cell is an address ([nat]) into an explicit
      store.
    - [time.Time] is a [Z] (nanoseconds on the monotonic clock).
    - Every interaction with the outside world (the container runtime,
      [net.Listen], [rand.Intn], the wall clock) is answered by an
      oracle that may depend on the whole history of earlier
      interactions, and is recorded in a trace. *)

From Stdlib Require Import ZArith Lia Bool List Ascii String.
From stdpp Require Import base option list gmap strings pretty fin_maps.

Local Open Scope Z_scope.

(* ===================================================================== *)
(** * Part I: the embedding *)
(* ===================================================================== *)

(** ** Go machine integers *)

Definition wrap64 (z : Z) : Z := (z + 2 ^ 63) mod 2 ^ 64 - 2 ^ 63.
Definition wrapu64 (z : Z) : Z := z mod 2 ^ 64.

Definition int_add (a b : Z) : Z := wrap64 (a + b).
Definition int_sub (a b : Z) : Z := wrap64 (a - b).
Definition uint_inc (a : Z) : Z := wrapu64 (a + 1).
Definition uint_dec (a : Z) : Z := wrapu64 (a - 1).

Definition is_int (z : Z) : Prop := - 2 ^ 63 <= z < 2 ^ 63.

(** ** mutexmap.go: the keyed mutex registry *)

Section MutexMapDefs.
Context {K : Type} `{Countable K}.

(** [type entry struct { mm; mutex *sync.Mutex; count int; key }].
    The [sync.Mutex] behind [mutex] is its [locked] flag. *)
Record entry := Entry {
  e_locked : bool;
  e_count : Z;
  e_key : K;
}.

(** [type MutexMap struct { mutexmap map[interface{}]*entry; mutex }].
    The entries live in [mm_heap]; [mutexmap] holds their addresses.
    The registry-wide [mutex] is represented by the atomicity of
    [Lock_registry] and [Unlock_registry]. *)
Record MutexMap := MkMutexMap {
  mutexmap : gmap K nat;
  mm_heap : gmap nat entry;
  mm_next : nat;
}.

Definition NewMutexMap : MutexMap :=
  {| mutexmap := ∅; mm_heap := ∅; mm_next := 0%nat |}.

(** The closure of [Lock]: find or create the entry, [e.count++].
    Returns the pointer [e]. *)
Definition Lock_registry (key : K) (mm : MutexMap) : nat * MutexMap :=
  let '(e, mm1) :=
    match mutexmap mm !! key with
    | Some e => (e, mm)
    | None =>
        let e := mm_next mm in
        (e, {| mutexmap := <[key := e]> (mutexmap mm);
               mm_heap := <[e := Entry false 0 key]> (mm_heap mm);
               mm_next := S (mm_next mm) |})
    end in
  (e, {| mutexmap := mutexmap mm1;
         mm_heap := alter (fun c => Entry (e_locked c) (int_add (e_count c) 1) (e_key c))
                          e (mm_heap mm1);
         mm_next := mm_next mm1 |}).

(** The closure of [Unlock]: [None] is the panic on a missing key. *)
Definition Unlock_registry (key : K) (mm : MutexMap) : option (nat * MutexMap) :=
  match mutexmap mm !! key with
  | None => None
  | Some e =>
      let heap1 :=
        alter (fun c => Entry (e_locked c) (int_sub (e_count c) 1) (e_key c))
              e (mm_heap mm) in
      let cnt := match heap1 !! e with Some c => e_count c | None => 0 end in
      Some (e, {| mutexmap := if decide (cnt <= 0) then delete key (mutexmap mm)
                              else mutexmap mm;
                  mm_heap := heap1;
                  mm_next := mm_next mm |})
  end.

(** [e.mutex.Lock()]: [None] when the sub-lock is held (the caller
    blocks, the step cannot be taken now). *)
Definition mutex_Lock (e : nat) (mm : MutexMap) : option MutexMap :=
  match mm_heap mm !! e with
  | Some c =>
      if e_locked c then None
      else Some {| mutexmap := mutexmap mm;
                   mm_heap := <[e := Entry true (e_count c) (e_key c)]> (mm_heap mm);
                   mm_next := mm_next mm |}
  | None => None
  end.

(** [e.mutex.Unlock()]: [None] is the runtime's fatal error on
    unlocking an unlocked mutex. *)
Definition mutex_Unlock (e : nat) (mm : MutexMap) : option MutexMap :=
  match mm_heap mm !! e with
  | Some c =>
      if e_locked c
      then Some {| mutexmap := mutexmap mm;
                   mm_heap := <[e := Entry false (e_count c) (e_key c)]> (mm_heap mm);
                   mm_next := mm_next mm |}
      else None
  | None => None
  end.

(** The atomic steps of the two methods, as goroutines interleave
    them. *)
Inductive mm_action :=
| ALockRegistry (key : K)
| AMutexLock (e : nat)
| AUnlockRegistry (key : K)
| AMutexUnlock (e : nat).

Definition mm_step (a : mm_action) (mm : MutexMap) : option MutexMap :=
  match a with
  | ALockRegistry key => Some (snd (Lock_registry key mm))
  | AMutexLock e => mutex_Lock e mm
  | AUnlockRegistry key => snd <$> Unlock_registry key mm
  | AMutexUnlock e => mutex_Unlock e mm
  end.

Fixpoint mm_run (l : list mm_action) (mm : MutexMap) : option MutexMap :=
  match l with
  | [] => Some mm
  | a :: l' =>
      match mm_step a mm with
      | Some mm' => mm_run l' mm'
      | None => None
      end
  end.

(** One uninterrupted call of each method, as its list of atomic
    steps in program order. *)
Definition Lock (key : K) (mm : MutexMap) : option MutexMap :=
  let '(e, mm1) := Lock_registry key mm in mutex_Lock e mm1.

Definition Unlock (key : K) (mm : MutexMap) : option MutexMap :=
  match Unlock_registry key mm with
  | Some (e, mm1) => mutex_Unlock e mm1
  | None => None
  end.

Definition is_lock (key : K) (a : mm_action) : bool :=
  match a with ALockRegistry k => bool_decide (k = key) | _ => false end.
Definition is_unlock (key : K) (a : mm_action) : bool :=
  match a with AUnlockRegistry k => bool_decide (k = key) | _ => false end.

Definition locks_of (key : K) (l : list mm_action) : Z :=
  Z.of_nat (length (filter (fun a => is_lock key a = true) l)).
Definition unlocks_of (key : K) (l : list mm_action) : Z :=
  Z.of_nat (length (filter (fun a => is_unlock key a = true) l)).
End MutexMapDefs.

Arguments entry : clear implicits.
Arguments MutexMap K {_ _}.
Arguments mm_action : clear implicits.

(** ** A state monad with panics

    [Ret] is a normal return, [Panic] a Go panic that nobody recovers
    (the process dies), [Blocked] a goroutine parked on a lock that is
    held.  Go's [error] values are ordinary results, not outcomes. *)

Definition error := string.

Inductive result (A : Type) :=
| Ok (a : A)
| Err (e : error).
Arguments Ok {A} a.
Arguments Err {A} e.

Inductive Outcome (A : Type) :=
| Ret (a : A)
| Panic (msg : string)
| Blocked.
Arguments Ret {A} a.
Arguments Panic {A} msg.
Arguments Blocked {A}.

Definition M (S A : Type) : Type := S -> Outcome (A * S).

Definition ret {S A} (a : A) : M S A := fun st => Ret (a, st).

Definition bind {S A B} (m : M S A) (k : A -> M S B) : M S B :=
  fun st =>
    match m st with
    | Ret (a, st') => k a st'
    | Panic msg => Panic msg
    | Blocked => Blocked
    end.

Definition panic {S A} (msg : string) : M S A := fun _ => Panic msg.

Notation "x <- c1 ;; c2" := (bind c1 (fun x => c2))
  (at level 20, c1 at level 99, c2 at level 200).
Notation "' pat <- c1 ;; c2" :=
  (bind c1 (fun x => match x with pat => c2 end))
  (at level 20, pat pattern, c1 at level 99, c2 at level 200).
Notation "c1 ;; c2" := (bind c1 (fun _ => c2))
  (at level 100, c2 at level 200, right associativity).

(** ** fishingboat.go: data model *)

Record Resources := MkResources {
  MilliCPU : Z;
  MemoryMi : Z;
  GpuMemoryMi : Z;
}.

Record PortMapping := MkPortMapping {
  ContainerPort : Z;
  HostPorts : list Z;
}.

Definition None_ : string := "".
Definition Always : string := "always".
Definition Never : string := "never".
Definition IfNotPresent : string := "ifnotpresent".

(** [Config] and [HostConfig] are opaque pass-through values that are
    only copied into the arguments of [ContainerCreate]; they are left
    out.  [ResourceRequest] is a pointer: [None] is [nil]. *)
Record Service := MkService {
  Name : string;
  ResourceRequest : option Resources;
  CoolDown : Z;
  Ports : list PortMapping;
  Image : string;
  PullPolicy : string;
  HostIP : string;
  Cmd : list string;
}.

Record ServicesConfig := MkServicesConfig {
  ProxyIP : string;
  ServiceHostIP : string;
  Limits : Resources;
  Services : list Service;
}.

(** [type Server struct].  [ServerLock] and [TrackedResourcesLock] are
    represented by the atomicity of the functions that run under them;
    the object behind the pointer [ContainerAPILock] is kept beside the
    server in [World]. *)
Record Server := MkServer {
  Config : ServicesConfig;
  ServiceProxyHostPortMap : gmap string (gmap Z Z);
  ServiceConnCount : gmap string Z;
  ServiceKillTime : gmap string Z;
  TrackedResources : Resources;
}.

(** ** The container runtime and the operating system *)

Record Container := MkContainer {
  c_ID : string;
  c_Names : list string;
  c_Image : string;
  c_State : string;
}.

Record ImageSummary := MkImageSummary { RepoTags : list string }.

Record PortBinding := MkPortBinding {
  pb_HostIP : string;
  pb_HostPort : string;
}.

(** What [ContainerInspect] returns, as far as the code reads it:
    [State.Status], [State.Running], [State.Health] (a pointer) and
    [HostConfig.PortBindings] (a Go map, listed in the order in which
    [range] happens to visit it). *)
Record ContainerJSON := MkContainerJSON {
  st_Status : string;
  st_Running : bool;
  st_Health : option string;
  hc_PortBindings : list (string * list PortBinding);
}.

(** The arguments of [ContainerCreate] that the code computes. *)
Record CreateSpec := MkCreateSpec {
  cs_Image : string;
  cs_Cmd : list string;
  cs_PortBindings : gmap string (list PortBinding);
  cs_Memory : Z;
  cs_NanoCPUs : Z;
  cs_GpuDevices : bool;
}.

Inductive Event :=
| EvNewClient
| EvContainerList (name : string)
| EvContainerRemove (id : string)
| EvImagePull (image : string)
| EvImageList
| EvContainerCreate (name : string) (spec : CreateSpec)
| EvContainerStart (id : string)
| EvContainerInspect (id : string)
| EvContainerStop (id : string)
| EvContainerWait (id : string)
| EvListen (ip : string) (port : Z)
| EvRand
| EvNow
| EvDial (ip : string) (port : Z)
| EvCopy.


(** The environment: every answer may depend on the history, the list
    of earlier events, most recent first.  For the calls that return
    only an [error], [None] is [nil]. *)
Record Env := MkEnv {
  NewClientWithOpts : list Event -> option error;
  ContainerList : list Event -> string -> result (list Container);
  ContainerRemove : list Event -> string -> option error;
  ImagePull : list Event -> string -> option error;
  ImageList : list Event -> result (list ImageSummary);
  ContainerCreate : list Event -> string -> CreateSpec -> result string;
  ContainerStart : list Event -> string -> option error;
  ContainerInspect : list Event -> string -> result ContainerJSON;
  ContainerStop : list Event -> string -> option error;
  ContainerWait : list Event -> string -> option error;
  net_Listen : list Event -> string -> Z -> bool;
  rand_Int63 : list Event -> Z;
  time_Now : list Event -> Z;
  net_Dial : list Event -> string -> Z -> bool;
}.

(** The state the body of a method works on. *)
Record St := MkSt {
  srv : Server;
  trace : list Event;
}.

(** The whole process: the server, the keyed mutex registry it points
    to, and the trace. *)
Record World := MkWorld {
  w_st : St;
  ContainerAPILock : MutexMap string;
}.

Definition call {A} (ev : Event) (answer : list Event -> A) : M St A :=
  fun st => Ret (answer (trace st), {| srv := srv st; trace := ev :: trace st |}).

Definition get_srv : M St Server := fun st => Ret (srv st, st).

Definition modify_srv (f : Server -> Server) : M St unit :=
  fun st => Ret (tt, {| srv := f (srv st); trace := trace st |}).

Definition lift {A} (m : M St A) : M World A :=
  fun w =>
    match m (w_st w) with
    | Ret (a, st') => Ret (a, {| w_st := st'; ContainerAPILock := ContainerAPILock w |})
    | Panic msg => Panic msg
    | Blocked => Blocked
    end.

(** [s.ContainerAPILock.Lock(name); defer s.ContainerAPILock.Unlock(name)]
    around a method body.  A panic of the body is not recovered, so the
    deferred [Unlock] that runs while panicking is not observable. *)
Definition with_ContainerAPILock {A} (name : string) (body : M St A) : M World A :=
  fun w =>
    match Lock name (ContainerAPILock w) with
    | None => Blocked
    | Some mm1 =>
        match body (w_st w) with
        | Ret (a, st') =>
            match Unlock name mm1 with
            | Some mm2 => Ret (a, {| w_st := st'; ContainerAPILock := mm2 |})
            | None => Panic "unlocking entry not found in mutexmap"
            end
        | Panic msg => Panic msg
        | Blocked => Blocked
        end
    end.

(** ** Go library functions used by the code *)

Definition is_upper (c : ascii) : bool :=
  (65 <=? Z.of_nat (nat_of_ascii c)) && (Z.of_nat (nat_of_ascii c) <=? 90).

(** [strings.ToLower], exact on ASCII text (the four policies are
    ASCII). *)
Fixpoint strings_ToLower (s : string) : string :=
  match s with
  | EmptyString => EmptyString
  | String c s' =>
      String (if is_upper c then ascii_of_nat (nat_of_ascii c + 32) else c)
             (strings_ToLower s')
  end.

(** [strings.Split(s, sep)[0]] for a one-byte separator: the text
    before the first separator, or all of [s]. *)
Fixpoint split_first (sep : ascii) (s : string) : string :=
  match s with
  | EmptyString => EmptyString
  | String c s' =>
      if bool_decide (c = sep) then EmptyString else String c (split_first sep s')
  end.

Definition digit_of (c : ascii) : option Z :=
  let n := Z.of_nat (nat_of_ascii c) in
  if (48 <=? n) && (n <=? 57) then Some (n - 48) else None.

Fixpoint parse_digits (s : string) (acc : Z) : option Z :=
  match s with
  | EmptyString => Some acc
  | String c s' =>
      match digit_of c with
      | Some d => parse_digits s' (acc * 10 + d)
      | None => None
      end
  end.

(** [strconv.Atoi]: an optional sign, at least one decimal digit, and a
    value that fits an [int]. *)
Definition strconv_Atoi (s : string) : result Z :=
  match s with
  | EmptyString => Err "strconv.Atoi: invalid syntax"
  | String c rest =>
      let neg := bool_decide (c = "-"%char) in
      let body := if neg || bool_decide (c = "+"%char) then rest else s in
      match body with
      | EmptyString => Err "strconv.Atoi: invalid syntax"
      | _ =>
          match parse_digits body 0 with
          | None => Err "strconv.Atoi: invalid syntax"
          | Some n =>
              let v := if neg then - n else n in
              if (- 2 ^ 63 <=? v) && (v <? 2 ^ 63) then Ok v
              else Err "strconv.Atoi: value out of range"
          end
      end
  end.

(** [fmt.Sprint] of an [int]. *)
Definition fmt_Sprint (z : Z) : string := pretty z.

(** [nat.NewPort(proto, fmt.Sprint(port))] of go-connections: the port
    must parse as a 16-bit unsigned number. *)
Definition nat_NewPort (proto : string) (port : Z) : result string :=
  if (0 <=? port) && (port <=? 65535)
  then Ok (fmt_Sprint port +:+ "/" +:+ proto)
  else Err "invalid port".

(** [time.Second] as a [time.Duration], and [time.Since(ts)] for the
    clock reading [now].  [Seconds() > 0] holds exactly when the
    duration is positive. *)
Definition time_Second : Z := 1000000000.

(** [rand.Intn(n)] for [n > 0], from the generator's raw output. *)
Definition rand_Intn (n : Z) (raw : Z) : Z := raw mod n.

(** ** fishingboat.go: the resource ledger *)

(** The admission test of [LaunchContainer], run under
    [TrackedResourcesLock.RLock]. *)
Definition admission_check (r : Resources) (s : Server) : option error :=
  if int_add (MilliCPU (TrackedResources s)) (MilliCPU r) >? MilliCPU (Limits (Config s))
  then Some "not enough cpu resources to launch container"
  else if int_add (MemoryMi (TrackedResources s)) (MemoryMi r) >? MemoryMi (Limits (Config s))
  then Some "not enough memory resources to launch container"
  else if int_add (GpuMemoryMi (TrackedResources s)) (GpuMemoryMi r) >? GpuMemoryMi (Limits (Config s))
  then Some "not enough video memory resources to launch container"
  else None.

Definition set_TrackedResources (t : Resources) (s : Server) : Server :=
  {| Config := Config s;
     ServiceProxyHostPortMap := ServiceProxyHostPortMap s;
     ServiceConnCount := ServiceConnCount s;
     ServiceKillTime := ServiceKillTime s;
     TrackedResources := t |}.

(** [// reserve resources], run under [TrackedResourcesLock.Lock]. *)
Definition reserve (r : Resources) (s : Server) : Server :=
  set_TrackedResources
    {| MilliCPU := int_add (MilliCPU (TrackedResources s)) (MilliCPU r);
       MemoryMi := int_add (MemoryMi (TrackedResources s)) (MemoryMi r);
       GpuMemoryMi := int_add (GpuMemoryMi (TrackedResources s)) (GpuMemoryMi r) |} s.

(** [// release unused resources], and the same three statements at the
    end of [StopContainer]. *)
Definition release (r : Resources) (s : Server) : Server :=
  set_TrackedResources
    {| MilliCPU := int_sub (MilliCPU (TrackedResources s)) (MilliCPU r);
       MemoryMi := int_sub (MemoryMi (TrackedResources s)) (MemoryMi r);
       GpuMemoryMi := int_sub (GpuMemoryMi (TrackedResources s)) (GpuMemoryMi r) |} s.

(** Invariant R1 of the design document. *)
Definition within_limits (s : Server) : Prop :=
  MilliCPU (TrackedResources s) <= MilliCPU (Limits (Config s)) /\
  MemoryMi (TrackedResources s) <= MemoryMi (Limits (Config s)) /\
  GpuMemoryMi (TrackedResources s) <= GpuMemoryMi (Limits (Config s)).

(** ** fishingboat.go: updates of the per-service maps *)

Definition set_ServiceProxyHostPortMap (m : gmap string (gmap Z Z)) (s : Server) : Server :=
  {| Config := Config s;
     ServiceProxyHostPortMap := m;
     ServiceConnCount := ServiceConnCount s;
     ServiceKillTime := ServiceKillTime s;
     TrackedResources := TrackedResources s |}.

Definition set_ServiceConnCount (m : gmap string Z) (s : Server) : Server :=
  {| Config := Config s;
     ServiceProxyHostPortMap := ServiceProxyHostPortMap s;
     ServiceConnCount := m;
     ServiceKillTime := ServiceKillTime s;
     TrackedResources := TrackedResources s |}.

Definition set_ServiceKillTime (m : gmap string Z) (s : Server) : Server :=
  {| Config := Config s;
     ServiceProxyHostPortMap := ServiceProxyHostPortMap s;
     ServiceConnCount := ServiceConnCount s;
     ServiceKillTime := m;
     TrackedResources := TrackedResources s |}.

(** [if _, ok := s.ServiceProxyHostPortMap[name]; !ok
       { s.ServiceProxyHostPortMap[name] = make(map[int]int) }] *)
Definition ensure_port_map (name : string) (s : Server) : Server :=
  match ServiceProxyHostPortMap s !! name with
  | Some _ => s
  | None => set_ServiceProxyHostPortMap (<[name := ∅]> (ServiceProxyHostPortMap s)) s
  end.

(** [s.ServiceProxyHostPortMap[name][containerPort] = hostPort]; writing
    through a missing (nil) inner map panics in Go, the callers create
    it first. *)
Definition store_port (name : string) (containerPort hostPort : Z) (s : Server) : Server :=
  set_ServiceProxyHostPortMap
    (alter (fun m => <[containerPort := hostPort]> m) name (ServiceProxyHostPortMap s)) s.

(** The lookup of [HandleConnection] before it dials. *)
Definition backendHostPort (name : string) (containerPort : Z) (s : Server) : Z :=
  match ServiceProxyHostPortMap s !! name with
  | Some m =>
      match m !! containerPort with
      | Some p => p
      | None => -1
      end
  | None => -1
  end.

Definition effective_hostIP (app : Service) (s : Server) : string :=
  if bool_decide (HostIP app = "") then ServiceHostIP (Config s) else HostIP app.

Definition containerName (name : string) : string := name +:+ "-goscalezero".

(** The [searchlist] loop: the first listed container one of whose
    names is ["/" + containerName]. *)
Definition searchlist (l : list Container) (cname : string) : option Container :=
  List.find (fun c => existsb (fun n => bool_decide (n = "/" +:+ cname)) (c_Names c)) l.

Definition rangeStart : Z := 49152.
Definition rangeEnd : Z := 65535.
Definition maxAttempts : nat := 32.

Definition int_mul (a b : Z) : Z := wrap64 (a * b).

Section Program.
Variable env : Env.

(** ** [FindOpenPort] *)

(** The [for] loop of [FindOpenPort], with [i] iterations left. *)
Fixpoint FindOpenPort_loop (i : nat) (ip : string) (attemptPort : Z)
  : M St (Z * option error) :=
  match i with
  | O => ret (-1, Some "could not find open port after 32 attempts")
  | S i' =>
      bound <- call (EvListen ip attemptPort)
                    (fun h => net_Listen env h ip attemptPort) ;;
      if (bound : bool) then ret (attemptPort, None)
      else
        let attemptPort := int_add attemptPort 1 in
        let attemptPort := if attemptPort >? rangeEnd then rangeStart else attemptPort in
        FindOpenPort_loop i' ip attemptPort
  end.

(** [attemptPort := rangeStart + rand.Intn(rangeEnd-rangeStart)] *)
Definition first_attemptPort (raw : Z) : Z :=
  int_add rangeStart (rand_Intn (int_sub rangeEnd rangeStart) raw).

Definition FindOpenPort (ip : string) : M St (Z * option error) :=
  raw <- call EvRand (rand_Int63 env) ;;
  FindOpenPort_loop maxAttempts ip (first_attemptPort raw).

(** ** [LaunchContainer] *)

(** [// Check if container is valid]: a container of another image is
    removed and the service counts as absent. *)
Definition validate_image (app : Service) (cont : option Container)
  : M St (result (option Container)) :=
  match cont with
  | Some c =>
      if bool_decide (c_Image c = Image app) then ret (Ok (Some c))
      else
        err <- call (EvContainerRemove (c_ID c))
                    (fun h => ContainerRemove env h (c_ID c)) ;;
        match err with
        | Some e => ret (Err e)
        | None => ret (Ok None)
        end
  | None => ret (Ok None)
  end.

(** [// Pull the image].  [Never], [None] and unknown policies pull
    nothing.  Every error of this stage is logged and the [err] it
    leaves behind is overwritten before it is read. *)
Definition pull_image (app : Service) : M St unit :=
  let policy := strings_ToLower (PullPolicy app) in
  if bool_decide (policy = Always) then
    call (EvImagePull (Image app)) (fun h => ImagePull env h (Image app)) ;;
    ret tt
  else if bool_decide (policy = IfNotPresent) then
    images <- call EvImageList (ImageList env) ;;
    match images with
    | Err _ => ret tt
    | Ok images =>
        if existsb (fun im => existsb (fun tag => bool_decide (tag = Image app))
                                      (RepoTags im)) images
        then ret tt
        else
          call (EvImagePull (Image app)) (fun h => ImagePull env h (Image app)) ;;
          ret tt
    end
  else ret tt.

(** The loop over [app.Ports] that finds a host port for every
    container port and builds the [nat.PortMap]. *)
Fixpoint alloc_ports (app : Service) (hostIP : string) (ports : list PortMapping)
         (portMap : gmap string (list PortBinding))
  : M St (option error * gmap string (list PortBinding)) :=
  match ports with
  | [] => ret (None, portMap)
  | port :: rest =>
      match nat_NewPort "tcp" (ContainerPort port) with
      | Err e => ret (Some e, portMap)
      | Ok natport =>
          modify_srv (ensure_port_map (Name app)) ;;
          '(p, err) <- FindOpenPort hostIP ;;
          modify_srv (store_port (Name app) (ContainerPort port) p) ;;
          match err with
          | Some e => ret (Some e, portMap)
          | None =>
              alloc_ports app hostIP rest
                (<[natport := [MkPortBinding hostIP (fmt_Sprint p)]]> portMap)
          end
      end
  end.

Definition create_spec (app : Service) (r : Resources)
           (portMap : gmap string (list PortBinding)) : CreateSpec :=
  {| cs_Image := Image app;
     cs_Cmd := Cmd app;
     cs_PortBindings := portMap;
     cs_Memory := if MemoryMi r >? 0 then int_mul (int_mul (MemoryMi r) 1024) 1024 else 0;
     cs_NanoCPUs := if MilliCPU r >? 0 then int_mul (MilliCPU r) 1000000 else 0;
     cs_GpuDevices := GpuMemoryMi r >? 0 |}.

(** The branch [if cont == nil]: pull, allocate ports, create.
    Returns [err] and [contID]. *)
Definition launch_create (app : Service) : M St (option error * string) :=
  pull_image app ;;
  s <- get_srv ;;
  '(err, portMap) <- alloc_ports app (effective_hostIP app s) (Ports app) ∅ ;;
  match err with
  | Some e => ret (Some e, "")
  | None =>
      match ResourceRequest app with
      | None => panic "nil pointer dereference"
      | Some r =>
          let spec := create_spec app r portMap in
          resp <- call (EvContainerCreate (containerName (Name app)) spec)
                       (fun h => ContainerCreate env h (containerName (Name app)) spec) ;;
          match resp with
          | Err e => ret (Some e, "")
          | Ok id => ret (None, id)
          end
      end
  end.

(** [// Wait for the container to start], with [n] polls left. *)
Fixpoint wait_running (n : nat) (contID : string) : M St (option error) :=
  match n with
  | O => ret (Some "container did not start in time")
  | S n' =>
      r <- call (EvContainerInspect contID)
                (fun h => ContainerInspect env h contID) ;;
      match r with
      | Err e => ret (Some e)
      | Ok cont =>
          if negb (bool_decide (st_Status cont = "running"))
          then ret (Some "container is not running")
          else
            let health := default "none" (st_Health cont) in
            if bool_decide (health = "none") then
              if st_Running cont then ret None else wait_running n' contID
            else if bool_decide (health = "healthy") then ret None
            else wait_running n' contID
      end
  end.

Definition start_and_wait (contID : string) : M St (option error) :=
  err <- call (EvContainerStart contID) (fun h => ContainerStart env h contID) ;;
  match err with
  | Some e => ret (Some e)
  | None => wait_running 100 contID
  end.

(** From the admission test to the last [return], followed by the
    deferred function registered after the reservation
    ([// release unused resources]). *)
Definition launch_start (app : Service) (contID : string) : M St (option error) :=
  match ResourceRequest app with
  | None => panic "nil pointer dereference"
  | Some r =>
      s <- get_srv ;;
      match admission_check r s with
      | Some e => ret (Some e)
      | None =>
          modify_srv (reserve r) ;;
          err <- start_and_wait contID ;;
          match err with
          | Some e => modify_srv (release r) ;; ret (Some e)
          | None => ret None
          end
      end
  end.

(** The [for natport, bindings := range inspect.HostConfig.PortBindings]
    loop of the first deferred function. *)
Fixpoint store_bindings (name : string) (bs : list (string * list PortBinding))
  : M St (option error) :=
  match bs with
  | [] => ret None
  | (natport, bindings) :: rest =>
      match strconv_Atoi (split_first "/"%char natport) with
      | Err e => ret (Some e)
      | Ok containerPort =>
          match bindings with
          | [] => panic "index out of range [0] with length 0"
          | b :: _ =>
              match strconv_Atoi (pb_HostPort b) with
              | Err e => ret (Some e)
              | Ok hostPort =>
                  modify_srv (store_port name containerPort hostPort) ;;
                  store_bindings name rest
              end
          end
      end
  end.

(** The first deferred function ([// Store port mappings (if not
    already stored)]); it runs last and may replace a [nil] [err]. *)
Definition hydrate_ports (app : Service) (contID : string) (err : option error)
  : M St (option error) :=
  match err with
  | Some e => ret (Some e)
  | None =>
      s <- get_srv ;;
      match ServiceProxyHostPortMap s !! Name app with
      | Some _ => ret None
      | None =>
          r <- call (EvContainerInspect contID)
                    (fun h => ContainerInspect env h contID) ;;
          match r with
          | Err e => ret (Some e)
          | Ok inspect =>
              modify_srv (ensure_port_map (Name app)) ;;
              store_bindings (Name app) (hc_PortBindings inspect)
          end
      end
  end.

(** The part of [LaunchContainer] between the registration of the
    first deferred function and the [return]s. *)
Definition launch_main (app : Service) (cont : option Container)
  : M St (option error * string) :=
  match cont with
  | None =>
      '(err, contID) <- launch_create app ;;
      match err with
      | Some e => ret (Some e, contID)
      | None => err <- launch_start app contID ;; ret (err, contID)
      end
  | Some c =>
      if bool_decide (c_State c = "running") then ret (None, c_ID c)
      else err <- launch_start app (c_ID c) ;; ret (err, c_ID c)
  end.

(** [LaunchContainer] between [Lock] and the deferred [Unlock]. *)
Definition LaunchContainer_body (app : Service) : M St (option error) :=
  cerr <- call EvNewClient (NewClientWithOpts env) ;;
  match cerr with
  | Some e => panic e
  | None =>
      l <- call (EvContainerList (containerName (Name app)))
                (fun h => ContainerList env h (containerName (Name app))) ;;
      match l with
      | Err e => ret (Some e)
      | Ok l =>
          v <- validate_image app (searchlist l (containerName (Name app))) ;;
          match v with
          | Err e => ret (Some e)
          | Ok cont =>
              '(err, contID) <- launch_main app cont ;;
              hydrate_ports app contID err
          end
      end
  end.

Definition LaunchContainer (app : Service) : M World (option error) :=
  with_ContainerAPILock (Name app) (LaunchContainer_body app).

(** ** [StopContainer] *)

(** The closing function literal of [StopContainer]: look the
    service up in the configuration and give its request back. *)
Definition release_stopped (name : string) : M St unit :=
  s <- get_srv ;;
  match List.find (fun serv => bool_decide (Name serv = name)) (Services (Config s)) with
  | None => ret tt
  | Some service =>
      match ResourceRequest service with
      | None => panic "nil pointer dereference"
      | Some r => modify_srv (release r)
      end
  end.

(** [StopContainer] between [Lock] and the deferred [Unlock]. *)
Definition StopContainer_body (name : string) : M St (option error) :=
  s <- get_srv ;;
  if match ServiceConnCount s !! name with
     | Some count => count >? 0
     | None => false
     end
  then ret (Some "container has active connections")
  else
    cerr <- call EvNewClient (NewClientWithOpts env) ;;
    match cerr with
    | Some e => ret (Some e)
    | None =>
        l <- call (EvContainerList (containerName name))
                  (fun h => ContainerList env h (containerName name)) ;;
        match l with
        | Err e => ret (Some e)
        | Ok l =>
            match searchlist l (containerName name) with
            | None => ret (Some "container does not exist")
            | Some cont =>
                err <- call (EvContainerStop (c_ID cont))
                            (fun h => ContainerStop env h (c_ID cont)) ;;
                match err with
                | Some e => ret (Some e)
                | None =>
                    err <- call (EvContainerWait (c_ID cont))
                                (fun h => ContainerWait env h (c_ID cont)) ;;
                    match err with
                    | Some e => ret (Some e)
                    | None => release_stopped name ;; ret None
                    end
                end
            end
        end
    end.

Definition StopContainer (name : string) : M World (option error) :=
  with_ContainerAPILock name (StopContainer_body name).

(** ** [HandleConnection] *)

(** [s.ServiceConnCount[name]++] and [--] on a [uint]. *)
Definition incr_conn (name : string) (s : Server) : Server :=
  set_ServiceConnCount
    (<[name := uint_inc (default 0 (ServiceConnCount s !! name))]> (ServiceConnCount s)) s.

Definition decr_conn (name : string) (s : Server) : Server :=
  set_ServiceConnCount
    (<[name := uint_dec (default 0 (ServiceConnCount s !! name))]> (ServiceConnCount s)) s.

(** [s.ServiceKillTime[name] = time.Now().Add(time.Duration(CoolDown) * time.Second)] *)
Definition arm_killTime (app : Service) (now : Z) (s : Server) : Server :=
  set_ServiceKillTime
    (<[Name app := now + int_mul (CoolDown app) time_Second]> (ServiceKillTime s)) s.

(** The start of [HandleConnection], up to and including
    [// refcount].  Returns whether the connection goes on. *)
Definition HandleConnection_acquire (app : Service) : M World bool :=
  s <- lift get_srv ;;
  let containerActive :=
    match ServiceConnCount s !! Name app with
    | Some count => count >? 0
    | None => false
    end in
  err <- (if containerActive then ret None else LaunchContainer app) ;;
  match err with
  | Some _ => ret false
  | None => lift (modify_srv (incr_conn (Name app))) ;; ret true
  end.

(** The deferred function [// on closed, give the container a
    deadline]. *)
Definition HandleConnection_release (app : Service) : M St unit :=
  modify_srv (decr_conn (Name app)) ;;
  s <- get_srv ;;
  match ServiceConnCount s !! Name app with
  | Some count =>
      if count =? 0 then
        now <- call EvNow (time_Now env) ;;
        modify_srv (arm_killTime app now)
      else ret tt
  | None => ret tt
  end.

(** [// connect to container] and the two copies, a black box. *)
Definition HandleConnection_forward (app : Service) (port : PortMapping) : M St unit :=
  s <- get_srv ;;
  let hostIP := effective_hostIP app s in
  let p := backendHostPort (Name app) (ContainerPort port) s in
  connected <- call (EvDial hostIP p) (fun h => net_Dial env h hostIP p) ;;
  if (connected : bool) then call EvCopy (fun _ => tt) else ret tt.

Definition HandleConnection (app : Service) (port : PortMapping) : M World unit :=
  proceed <- HandleConnection_acquire app ;;
  if (proceed : bool) then
    lift (HandleConnection_forward app port ;; HandleConnection_release app)
  else ret tt.

(** ** [CleanUpContainers] *)




End Program.

(** ** Concurrent launches and the ledger

    Launches of different services hold different keyed locks, so their
    admission sections interleave; the only synchronisation is
    [TrackedResourcesLock], taken once (shared) for the test and once
    more (exclusive) for the reservation.  A goroutine in that part of
    [launch_start] is its request and its program counter. *)

Inductive adm_pc :=
| PcCheck
| PcReserve
| PcReserved
| PcRejected.

Record adm_thread := MkAdmThread {
  at_request : Resources;
  at_pc : adm_pc;
}.

(** One atomic step of a goroutine: what it does while it holds the
    ledger lock once. *)
Definition adm_thread_step (t : adm_thread) (s : Server) : option (adm_thread * Server) :=
  match at_pc t with
  | PcCheck =>
      match admission_check (at_request t) s with
      | Some _ => Some (MkAdmThread (at_request t) PcRejected, s)
      | None => Some (MkAdmThread (at_request t) PcReserve, s)
      end
  | PcReserve => Some (MkAdmThread (at_request t) PcReserved, reserve (at_request t) s)
  | PcReserved | PcRejected => None
  end.

(** A schedule names the goroutine that moves next. *)
Fixpoint adm_run (schedule : list nat) (ts : list adm_thread) (s : Server)
  : option (list adm_thread * Server) :=
  match schedule with
  | [] => Some (ts, s)
  | i :: rest =>
      match ts !! i with
      | None => None
      | Some t =>
          match adm_thread_step t s with
          | None => None
          | Some (t', s') => adm_run rest (<[i := t']> ts) s'
          end
      end
  end.

(** ** Invariants and scenarios used by the properties *)

Section MutexMapInvariant.
Context {K : Type} `{Countable K}.

(** The registry invariant relative to a balance [b]: the number of
    [Lock]s minus the number of [Unlock]s that have passed the
    registry, key by key. *)
Definition mm_inv (b : K -> Z) (mm : MutexMap K) : Prop :=
  (forall k a, mutexmap mm !! k = Some a ->
     exists c, mm_heap mm !! a = Some c /\ e_key c = k /\ e_count c = b k /\ 0 < b k) /\
  (forall k, mutexmap mm !! k = None -> b k = 0) /\
  (forall a c, mm_heap mm !! a = Some c -> (a < mm_next mm)%nat).

Definition balance_step (a : mm_action K) (b : K -> Z) : K -> Z :=
  match a with
  | ALockRegistry key => fun k => if decide (k = key) then b k + 1 else b k
  | AUnlockRegistry key => fun k => if decide (k = key) then b k - 1 else b k
  | _ => b
  end.
End MutexMapInvariant.

(** Two goroutines contend for one key: the second enters the registry
    while the first holds the sub-lock. *)
Definition two_holders : list (mm_action string) :=
  [ALockRegistry "svc"; AMutexLock 0%nat; ALockRegistry "svc";
   AUnlockRegistry "svc"; AMutexUnlock 0%nat; AMutexLock 0%nat;
   AUnlockRegistry "svc"; AMutexUnlock 0%nat].

(** The port tried after [attemptPort] has failed. *)
Definition next_attemptPort (attemptPort : Z) : Z :=
  if int_add attemptPort 1 >? rangeEnd then rangeStart else int_add attemptPort 1.

(** The first [k] ports tried from [attemptPort] on. *)
Fixpoint attempted_ports (k : nat) (attemptPort : Z) : list Z :=
  match k with
  | O => []
  | S k' => attemptPort :: attempted_ports k' (next_attemptPort attemptPort)
  end.

Definition in_range (p : Z) : Prop := rangeStart <= p <= rangeEnd.

(** Partial-correctness reading of a computation: what holds of the
    result and the final state if it returns. *)
Definition post {S A} (m : M S A) (st : S) (Q : A -> S -> Prop) : Prop :=
  match m st with
  | Ret (a, st') => Q a st'
  | Panic _ => True
  | Blocked => True
  end.

(** The computation returns (it neither panics nor blocks). *)
Definition returns {S A} (m : M S A) (st : S) (Q : A -> S -> Prop) : Prop :=
  match m st with
  | Ret (a, st') => Q a st'
  | Panic _ => False
  | Blocked => False
  end.

(** A computation on [St] relates the server before to the server
    after by [R], whenever it returns. *)
Definition preserves {A} (R : Server -> Server -> Prop) (m : M St A) : Prop :=
  forall st, post m st (fun _ st' => R (srv st) (srv st')).

(** What the parts of the server that a method must leave alone look
    like before and after. *)
Definition same_conn_kill (s s' : Server) : Prop :=
  ServiceConnCount s' = ServiceConnCount s /\
  ServiceKillTime s' = ServiceKillTime s /\
  Config s' = Config s.

Definition same_tracked (s s' : Server) : Prop :=
  TrackedResources s' = TrackedResources s.

Definition same_ports (s s' : Server) : Prop :=
  ServiceProxyHostPortMap s' = ServiceProxyHostPortMap s.

(** Entries of the outer port map are never removed. *)
Definition keeps_entry (name : string) (s s' : Server) : Prop :=
  is_Some (ServiceProxyHostPortMap s !! name) ->
  is_Some (ServiceProxyHostPortMap s' !! name).


(** Every container port of [cps] has a host port of the ephemeral
    range on record; in particular the forwarder's lookup does not fall
    back to [-1]. *)
Definition ports_ready (name : string) (cps : list Z) (s : Server) : Prop :=
  forall cp, In cp cps -> in_range (backendHostPort name cp s).

(** The ledger holds Go [int]s. *)
Definition wf_ledger (s : Server) : Prop :=
  is_int (MilliCPU (TrackedResources s)) /\
  is_int (MemoryMi (TrackedResources s)) /\
  is_int (GpuMemoryMi (TrackedResources s)).

(** At history [h] the runtime answers, and lists a running container
    of the service with the configured image. *)
Definition reported_running (env : Env) (app : Service) (h : list Event) : Prop :=
  NewClientWithOpts env h = None /\
  exists l c,
    ContainerList env (EvNewClient :: h) (containerName (Name app)) = Ok l /\
    searchlist l (containerName (Name app)) = Some c /\
    c_Image c = Image app /\
    c_State c = "running".

(** [n] calls of [LaunchContainer] in a row, with their results. *)
Fixpoint launch_times (env : Env) (app : Service) (n : nat) : M St (list (option error)) :=
  match n with
  | O => ret []
  | S n' =>
      err <- LaunchContainer_body env app ;;
      errs <- launch_times env app n' ;;
      ret (err :: errs)
  end.



(** ** Concrete scenarios *)

Definition web : Service :=
  {| Name := "web";
     ResourceRequest := Some (MkResources 3000 8 0);
     CoolDown := 60;
     Ports := [MkPortMapping 80 [80]];
     Image := "strm/helloworld-http:latest";
     PullPolicy := "ifnotpresent";
     HostIP := "";
     Cmd := [] |}.

Definition api : Service :=
  {| Name := "api";
     ResourceRequest := Some (MkResources 3000 4000 0);
     CoolDown := 300;
     Ports := [MkPortMapping 8080 [8080]];
     Image := "example/api:1";
     PullPolicy := "never";
     HostIP := "";
     Cmd := [] |}.

Definition config0 : ServicesConfig :=
  {| ProxyIP := "0.0.0.0";
     ServiceHostIP := "0.0.0.0";
     Limits := MkResources 4000 8000 8000;
     Services := [web; api] |}.

(** The server as [main] builds it. *)
Definition server0 : Server :=
  {| Config := config0;
     ServiceProxyHostPortMap := ∅;
     ServiceConnCount := ∅;
     ServiceKillTime := ∅;
     TrackedResources := MkResources 0 0 0 |}.

Definition st0 : St := {| srv := server0; trace := [] |}.

Definition world0 : World := {| w_st := st0; ContainerAPILock := NewMutexMap |}.

(** The container of [web] as [ContainerList] reports it. *)
Definition web_container (state : string) : Container :=
  {| c_ID := "4f2a";
     c_Names := ["/web-goscalezero"];
     c_Image := "strm/helloworld-http:latest";
     c_State := state |}.

Definition inspect_running (bindings : list (string * list PortBinding)) : ContainerJSON :=
  {| st_Status := "running";
     st_Running := true;
     st_Health := None;
     hc_PortBindings := bindings |}.

(** A runtime that always gives the same answers: the client is built
    with result [client], every listing is [listed], every inspection
    is [inspect], the clock reads [now], every other call succeeds and
    every port is free. *)
Definition steady_env (client : option error) (listed : list Container)
           (inspect : result ContainerJSON) (now : Z) : Env :=
  {| NewClientWithOpts := fun _ => client;
     ContainerList := fun _ _ => Ok listed;
     ContainerRemove := fun _ _ => None;
     ImagePull := fun _ _ => None;
     ImageList := fun _ => Ok [];
     ContainerCreate := fun _ _ _ => Ok "9c1d";
     ContainerStart := fun _ _ => None;
     ContainerInspect := fun _ _ => inspect;
     ContainerStop := fun _ _ => None;
     ContainerWait := fun _ _ => None;
     net_Listen := fun _ _ _ => true;
     rand_Int63 := fun _ => 0;
     time_Now := fun _ => now;
     net_Dial := fun _ _ _ => true |}.

(** The container runs and publishes port 80 on host port 49200. *)
Definition env_running : Env :=
  steady_env None [web_container "running"]
    (Ok (inspect_running [("80/tcp", [MkPortBinding "0.0.0.0" "49200"])])) 1000.

(** The container exists but is stopped; it was created by hand with
    [-p 80], so its binding names no host port. *)
Definition env_stopped_unbound : Env :=
  steady_env None [web_container "exited"]
    (Ok (inspect_running [("80/tcp", [MkPortBinding "" ""])])) 1000.

(** The container exists but is stopped and publishes port 80 on host
    port 49200; the runtime answers the first inspection and fails
    every later one. *)
Definition env_stopped_inspect_once : Env :=
  {| NewClientWithOpts := fun _ => None;
     ContainerList := fun _ _ => Ok [web_container "exited"];
     ContainerRemove := fun _ _ => None;
     ImagePull := fun _ _ => None;
     ImageList := fun _ => Ok [];
     ContainerCreate := fun _ _ _ => Ok "9c1d";
     ContainerStart := fun _ _ => None;
     ContainerInspect := fun h _ =>
       if existsb (fun ev => match ev with EvContainerInspect _ => true | _ => false end) h
       then Err "inspect failed"
       else Ok (inspect_running [("80/tcp", [MkPortBinding "0.0.0.0" "49200"])]);
     ContainerStop := fun _ _ => None;
     ContainerWait := fun _ _ => None;
     net_Listen := fun _ _ _ => true;
     rand_Int63 := fun _ => 0;
     time_Now := fun _ => 1000;
     net_Dial := fun _ _ _ => true |}.

(** The container runs, but inspecting it fails. *)
Definition env_running_no_inspect : Env :=
  steady_env None [web_container "running"] (Err "inspect failed") 1000.


(** No container exists yet. *)
Definition env_absent : Env :=
  steady_env None [] (Ok (inspect_running [])) 1000.


(** [web] has been launched before: its port map is known. *)
Definition st_hydrated : St :=
  {| srv := set_ServiceProxyHostPortMap {[ "web" := {[ 80 := 49200 ]} ]} server0;
     trace := [] |}.

(** One connection to [web] is being forwarded. *)
Definition server_one_conn : Server :=
  set_ServiceConnCount {[ "web" := 1 ]} server0.

Definition world_one_conn : World :=
  {| w_st := {| srv := server_one_conn; trace := [] |};
     ContainerAPILock := NewMutexMap |}.





(** Two goroutines launch [web] and [api] at the same time; each
    request fits the limit of 4000 milli-CPUs alone, both do not. *)
Definition two_launches : list adm_thread :=
  [MkAdmThread (MkResources 3000 8 0) PcCheck;
   MkAdmThread (MkResources 3000 4000 0) PcCheck].

(** Both test, then both reserve. *)
Definition racy_schedule : list nat := [0; 1; 0; 1]%nat.

(** The first goroutine tests and reserves before the second tests. *)
Definition serial_schedule : list nat := [0; 0; 1]%nat.

(** One connection to [web] opens, closes, and another one opens. *)
Definition open_close_open (env : Env) : M World bool :=
  HandleConnection_acquire env web ;;
  lift (HandleConnection_release env web) ;;
  HandleConnection_acquire env web.

(** ** The earlier keyed mutex registry

    The first version of [mutexmap.go] keeps the registry-wide lock
    until the method returns: [Lock] calls [e.mutex.Lock()] while it
    still holds [mm.mutex].  [v_registry] is [Some e] while a [Lock]
    that entered the registry waits for (or is about to take) the
    sub-lock [e], and [None] when the registry lock is free. *)

Section MutexMapV1Defs.
Context {K : Type} `{Countable K}.

Record MutexMapV1 := MkMutexMapV1 {
  v_registry : option nat;
  v_mm : MutexMap K;
}.

Definition NewMutexMapV1 : MutexMapV1 :=
  {| v_registry := None; v_mm := NewMutexMap |}.

Inductive v1_outcome :=
| V1Ok (s : MutexMapV1)
| V1Blocked
| V1Panic.

Inductive v1_action :=
| V1LockEnter (key : K)
| V1LockAcquire (e : nat)
| V1Unlock (key : K).

(** [Lock] up to [e.count++]: needs the registry lock and keeps it. *)
Definition V1_Lock_enter (key : K) (s : MutexMapV1) : v1_outcome :=
  match v_registry s with
  | Some _ => V1Blocked
  | None =>
      let '(e, mm1) := Lock_registry key (v_mm s) in
      V1Ok {| v_registry := Some e; v_mm := mm1 |}
  end.

(** [e.mutex.Lock()] and the deferred [mm.mutex.Unlock()], by the
    goroutine that holds the registry lock. *)
Definition V1_Lock_acquire (e : nat) (s : MutexMapV1) : v1_outcome :=
  match v_registry s with
  | Some e' =>
      if decide (e' = e) then
        match mutex_Lock e (v_mm s) with
        | Some mm1 => V1Ok {| v_registry := None; v_mm := mm1 |}
        | None => V1Blocked
        end
      else V1Blocked
  | None => V1Blocked
  end.

(** [Unlock]: nothing in it can block once it has the registry lock,
    so it is one step. *)
Definition V1_Unlock (key : K) (s : MutexMapV1) : v1_outcome :=
  match v_registry s with
  | Some _ => V1Blocked
  | None =>
      match Unlock_registry key (v_mm s) with
      | None => V1Panic
      | Some (e, mm1) =>
          match mutex_Unlock e mm1 with
          | Some mm2 => V1Ok {| v_registry := None; v_mm := mm2 |}
          | None => V1Panic
          end
      end
  end.

Definition v1_step (a : v1_action) (s : MutexMapV1) : v1_outcome :=
  match a with
  | V1LockEnter key => V1_Lock_enter key s
  | V1LockAcquire e => V1_Lock_acquire e s
  | V1Unlock key => V1_Unlock key s
  end.
End MutexMapV1Defs.

Arguments MutexMapV1 K {_ _}.
Arguments v1_outcome K {_ _}.
Arguments v1_action : clear implicits.

(** One goroutine holds the key, a second one has entered the
    registry. *)
Definition holder_and_waiter : list (mm_action string) :=
  [ALockRegistry "svc"; AMutexLock 0%nat; ALockRegistry "svc"].

(** The registry once ["svc"] is held. *)
Definition mm_svc_held : MutexMap string :=
  default NewMutexMap (Lock "svc" NewMutexMap).

(** ** [FindOpenPort]: the history of its probes *)

(** The history when the [j]-th probe (from 0) of a run of the loop
    that starts at [attemptPort] with history [h] is made. *)
Definition probe_history (ip : string) (attemptPort : Z) (h : list Event) (j : nat)
  : list Event :=
  rev (map (EvListen ip) (attempted_ports j attemptPort)) ++ h.

(** The port at which a call of [FindOpenPort] in state [st] starts. *)
Definition start_port (env : Env) (st : St) : Z :=
  first_attemptPort (rand_Int63 env (trace st)).

(** ** What a method may ask of the outside world *)

(** Every interaction of [m] with the outside world is one that [ok]
    admits: the trace only grows, by admitted events. *)
Definition emits {A} (ok : Event -> bool) (m : M St A) : Prop :=
  forall st, post m st (fun _ st' =>
    exists new, trace st' = new ++ trace st /\ forallb ok new = true).

(** The interactions of [StopContainer]. *)
Definition stop_event (ev : Event) : bool :=
  match ev with
  | EvNewClient | EvContainerList _ | EvContainerStop _ | EvContainerWait _ => true
  | _ => false
  end.

(** The interactions of [LaunchContainer]. *)
Definition launch_event (ev : Event) : bool :=
  match ev with
  | EvNewClient | EvContainerList _ | EvContainerRemove _ | EvImagePull _
  | EvImageList | EvContainerCreate _ _ | EvContainerStart _
  | EvContainerInspect _ | EvListen _ _ | EvRand => true
  | EvContainerStop _ | EvContainerWait _ | EvNow | EvDial _ _ | EvCopy => false
  end.


Definition is_start_event (ev : Event) : bool :=
  match ev with
  | EvContainerStart _ => true
  | _ => false
  end.

(** The first configured service called [name], as [StopContainer]
    looks it up. *)
Definition configured (name : string) (s : Server) : option Service :=
  List.find (fun serv => bool_decide (Name serv = name)) (Services (Config s)).

(** The history [h'] is [h] followed by events that [ok] admits. *)
Definition extends (ok : Event -> bool) (h h' : list Event) : Prop :=
  exists new, h' = new ++ h /\ forallb ok new = true.

Definition not_start_event (ev : Event) : bool := negb (is_start_event ev).


(** At history [h] the runtime lists no running container of the
    service with the configured image: [LaunchContainer] has to start
    one. *)
Definition not_running (env : Env) (app : Service) (h : list Event) : Prop :=
  forall l c,
    ContainerList env (EvNewClient :: h) (containerName (Name app)) = Ok l ->
    searchlist l (containerName (Name app)) = Some c ->
    c_Image c = Image app ->
    c_State c <> "running".

Definition is_create_event (ev : Event) : bool :=
  match ev with
  | EvContainerCreate _ _ => true
  | _ => false
  end.

(** A runtime that follows the life of the container of [web]: nothing
    is listed until a container has been created; from then on the
    listing shows it, and its inspection reports it running with port
    80 published on host port 49152. *)
Definition env_lifecycle : Env :=
  {| NewClientWithOpts := fun _ => None;
     ContainerList := fun h _ =>
       if existsb is_create_event h
       then Ok [{| c_ID := "9c1d";
                   c_Names := ["/web-goscalezero"];
                   c_Image := "strm/helloworld-http:latest";
                   c_State := "running" |}]
       else Ok [];
     ContainerRemove := fun _ _ => None;
     ImagePull := fun _ _ => None;
     ImageList := fun _ => Ok [];
     ContainerCreate := fun _ _ _ => Ok "9c1d";
     ContainerStart := fun _ _ => None;
     ContainerInspect := fun _ _ =>
       Ok (inspect_running [("80/tcp", [MkPortBinding "0.0.0.0" "49152"])]);
     ContainerStop := fun _ _ => None;
     ContainerWait := fun _ _ => None;
     net_Listen := fun _ _ _ => true;
     rand_Int63 := fun _ => 0;
     time_Now := fun _ => 1000;
     net_Dial := fun _ _ _ => true |}.

(** The limits leave no room for [web]: 1000 milli-CPUs are free and it
    asks for 3000. *)
Definition server_full : Server :=
  set_TrackedResources (MkResources 3000 0 0) server0.

Definition world_full : World :=
  {| w_st := {| srv := server_full; trace := [] |}; ContainerAPILock := NewMutexMap |}.

(** Calls of [LaunchContainer] made one after the other, as a single
    goroutine makes them, with their results. *)
Fixpoint launch_all (env : Env) (apps : list Service) : M World (list (option error)) :=
  match apps with
  | [] => ret []
  | app :: rest =>
      err <- LaunchContainer env app ;;
      errs <- launch_all env rest ;;
      ret (err :: errs)
  end.

(** ** The readiness poll *)

(** What one pass of the loop [// Wait for the container to start]
    makes of an inspection that was answered with status "running":
    the container is [ready], or it is still [starting] and the loop
    sleeps and asks again. *)
Definition ready (c : ContainerJSON) : bool :=
  bool_decide (st_Status c = "running")
  && (if bool_decide (default "none" (st_Health c) = "none") then st_Running c
      else bool_decide (default "none" (st_Health c) = "healthy")).

Definition starting (c : ContainerJSON) : bool :=
  bool_decide (st_Status c = "running")
  && negb (if bool_decide (default "none" (st_Health c) = "none") then st_Running c
           else bool_decide (default "none" (st_Health c) = "healthy")).

(** The history after [j] more inspections of [contID]. *)
Definition inspect_history (contID : string) (h : list Event) (j : nat) : list Event :=
  replicate j (EvContainerInspect contID) ++ h.

(** The container of [web] exists, stopped; once started its health
    check never gets past "starting". *)
Definition env_starting : Env :=
  steady_env None [web_container "exited"]
    (Ok {| st_Status := "running"; st_Running := true;
           st_Health := Some "starting"; hc_PortBindings := [] |}) 1000.

(** [web] after its image has been changed in the configuration. *)
Definition web_next : Service :=
  {| Name := "web";
     ResourceRequest := Some (MkResources 3000 8 0);
     CoolDown := 60;
     Ports := [MkPortMapping 80 [80]];
     Image := "strm/helloworld-http:next";
     PullPolicy := "never";
     HostIP := "";
     Cmd := [] |}.

Definition is_remove_event (ev : Event) : bool :=
  match ev with
  | EvContainerRemove _ => true
  | _ => false
  end.

Definition not_remove_event (ev : Event) : bool := negb (is_remove_event ev).


(** A connection count as a Go [uint] holds it. *)
Definition is_uint (z : Z) : Prop := 0 <= z < 2 ^ 64.

(** ** Published ports *)

(** One entry of the [nat.PortMap] as [LaunchContainer] hands it to
    [ContainerCreate], and as the inspection of the container reports
    it later: container port [cp], protocol tcp, published on
    [hostIP] at host port [hp]. *)
Definition port_key (cp : Z) : string := fmt_Sprint cp +:+ "/" +:+ "tcp".

Definition published (hostIP : string) (binding : Z * Z) : string * list PortBinding :=
  (port_key (fst binding), [MkPortBinding hostIP (fmt_Sprint (snd binding))]).

(** The host port that the bindings [pairs], read in order, leave on
    record for the container port [cp]. *)
Fixpoint recorded (pairs : list (Z * Z)) (cp : Z) (before : Z) : Z :=
  match pairs with
  | [] => before
  | (cp', hp) :: rest => recorded rest cp (if decide (cp' = cp) then hp else before)
  end.

Definition not_create_event (ev : Event) : bool := negb (is_create_event ev).

(** The bindings handed to [ContainerCreate] agree with the port map
    of the proxy on the container port [cp]: the service has an entry,
    and the container port is published, on [hostIP], at the very host
    port the forwarder will dial. *)
Definition publishes (hostIP name : string) (bindings : gmap string (list PortBinding))
           (s : Server) (cp : Z) : Prop :=
  is_Some (ServiceProxyHostPortMap s !! name) /\
  bindings !! port_key cp
  = Some [MkPortBinding hostIP (fmt_Sprint (backendHostPort name cp s))].

(** Every container that was asked for since the history [h0] was
    asked for under the container name of [app], from its image, and
    with every declared port published as the port map in [st'] has
    it. *)
Definition creates_as_recorded (app : Service) (hostIP : string) (h0 : list Event)
           (st' : St) : Prop :=
  exists new,
    trace st' = new ++ h0 /\
    forall cname spec,
      In (EvContainerCreate cname spec) new ->
      cname = containerName (Name app) /\
      cs_Image spec = Image app /\
      forall port, In port (Ports app) ->
        publishes hostIP (Name app) (cs_PortBindings spec) (srv st') (ContainerPort port).


(* ===================================================================== *)
(** * Part II: properties *)
(* ===================================================================== *)

(** ** The embedding on small inputs *)

Example wrap64_max : wrap64 (2 ^ 63) = - 2 ^ 63.
Proof. reflexivity. Qed.

Example uint_dec_zero : uint_dec 0 = 2 ^ 64 - 1.
Proof. reflexivity. Qed.

Example Atoi_port : strconv_Atoi "49200" = Ok 49200.
Proof. reflexivity. Qed.

Example Atoi_signed : strconv_Atoi "-5" = Ok (-5) /\ strconv_Atoi "+7" = Ok 7.
Proof. split; reflexivity. Qed.

Example Atoi_empty : strconv_Atoi "" = Err "strconv.Atoi: invalid syntax".
Proof. reflexivity. Qed.

Example Atoi_sign_only : strconv_Atoi "-" = Err "strconv.Atoi: invalid syntax".
Proof. reflexivity. Qed.

Example Atoi_not_a_number : strconv_Atoi "8o" = Err "strconv.Atoi: invalid syntax".
Proof. reflexivity. Qed.

Example Atoi_range :
  strconv_Atoi "9223372036854775807" = Ok (2 ^ 63 - 1) /\
  strconv_Atoi "9223372036854775808" = Err "strconv.Atoi: value out of range" /\
  strconv_Atoi "-9223372036854775808" = Ok (- 2 ^ 63).
Proof. repeat split; reflexivity. Qed.

Example split_natport : split_first "/" "8080/tcp" = "8080".
Proof. reflexivity. Qed.

Example split_no_separator : split_first "/" "8080" = "8080".
Proof. reflexivity. Qed.

Example ToLower_policy : strings_ToLower "IfNotPresent" = IfNotPresent.
Proof. reflexivity. Qed.

Example Sprint_port : fmt_Sprint 49152 = "49152" /\ fmt_Sprint (-1) = "-1".
Proof. split; reflexivity. Qed.

Example NewPort_ok : nat_NewPort "tcp" 80 = Ok "80/tcp".
Proof. reflexivity. Qed.

Example NewPort_out_of_range :
  nat_NewPort "tcp" 65536 = Err "invalid port" /\ nat_NewPort "tcp" (-1) = Err "invalid port".
Proof. split; reflexivity. Qed.

Example searchlist_by_name :
  searchlist [MkContainer "aa" ["/other"] "img" "running"; web_container "exited"]
             (containerName "web")
  = Some (web_container "exited").
Proof. reflexivity. Qed.

(** Two holders of one key, one after the other: the entry is evicted
    and allocated afresh. *)
Example Lock_Unlock_twice :
  mutexmap <$> (((Lock "svc" NewMutexMap ≫= Unlock "svc") ≫= Lock "svc") ≫= Unlock "svc")
  = Some ∅.
Proof. reflexivity. Qed.

Example Unlock_missing_key : Unlock "svc" (NewMutexMap (K := string)) = None.
Proof. reflexivity. Qed.

(** A second [Lock] of a held key parks its caller. *)
Example Lock_held_key : Lock "svc" NewMutexMap ≫= Lock "svc" = None.
Proof. reflexivity. Qed.

(** Scenario "cold start": the first connection creates and starts the
    container on the first port tried, the ledger holds the request,
    and when the connection ends the deadline is armed at
    [now + 60 s]. *)
Example cold_start :
  exists w,
    HandleConnection env_absent web (MkPortMapping 80 [80]) world0 = Ret (tt, w) /\
    TrackedResources (srv (w_st w)) = MkResources 3000 8 0 /\
    backendHostPort "web" 80 (srv (w_st w)) = 49152 /\
    ServiceConnCount (srv (w_st w)) !! "web" = Some 0 /\
    ServiceKillTime (srv (w_st w)) !! "web" = Some (1000 + 60 * time_Second) /\
    In (EvDial "0.0.0.0" 49152) (trace (w_st w)).
Proof.
  eexists. split; [vm_compute; reflexivity|].
  repeat split; try reflexivity. cbn. auto 10.
Qed.

(** Scenario "insufficient GPU": the request does not fit, nothing is
    reserved and nothing is started. *)
Example insufficient_gpu :
  exists st',
    launch_start env_absent
      {| Name := "b"; ResourceRequest := Some (MkResources 0 0 1); CoolDown := 0;
         Ports := []; Image := "img"; PullPolicy := ""; HostIP := ""; Cmd := [] |}
      "9c1d"
      {| srv := set_TrackedResources (MkResources 0 0 8000) server0; trace := [] |}
    = Ret (Some "not enough video memory resources to launch container", st') /\
    TrackedResources (srv st') = MkResources 0 0 8000 /\
    trace st' = [].
Proof. eexists. split; [vm_compute; reflexivity|]. split; reflexivity. Qed.

(** ** Machine integers *)

Lemma wrap64_small (z : Z) : is_int z -> wrap64 z = z.
Proof.
  unfold is_int, wrap64. intros Hz.
  rewrite Z.mod_small by lia. lia.
Qed.

Lemma wrap64_is_int (z : Z) : is_int (wrap64 z).
Proof.
  unfold is_int, wrap64.
  pose proof (Z.mod_pos_bound (z + 2 ^ 63) (2 ^ 64) ltac:(lia)). lia.
Qed.

Lemma wrap64_add_sub (a b : Z) : is_int a -> int_sub (int_add a b) b = a.
Proof.
  intros Ha. unfold int_sub, int_add, wrap64.
  rewrite <- (wrap64_small a Ha) at 2. unfold wrap64.
  f_equal.
  replace ((a + b + 2 ^ 63) mod 2 ^ 64 - 2 ^ 63 - b + 2 ^ 63)
    with ((a + b + 2 ^ 63) mod 2 ^ 64 - b) by lia.
  rewrite Zminus_mod_idemp_l. f_equal. lia.
Qed.

(** ** The keyed mutex registry *)

Section MutexMapFacts.
Context {K : Type} `{Countable K}.
Implicit Types (mm : MutexMap K) (b : K -> Z) (l : list (mm_action K)).

Lemma mm_inv_ext b b' mm : (forall k, b k = b' k) -> mm_inv b mm -> mm_inv b' mm.
Proof.
  intros Hb (H1 & H2 & H3). split; [|split]; [| |exact H3].
  - intros k a Hk. destruct (H1 k a Hk) as (c & ? & ? & ? & ?).
    exists c. rewrite <- Hb. auto.
  - intros k Hk. rewrite <- Hb. auto.
Qed.

Lemma mm_inv_new : mm_inv (fun _ : K => 0) NewMutexMap.
Proof.
  split; [|split]; simpl.
  - intros k a Hk. rewrite lookup_empty in Hk. discriminate.
  - reflexivity.
  - intros a c Ha. rewrite lookup_empty in Ha. discriminate.
Qed.

Lemma mm_inv_Lock_registry b mm key :
  mm_inv b mm -> b key < 2 ^ 63 - 1 ->
  mm_inv (balance_step (ALockRegistry key) b) (snd (Lock_registry key mm)).
Proof.
  intros (H1 & H2 & H3) Hb. unfold Lock_registry.
  destruct (mutexmap mm !! key) as [e|] eqn:Hkey; simpl.
  - destruct (H1 _ _ Hkey) as (c & Hc & Hck & Hcc & Hpos).
    split; [|split].
    + intros k a Hk. simpl in Hk |- *. destruct (decide (k = key)) as [->|Hne].
      * assert (a = e) by congruence. subst a.
        rewrite lookup_alter_eq, Hc. simpl. eexists. split; [reflexivity|].
        simpl. split; [exact Hck|]. split; [|lia].
        rewrite Hcc. unfold int_add. apply wrap64_small. unfold is_int. lia.
      * destruct (H1 _ _ Hk) as (c' & Hc' & Hck' & Hcc' & Hpos').
        assert (a <> e) by (intros ->; congruence).
        rewrite lookup_alter_ne by auto. exists c'. auto.
    + intros k Hk. simpl in Hk |- *.
      destruct (decide (k = key)) as [->|Hne]; [congruence|auto].
    + intros a c' Ha. simpl in Ha |- *. destruct (decide (a = e)) as [->|Hne].
      * eapply H3; eauto.
      * rewrite lookup_alter_ne in Ha by auto. eauto.
  - pose proof (H2 _ Hkey) as Hb0.
    assert (Hfresh : mm_heap mm !! mm_next mm = None).
    { destruct (mm_heap mm !! mm_next mm) eqn:Hx; [|done].
      apply H3 in Hx. lia. }
    split; [|split].
    + intros k a Hk. simpl in Hk |- *. destruct (decide (k = key)) as [->|Hne].
      * rewrite lookup_insert_eq in Hk. inversion Hk; subst a.
        rewrite lookup_alter_eq, lookup_insert_eq. simpl.
        eexists. split; [reflexivity|]. simpl. rewrite Hb0.
        split; [reflexivity|]. split; [reflexivity|lia].
      * rewrite lookup_insert_ne in Hk by auto.
        destruct (H1 _ _ Hk) as (c' & Hc' & Hck' & Hcc' & Hpos').
        assert (a <> mm_next mm) by (intros ->; congruence).
        rewrite lookup_alter_ne, lookup_insert_ne by auto. exists c'. auto.
    + intros k Hk. simpl in Hk |- *. destruct (decide (k = key)) as [->|Hne].
      * rewrite lookup_insert_eq in Hk. discriminate.
      * rewrite lookup_insert_ne in Hk by auto. auto.
    + intros a c' Ha. simpl in Ha |- *.
      destruct (decide (a = mm_next mm)) as [->|Hne]; [lia|].
      rewrite lookup_alter_ne, lookup_insert_ne in Ha by auto.
      apply H3 in Ha. lia.
Qed.

Lemma mm_inv_Unlock_registry b mm key e mm' :
  mm_inv b mm -> b key < 2 ^ 63 ->
  Unlock_registry key mm = Some (e, mm') ->
  mm_inv (balance_step (AUnlockRegistry key) b) mm'.
Proof.
  intros (H1 & H2 & H3) Hb. unfold Unlock_registry.
  destruct (mutexmap mm !! key) as [e0|] eqn:Hkey; [|discriminate].
  intros Heq. inversion Heq; subst e0 mm'; clear Heq.
  destruct (H1 _ _ Hkey) as (c & Hc & Hck & Hcc & Hpos).
  rewrite lookup_alter_eq, Hc. simpl.
  assert (Hdec : int_sub (e_count c) 1 = b key - 1).
  { rewrite Hcc. unfold int_sub. apply wrap64_small. unfold is_int. lia. }
  rewrite Hdec.
  split; [|split]; simpl.
  - intros k a Hk.
    assert (Hk' : mutexmap mm !! k = Some a /\ (k = key -> 0 < b key - 1)).
    { destruct (decide (b key - 1 <= 0)).
      - destruct (decide (k = key)) as [->|Hne].
        + rewrite lookup_delete_eq in Hk. discriminate.
        + rewrite lookup_delete_ne in Hk by auto. split; [auto|congruence].
      - split; [auto|lia]. }
    destruct Hk' as [Hk' Hgt].
    destruct (decide (k = key)) as [->|Hne].
    + assert (a = e) by congruence. subst a.
      rewrite lookup_alter_eq, Hc. simpl. eexists. split; [reflexivity|].
      simpl. repeat split; auto.
    + destruct (H1 _ _ Hk') as (c' & Hc' & Hck' & Hcc' & Hpos').
      assert (a <> e) by (intros ->; congruence).
      rewrite lookup_alter_ne by auto. exists c'. auto.
  - intros k Hk. destruct (decide (k = key)) as [->|Hne].
    + destruct (decide (b key - 1 <= 0)); [lia|congruence].
    + apply H2. destruct (decide (b key - 1 <= 0)); [|auto].
      rewrite lookup_delete_ne in Hk by auto. auto.
  - intros a c' Ha. destruct (decide (a = e)) as [->|Hne].
    + eapply H3; eauto.
    + rewrite lookup_alter_ne in Ha by auto. eauto.
Qed.

Lemma mm_inv_relock b mm e c flag :
  mm_inv b mm -> mm_heap mm !! e = Some c ->
  mm_inv b {| mutexmap := mutexmap mm;
              mm_heap := <[e := Entry flag (e_count c) (e_key c)]> (mm_heap mm);
              mm_next := mm_next mm |}.
Proof.
  intros (H1 & H2 & H3) Hc. split; [|split]; simpl; [| exact H2 |].
  - intros k a Hk. destruct (H1 _ _ Hk) as (c' & Hc' & Hrest).
    destruct (decide (a = e)) as [->|Hne].
    + rewrite lookup_insert_eq. eexists. split; [reflexivity|].
      simpl. assert (c' = c) by congruence. subst c'. exact Hrest.
    + rewrite lookup_insert_ne by auto. exists c'. auto.
  - intros a c' Ha. destruct (decide (a = e)) as [->|Hne]; [eauto|].
    rewrite lookup_insert_ne in Ha by auto. eauto.
Qed.

Lemma mm_inv_step b mm a mm' :
  mm_inv b mm -> (forall k, b k < 2 ^ 63 - 1) ->
  mm_step a mm = Some mm' ->
  mm_inv (balance_step a b) mm'.
Proof.
  intros Hinv Hb Hstep. destruct a as [key|e|key|e]; simpl in Hstep.
  - inversion Hstep; subst. apply mm_inv_Lock_registry; auto.
  - unfold mutex_Lock in Hstep.
    destruct (mm_heap mm !! e) as [c|] eqn:Hc; [|discriminate].
    destruct (e_locked c); [discriminate|]. inversion Hstep; subst.
    apply mm_inv_relock; auto.
  - destruct (Unlock_registry key mm) as [[e mm1]|] eqn:Hu; [|discriminate].
    simpl in Hstep. inversion Hstep; subst.
    eapply mm_inv_Unlock_registry; eauto. specialize (Hb key). lia.
  - unfold mutex_Unlock in Hstep.
    destruct (mm_heap mm !! e) as [c|] eqn:Hc; [|discriminate].
    destruct (e_locked c); [|discriminate]. inversion Hstep; subst.
    apply mm_inv_relock; auto.
Qed.

Lemma locks_of_cons key a l :
  locks_of key (a :: l) = (if is_lock key a then 1 else 0) + locks_of key l.
Proof.
  unfold locks_of. rewrite filter_cons.
  destruct (is_lock key a); case_decide; try congruence; simpl length; lia.
Qed.

Lemma unlocks_of_cons key a l :
  unlocks_of key (a :: l) = (if is_unlock key a then 1 else 0) + unlocks_of key l.
Proof.
  unfold unlocks_of. rewrite filter_cons.
  destruct (is_unlock key a); case_decide; try congruence; simpl length; lia.
Qed.

Lemma balance_step_count a b k :
  balance_step a b k
  = b k + (if is_lock k a then 1 else 0) - (if is_unlock k a then 1 else 0).
Proof.
  destruct a as [key|e|key|e]; simpl; try lia.
  - destruct (decide (k = key)) as [->|Hne].
    + rewrite bool_decide_eq_true_2 by done. lia.
    + rewrite bool_decide_eq_false_2 by congruence. lia.
  - destruct (decide (k = key)) as [->|Hne].
    + rewrite bool_decide_eq_true_2 by done. lia.
    + rewrite bool_decide_eq_false_2 by congruence. lia.
Qed.

Lemma mm_inv_run l : forall b mm mm' (B : Z),
  mm_inv b mm -> (forall k, b k <= B) ->
  B + Z.of_nat (length l) < 2 ^ 63 ->
  mm_run l mm = Some mm' ->
  mm_inv (fun k => b k + locks_of k l - unlocks_of k l) mm'.
Proof.
  induction l as [|a l IH]; intros b mm mm' B Hinv Hb HB Hrun.
  - simpl in Hrun. inversion Hrun; subst.
    eapply mm_inv_ext; [|exact Hinv]. intros k. unfold locks_of, unlocks_of. simpl. lia.
  - simpl in Hrun. destruct (mm_step a mm) as [mm1|] eqn:Hstep; [|discriminate].
    simpl length in HB.
    assert (Hinv1 : mm_inv (balance_step a b) mm1).
    { eapply mm_inv_step; eauto. intros k. specialize (Hb k). lia. }
    specialize (IH (balance_step a b) mm1 mm' (B + 1) Hinv1).
    eapply mm_inv_ext; [|apply IH; auto].
    + intros k. simpl. rewrite balance_step_count, locks_of_cons, unlocks_of_cons. lia.
    + intros k. rewrite balance_step_count. specialize (Hb k).
      destruct (is_lock k a), (is_unlock k a); lia.
    + lia.
Qed.

(** C9.  Whatever the interleaving of the atomic steps of [Lock] and
    [Unlock] calls on a fresh registry, once as many [Unlock]s as
    [Lock]s of a key have passed the registry (and none has panicked
    or is still blocked), the internal map has no entry for the key.
    Inside one [Unlock], the registry step, which decrements the
    holder count and evicts the entry when the count is zero, comes
    before the release of the sub-lock, which leaves the map alone. *)
Theorem MutexMap_balanced_no_entry (key : K) l mm' :
  Z.of_nat (length l) < 2 ^ 63 ->
  mm_run l NewMutexMap = Some mm' ->
  locks_of key l = unlocks_of key l ->
  mutexmap mm' !! key = None /\
  (forall mm1 mm2, Unlock key mm1 = Some mm2 ->
     exists e mmr, Unlock_registry key mm1 = Some (e, mmr) /\
       mutex_Unlock e mmr = Some mm2 /\
       mutexmap mm2 = mutexmap mmr /\
       (forall c, mm_heap mmr !! e = Some c -> e_count c <= 0 ->
                  mutexmap mmr !! key = None)).
Proof.
  intros Hlen Hrun Hbal. split.
  - pose proof (mm_inv_run l (fun _ : K => 0) NewMutexMap mm' 0 mm_inv_new
                  ltac:(intros; lia) ltac:(lia) Hrun) as (H1 & _ & _).
    destruct (mutexmap mm' !! key) as [a|] eqn:Hk; [|reflexivity].
    destruct (H1 _ _ Hk) as (c & _ & _ & _ & Hpos). simpl in Hpos. lia.
  - intros mm1 mm2 Hu. unfold Unlock in Hu.
    destruct (Unlock_registry key mm1) as [[e mmr]|] eqn:Hreg; [|discriminate].
    exists e, mmr. split; [reflexivity|]. split; [exact Hu|].
    split.
    + unfold mutex_Unlock in Hu.
      destruct (mm_heap mmr !! e) as [c|]; [|discriminate].
      destruct (e_locked c); [|discriminate]. inversion Hu; subst. reflexivity.
    + intros c Hc Hle. unfold Unlock_registry in Hreg.
      destruct (mutexmap mm1 !! key) as [e0|] eqn:Hkey; [|discriminate].
      inversion Hreg; subst e0 mmr; clear Hreg. simpl in *.
      rewrite Hc. rewrite decide_True by exact Hle. apply lookup_delete_eq.
Qed.

End MutexMapFacts.

Lemma MutexMap_balanced_no_entry_witness :
  exists mm', mm_run two_holders NewMutexMap = Some mm' /\
              mutexmap mm' !! "svc" = None.
Proof.
  eexists. split; [reflexivity|].
  apply (MutexMap_balanced_no_entry "svc" two_holders);
    [vm_compute; reflexivity | reflexivity | reflexivity].
Defined.


(** ** The monad *)

Lemma returns_post {S A} (m : M S A) st Q : returns m st Q -> post m st Q.
Proof. unfold returns, post. destruct (m st) as [[a st']| |]; tauto. Qed.

Lemma post_ret {S A} (a : A) (st : S) Q : Q a st -> post (ret a) st Q.
Proof. exact id. Qed.

Lemma post_bind {S A B} (m : M S A) (k : A -> M S B) st Q :
  post m st (fun a st' => post (k a) st' Q) -> post (bind m k) st Q.
Proof. unfold post, bind. destruct (m st) as [[a st']| |]; auto. Qed.

Lemma post_mono {S A} (m : M S A) st (Q Q' : A -> S -> Prop) :
  post m st Q -> (forall a st', Q a st' -> Q' a st') -> post m st Q'.
Proof. unfold post. destruct (m st) as [[a st']| |]; auto. Qed.

Lemma returns_ret {S A} (a : A) (st : S) Q : Q a st -> returns (ret a) st Q.
Proof. exact id. Qed.

Lemma returns_bind {S A B} (m : M S A) (k : A -> M S B) st Q :
  returns m st (fun a st' => returns (k a) st' Q) -> returns (bind m k) st Q.
Proof. unfold returns, bind. destruct (m st) as [[a st']| |]; auto. Qed.

Lemma returns_mono {S A} (m : M S A) st (Q Q' : A -> S -> Prop) :
  returns m st Q -> (forall a st', Q a st' -> Q' a st') -> returns m st Q'.
Proof. unfold returns. destruct (m st) as [[a st']| |]; auto. Qed.


(** ** [FindOpenPort] *)

Lemma first_attemptPort_bounds (raw : Z) :
  rangeStart <= first_attemptPort raw <= rangeEnd - 1.
Proof.
  unfold first_attemptPort, rand_Intn.
  replace (int_sub rangeEnd rangeStart) with 16383 by reflexivity.
  pose proof (Z.mod_pos_bound raw 16383 ltac:(lia)).
  unfold int_add. rewrite wrap64_small; unfold is_int, rangeStart, rangeEnd; lia.
Qed.

Lemma next_attemptPort_in_range (p : Z) : in_range p -> in_range (next_attemptPort p).
Proof.
  unfold in_range, next_attemptPort, int_add, rangeStart, rangeEnd. intros Hp.
  rewrite wrap64_small by (unfold is_int; lia).
  destruct (p + 1 >? 65535) eqn:E; lia.
Qed.

Lemma next_attemptPort_wraps (p : Z) :
  in_range p ->
  next_attemptPort p = if decide (p = rangeEnd) then rangeStart else p + 1.
Proof.
  unfold in_range, next_attemptPort, int_add, rangeStart, rangeEnd. intros Hp.
  rewrite wrap64_small by (unfold is_int; lia).
  destruct (p + 1 >? 65535) eqn:E; case_decide; lia.
Qed.

Section FindOpenPortFacts.
Variable env : Env.

(** What one run of the loop does: it returns, leaves the server
    alone, probes the ports [attempted_ports k attemptPort] in that
    order and nothing else, and either the last probe bound and its
    port is the result, or all [i] probes failed and the result is
    [-1] with an error. *)
Lemma FindOpenPort_loop_spec (i : nat) (ip : string) : forall (attemptPort : Z) (st : St),
  in_range attemptPort ->
  returns (FindOpenPort_loop env i ip attemptPort) st (fun '(p, err) st' =>
    srv st' = srv st /\
    exists k : nat, (k <= i)%nat /\
      trace st' = rev (map (EvListen ip) (attempted_ports k attemptPort)) ++ trace st /\
      ((err = None /\ in_range p /\ (0 < k)%nat /\
        last (attempted_ports k attemptPort) = Some p)
       \/ (is_Some err /\ p = -1 /\ k = i))).
Proof.
  induction i as [|i IH]; intros a st Ha.
  - simpl. split; [reflexivity|]. exists 0%nat. split; [lia|]. split; [reflexivity|].
    right. split; [eexists; reflexivity|]. split; reflexivity.
  - cbn [FindOpenPort_loop]. unfold bind, call, returns.
    destruct (net_Listen env (trace st) ip a) eqn:Hb.
    + simpl. split; [reflexivity|]. exists 1%nat. split; [lia|].
      split; [reflexivity|]. left.
      split; [reflexivity|]. split; [exact Ha|]. split; [lia|reflexivity].
    + fold (next_attemptPort a).
      pose proof (IH (next_attemptPort a)
                     {| srv := srv st; trace := EvListen ip a :: trace st |}
                     (next_attemptPort_in_range a Ha)) as Hrec.
      unfold returns in Hrec.
      destruct (FindOpenPort_loop env i ip (next_attemptPort a) _)
        as [[[p err] st']| |]; [|tauto|tauto].
      destruct Hrec as (Hsrv & k & Hk & Htr & Hres).
      split; [exact Hsrv|]. exists (S k). split; [lia|]. split.
      * rewrite Htr. simpl. rewrite <- app_assoc. reflexivity.
      * destruct Hres as [(He & Hp & Hk0 & Hlast)|(He & Hp & Hki)].
        -- left. split; [exact He|]. split; [exact Hp|]. split; [lia|].
           cbn [attempted_ports]. destruct k; [lia|]. exact Hlast.
        -- right. split; [exact He|]. split; [exact Hp|]. lia.
Qed.

Lemma FindOpenPort_spec (ip : string) (st : St) :
  returns (FindOpenPort env ip) st (fun '(p, err) st' =>
    srv st' = srv st /\
    ((err = None /\ in_range p) \/ (is_Some err /\ p = -1))).
Proof.
  unfold FindOpenPort. apply returns_bind. unfold call, returns at 1.
  eapply returns_mono.
  - apply FindOpenPort_loop_spec. pose proof (first_attemptPort_bounds (rand_Int63 env (trace st))).
    unfold in_range. lia.
  - intros [p err] st' (Hsrv & k & _ & _ & Hres). split; [exact Hsrv|].
    destruct Hres as [(He & Hp & _)|(He & Hp & _)]; auto.
Qed.
End FindOpenPortFacts.

(** C8.  The starting port is [49152 + rand.Intn(16383)]: it ranges
    over [49152, 65534], so the last port of the ephemeral range,
    65535, is never the starting port, although the wrap-around test
    of the loop treats it as a port of the range. *)
Theorem FindOpenPort_start_excludes_rangeEnd :
  (forall raw, rangeStart <= first_attemptPort raw <= rangeEnd - 1) /\
  (forall raw, first_attemptPort raw <> rangeEnd) /\
  first_attemptPort 16382 = 65534 /\
  next_attemptPort 65534 = rangeEnd /\
  next_attemptPort rangeEnd = rangeStart.
Proof.
  split; [exact first_attemptPort_bounds|]. split.
  - intros raw. pose proof (first_attemptPort_bounds raw). lia.
  - repeat split; reflexivity.
Qed.

(** ** Frame properties of the methods *)

#[local] Instance same_conn_kill_preorder : PreOrder same_conn_kill.
Proof.
  split.
  - intros s. repeat split.
  - intros s1 s2 s3 (A1 & A2 & A3) (B1 & B2 & B3). repeat split; congruence.
Qed.

#[local] Instance same_tracked_preorder : PreOrder same_tracked.
Proof. split; [intros s; reflexivity|intros s1 s2 s3; unfold same_tracked; congruence]. Qed.

#[local] Instance same_ports_preorder : PreOrder same_ports.
Proof. split; [intros s; reflexivity|intros s1 s2 s3; unfold same_ports; congruence]. Qed.

#[local] Instance keeps_entry_preorder name : PreOrder (keeps_entry name).
Proof. split; [intros s; exact id|intros s1 s2 s3 A B; unfold keeps_entry in *; auto]. Qed.

Section Preserves.
Context (R : Server -> Server -> Prop) `{!PreOrder R}.

Lemma preserves_ret {A} (a : A) : preserves R (ret a).
Proof. intros st. unfold post; simpl. reflexivity. Qed.

Lemma preserves_panic {A} msg : preserves R (@panic St A msg).
Proof. intros st. exact I. Qed.

Lemma preserves_call {A} ev (answer : list Event -> A) : preserves R (call ev answer).
Proof. intros st. unfold post; simpl. reflexivity. Qed.

Lemma preserves_get_srv : preserves R get_srv.
Proof. intros st. unfold post; simpl. reflexivity. Qed.

Lemma preserves_modify_srv f : (forall s, R s (f s)) -> preserves R (modify_srv f).
Proof. intros Hf st. unfold post; simpl. apply Hf. Qed.

Lemma preserves_bind {A B} (m : M St A) (k : A -> M St B) :
  preserves R m -> (forall a, preserves R (k a)) -> preserves R (bind m k).
Proof.
  intros Hm Hk st. apply post_bind. eapply post_mono; [apply Hm|].
  intros a st' H1. simpl in H1. eapply post_mono; [apply Hk|].
  intros b st'' H2. simpl in H2. etransitivity; eauto.
Qed.
End Preserves.

(** Breaks a frame goal down along the structure of the program. *)
Ltac preserves_step :=
  match goal with
  | |- preserves _ (ret _) => apply preserves_ret; exact _
  | |- preserves _ (panic _) => apply preserves_panic
  | |- preserves _ (call _ _) => apply preserves_call; exact _
  | |- preserves _ get_srv => apply preserves_get_srv; exact _
  | |- preserves _ (bind _ _) => apply preserves_bind; [exact _| |intros ?]
  | |- preserves _ (match ?x with _ => _ end) => destruct x
  | |- preserves _ (if ?x then _ else _) => destruct x
  | |- preserves _ (let _ := _ in _) => cbv zeta
  end.

Section FrameLaunch.
Variable env : Env.
Context (R : Server -> Server -> Prop) (HR : PreOrder R).
Hypothesis R_ensure : forall name s, R s (ensure_port_map name s).
Hypothesis R_store : forall name cp hp s, R s (store_port name cp hp s).

Lemma preserves_FindOpenPort_loop i ip : forall a,
  preserves R (FindOpenPort_loop env i ip a).
Proof.
  induction i as [|i IH]; intros a; cbn [FindOpenPort_loop].
  - repeat preserves_step.
  - repeat preserves_step. apply IH.
Qed.

Lemma preserves_FindOpenPort ip : preserves R (FindOpenPort env ip).
Proof. unfold FindOpenPort. repeat preserves_step. apply preserves_FindOpenPort_loop. Qed.

Lemma preserves_validate_image app cont : preserves R (validate_image env app cont).
Proof. unfold validate_image. repeat preserves_step. Qed.

Lemma preserves_pull_image app : preserves R (pull_image env app).
Proof. unfold pull_image. repeat preserves_step. Qed.

Lemma preserves_alloc_ports app hostIP ports : forall portMap,
  preserves R (alloc_ports env app hostIP ports portMap).
Proof.
  induction ports as [|port rest IH]; intros portMap; cbn [alloc_ports].
  - repeat preserves_step.
  - repeat match goal with
           | |- preserves _ (FindOpenPort _ _) => apply preserves_FindOpenPort
           | |- preserves _ (modify_srv (ensure_port_map _)) =>
               apply preserves_modify_srv; intros; apply R_ensure
           | |- preserves _ (modify_srv (store_port _ _ _)) =>
               apply preserves_modify_srv; intros; apply R_store
           | |- preserves _ (alloc_ports _ _ _ _ _) => apply IH
           | _ => preserves_step
           end.
Qed.

Lemma preserves_launch_create app : preserves R (launch_create env app).
Proof.
  unfold launch_create.
  repeat match goal with
         | |- preserves _ (pull_image _ _) => apply preserves_pull_image
         | |- preserves _ (alloc_ports _ _ _ _ _) => apply preserves_alloc_ports
         | _ => preserves_step
         end.
Qed.

Lemma preserves_wait_running n contID : preserves R (wait_running env n contID).
Proof.
  induction n as [|n IH]; cbn [wait_running].
  - repeat preserves_step.
  - repeat match goal with
           | |- preserves _ (wait_running _ _ _) => apply IH
           | _ => preserves_step
           end.
Qed.

Lemma preserves_start_and_wait contID : preserves R (start_and_wait env contID).
Proof.
  unfold start_and_wait.
  repeat match goal with
         | |- preserves _ (wait_running _ _ _) => apply preserves_wait_running
         | _ => preserves_step
         end.
Qed.

Lemma preserves_store_bindings name bs : preserves R (store_bindings name bs).
Proof.
  induction bs as [|[natport bindings] rest IH]; cbn [store_bindings].
  - repeat preserves_step.
  - repeat match goal with
           | |- preserves _ (store_bindings _ _) => apply IH
           | |- preserves _ (modify_srv (store_port _ _ _)) =>
               apply preserves_modify_srv; intros; apply R_store
           | _ => preserves_step
           end.
Qed.

Lemma preserves_hydrate_ports app contID err :
  preserves R (hydrate_ports env app contID err).
Proof.
  unfold hydrate_ports.
  repeat match goal with
         | |- preserves _ (store_bindings _ _) => apply preserves_store_bindings
         | |- preserves _ (modify_srv (ensure_port_map _)) =>
             apply preserves_modify_srv; intros; apply R_ensure
         | _ => preserves_step
         end.
Qed.

Hypothesis R_reserve : forall r s, R s (reserve r s).
Hypothesis R_release : forall r s, R s (release r s).

Lemma preserves_launch_start app contID : preserves R (launch_start env app contID).
Proof.
  unfold launch_start.
  repeat match goal with
         | |- preserves _ (start_and_wait _ _) => apply preserves_start_and_wait
         | |- preserves _ (modify_srv (reserve _)) =>
             apply preserves_modify_srv; intros; apply R_reserve
         | |- preserves _ (modify_srv (release _)) =>
             apply preserves_modify_srv; intros; apply R_release
         | _ => preserves_step
         end.
Qed.

Lemma preserves_launch_main app cont : preserves R (launch_main env app cont).
Proof.
  unfold launch_main.
  repeat match goal with
         | |- preserves _ (launch_create _ _) => apply preserves_launch_create
         | |- preserves _ (launch_start _ _ _) => apply preserves_launch_start
         | _ => preserves_step
         end.
Qed.

Lemma preserves_LaunchContainer_body app : preserves R (LaunchContainer_body env app).
Proof.
  unfold LaunchContainer_body.
  repeat match goal with
         | |- preserves _ (validate_image _ _ _) => apply preserves_validate_image
         | |- preserves _ (launch_main _ _ _) => apply preserves_launch_main
         | |- preserves _ (hydrate_ports _ _ _ _) => apply preserves_hydrate_ports
         | _ => preserves_step
         end.
Qed.


End FrameLaunch.

(** ** The keyed lock around a method body *)


Lemma with_ContainerAPILock_inv {A} name (body : M St A) w a w' :
  with_ContainerAPILock name body w = Ret (a, w') ->
  body (w_st w) = Ret (a, w_st w').
Proof.
  unfold with_ContainerAPILock.
  destruct (Lock name (ContainerAPILock w)); [|discriminate].
  destruct (body (w_st w)) as [[a0 st']| |]; [|discriminate|discriminate].
  destruct (Unlock name m); [|discriminate].
  intros Heq. inversion Heq; subst. reflexivity.
Qed.




(** ** [StopContainer] *)




(** ** [LaunchContainer] *)

Lemma post_call {A} ev (answer : list Event -> A) st Q :
  Q (answer (trace st)) {| srv := srv st; trace := ev :: trace st |} ->
  post (call ev answer) st Q.
Proof. exact id. Qed.

Lemma post_get_srv st Q : Q (srv st) st -> post get_srv st Q.
Proof. exact id. Qed.

Lemma post_modify_srv f st Q :
  Q tt {| srv := f (srv st); trace := trace st |} -> post (modify_srv f) st Q.
Proof. exact id. Qed.

Lemma post_panic {A} msg st (Q : A -> St -> Prop) : post (panic msg) st Q.
Proof. exact I. Qed.

Lemma post_preserves {A} R (m : M St A) st :
  preserves R m -> post m st (fun _ st' => R (srv st) (srv st')).
Proof. intros Hm. apply Hm. Qed.

Lemma post_and {S A} (m : M S A) st (Q1 Q2 : A -> S -> Prop) :
  post m st Q1 -> post m st Q2 -> post m st (fun a st' => Q1 a st' /\ Q2 a st').
Proof. unfold post. destruct (m st) as [[a st']| |]; auto. Qed.

Lemma post_inv {S A} (m : M S A) st Q a st' :
  post m st Q -> m st = Ret (a, st') -> Q a st'.
Proof. unfold post. intros HQ Heq. rewrite Heq in HQ. exact HQ. Qed.

(** *** What each step does to the maps *)

Lemma same_conn_kill_ensure name s : same_conn_kill s (ensure_port_map name s).
Proof. unfold ensure_port_map. destruct (_ !! name); repeat split. Qed.

Lemma same_conn_kill_store name cp hp s : same_conn_kill s (store_port name cp hp s).
Proof. repeat split. Qed.

Lemma same_conn_kill_reserve r s : same_conn_kill s (reserve r s).
Proof. repeat split. Qed.

Lemma same_conn_kill_release r s : same_conn_kill s (release r s).
Proof. repeat split. Qed.

Lemma same_tracked_ensure name s : same_tracked s (ensure_port_map name s).
Proof. unfold ensure_port_map. destruct (_ !! name); reflexivity. Qed.

Lemma same_tracked_store name cp hp s : same_tracked s (store_port name cp hp s).
Proof. reflexivity. Qed.

Lemma same_ports_reserve r s : same_ports s (reserve r s).
Proof. reflexivity. Qed.

Lemma same_ports_release r s : same_ports s (release r s).
Proof. reflexivity. Qed.

Lemma keeps_entry_ensure name name' s : keeps_entry name s (ensure_port_map name' s).
Proof.
  unfold keeps_entry, ensure_port_map. intros Hs.
  destruct (ServiceProxyHostPortMap s !! name') eqn:E; [exact Hs|].
  cbn. destruct (decide (name' = name)) as [->|Hne].
  - rewrite lookup_insert_eq. eauto.
  - rewrite lookup_insert_ne by auto. exact Hs.
Qed.

Lemma keeps_entry_store name name' cp hp s : keeps_entry name s (store_port name' cp hp s).
Proof.
  unfold keeps_entry, store_port. cbn. intros [m Hm].
  destruct (decide (name' = name)) as [->|Hne].
  - rewrite lookup_alter_eq, Hm. cbn. eauto.
  - rewrite lookup_alter_ne by auto. eauto.
Qed.

Lemma keeps_entry_reserve name r s : keeps_entry name s (reserve r s).
Proof. exact id. Qed.

Lemma keeps_entry_release name r s : keeps_entry name s (release r s).
Proof. exact id. Qed.

Create HintDb frame.
#[local] Hint Resolve
  same_conn_kill_ensure same_conn_kill_store same_conn_kill_reserve same_conn_kill_release
  same_tracked_ensure same_tracked_store same_ports_reserve same_ports_release
  keeps_entry_ensure keeps_entry_store keeps_entry_reserve keeps_entry_release : frame.

(** Closes a frame goal with the general lemma [lem] of the method and
    the facts of the [frame] database for the side conditions. *)
Ltac frame_by lem := apply lem; first [exact _ | intros; auto with frame].

Lemma ensure_port_map_entry name s :
  is_Some (ServiceProxyHostPortMap (ensure_port_map name s) !! name).
Proof.
  unfold ensure_port_map.
  destruct (ServiceProxyHostPortMap s !! name) eqn:E; [rewrite E; eauto|].
  cbn. rewrite lookup_insert_eq. eauto.
Qed.

(** [LaunchContainer] and [StopContainer] leave the connection counts,
    the deadlines and the configuration alone. *)
Lemma LaunchContainer_body_same_conn_kill env app :
  preserves same_conn_kill (LaunchContainer_body env app).
Proof.
  frame_by preserves_LaunchContainer_body.
Qed.


Lemma LaunchContainer_body_keeps_entry env app name :
  preserves (keeps_entry name) (LaunchContainer_body env app).
Proof.
  frame_by preserves_LaunchContainer_body.
Qed.

(** *** The deferred hydration of the port map *)

Lemma hydrate_ports_spec env app contID err st :
  post (hydrate_ports env app contID err) st (fun err' st' =>
    same_tracked (srv st) (srv st') /\
    (err' = None ->
       err = None /\ is_Some (ServiceProxyHostPortMap (srv st') !! Name app)) /\
    (is_Some (ServiceProxyHostPortMap (srv st) !! Name app) \/ err <> None ->
       err' = err /\ st' = st)).
Proof.
  apply post_and.
  { apply (post_preserves same_tracked). frame_by preserves_hydrate_ports. }
  unfold hydrate_ports. destruct err as [e|].
  { unfold post; simpl. split; [discriminate|]. intros _. split; reflexivity. }
  apply post_bind, post_get_srv.
  destruct (ServiceProxyHostPortMap (srv st) !! Name app) as [m|] eqn:Hm.
  { unfold post; simpl. split.
    - intros _. split; [reflexivity|]. rewrite Hm. eauto.
    - intros _. split; reflexivity. }
  apply post_bind, post_call.
  destruct (ContainerInspect env (trace st) contID) as [inspect|e].
  - apply post_bind, post_modify_srv.
    eapply post_mono.
    { apply (post_preserves (keeps_entry (Name app))).
      frame_by preserves_store_bindings. }
    intros err' st' Hkeep. cbn [srv] in Hkeep. split.
    + intros _. split; [reflexivity|]. apply Hkeep. apply ensure_port_map_entry.
    + intros [[m' Hm']|Hne]; [congruence|congruence].
  - unfold post; simpl. split; [discriminate|].
    intros [[m' Hm']|Hne]; [congruence|congruence].
Qed.


(** *** Port allocation at creation time *)

Lemma in_range_not_fallback p : in_range p -> p <> -1.
Proof. unfold in_range, rangeStart. lia. Qed.

Lemma backendHostPort_ensure name name' cp s :
  backendHostPort name cp (ensure_port_map name' s) = backendHostPort name cp s.
Proof.
  unfold ensure_port_map.
  destruct (ServiceProxyHostPortMap s !! name') eqn:E; [reflexivity|].
  unfold backendHostPort. cbn.
  destruct (decide (name' = name)) as [->|Hne].
  - rewrite lookup_insert_eq, E, lookup_empty. reflexivity.
  - rewrite lookup_insert_ne by auto. reflexivity.
Qed.

Lemma backendHostPort_store name cp p cp' s :
  is_Some (ServiceProxyHostPortMap s !! name) ->
  backendHostPort name cp' (store_port name cp p s)
  = if decide (cp = cp') then p else backendHostPort name cp' s.
Proof.
  intros [m Hm]. unfold backendHostPort, store_port. cbn.
  rewrite lookup_alter_eq, Hm. cbn.
  destruct (decide (cp = cp')) as [->|Hne].
  - rewrite lookup_insert_eq. reflexivity.
  - rewrite lookup_insert_ne by auto. reflexivity.
Qed.

Lemma ports_ready_same_ports name cps s s' :
  same_ports s s' -> ports_ready name cps s -> ports_ready name cps s'.
Proof.
  unfold same_ports, ports_ready, backendHostPort. intros Heq Hs cp Hin.
  rewrite Heq. auto.
Qed.

Lemma ports_ready_entry name cps cp s :
  ports_ready name cps s -> In cp cps ->
  is_Some (ServiceProxyHostPortMap s !! name).
Proof.
  intros Hs Hin. specialize (Hs cp Hin). unfold backendHostPort in Hs.
  destruct (ServiceProxyHostPortMap s !! name); [eauto|].
  apply in_range_not_fallback in Hs. congruence.
Qed.

Lemma alloc_ports_ready env app hostIP ports : forall portMap st done,
  ports_ready (Name app) done (srv st) ->
  post (alloc_ports env app hostIP ports portMap) st (fun '(err, _) st' =>
    err = None ->
    ports_ready (Name app) (map ContainerPort ports ++ done) (srv st')).
Proof.
  induction ports as [|port rest IH]; intros portMap st done Hdone; cbn [alloc_ports].
  - unfold post; simpl. intros _. exact Hdone.
  - destruct (nat_NewPort "tcp" (ContainerPort port)) as [natport|e];
      [|unfold post; simpl; discriminate].
    apply post_bind, post_modify_srv, post_bind.
    eapply post_mono; [apply returns_post, FindOpenPort_spec|].
    intros [p err] st1 (Hsrv & Hres). cbn [srv] in Hsrv.
    apply post_bind, post_modify_srv.
    destruct err as [e|]; [unfold post; simpl; discriminate|].
    destruct Hres as [(_ & Hp)|([e He] & _)]; [|discriminate].
    eapply post_mono.
    + apply (IH _ _ (ContainerPort port :: done)). cbn [srv]. rewrite Hsrv.
      intros cp Hin. rewrite backendHostPort_store by apply ensure_port_map_entry.
      case_decide; [exact Hp|].
      rewrite backendHostPort_ensure. apply Hdone.
      destruct Hin as [Heq|Hin]; [congruence|exact Hin].
    + intros [err' pm] st' Hready Herr cp Hin. apply (Hready Herr).
      simpl in Hin. rewrite in_app_iff in *. simpl.
      destruct Hin as [Heq|[Hin|Hin]]; auto.
Qed.

Lemma launch_create_ready env app st :
  post (launch_create env app) st (fun '(err, _) st' =>
    err = None -> ports_ready (Name app) (map ContainerPort (Ports app)) (srv st')).
Proof.
  unfold launch_create. apply post_bind.
  eapply post_mono; [apply (post_preserves same_ports)|].
  { frame_by preserves_pull_image. }
  intros _ st1 _. apply post_bind, post_get_srv, post_bind.
  eapply post_mono; [apply (alloc_ports_ready _ _ _ _ _ _ [])|].
  { intros cp []. }
  intros [err pm] st2 Hready. rewrite app_nil_r in Hready.
  destruct err as [e|]; [unfold post; simpl; discriminate|].
  destruct (ResourceRequest app) as [r|]; [|apply post_panic].
  apply post_bind, post_call.
  match goal with |- context [ContainerCreate env ?h ?n ?sp] =>
    destruct (ContainerCreate env h n sp) as [id|e] end;
    unfold post; simpl; [|discriminate].
  intros _. apply Hready. reflexivity.
Qed.

Lemma launch_main_absent_ready env app st :
  post (launch_main env app None) st (fun '(err, _) st' =>
    err = None -> ports_ready (Name app) (map ContainerPort (Ports app)) (srv st')).
Proof.
  unfold launch_main. apply post_bind.
  eapply post_mono; [apply launch_create_ready|].
  intros [err contID] st1 Hready.
  destruct err as [e|]; [unfold post; simpl; discriminate|].
  apply post_bind. eapply post_mono; [apply (post_preserves same_ports)|].
  { frame_by preserves_launch_start. }
  intros err st2 Hsame. unfold post; simpl. intros _.
  eapply ports_ready_same_ports; [|apply Hready; reflexivity].
  unfold same_ports in *. congruence.
Qed.


(** ** The resource ledger *)

Lemma release_reserve r s :
  wf_ledger s -> TrackedResources (release r (reserve r s)) = TrackedResources s.
Proof.
  intros (H1 & H2 & H3). unfold release, reserve. cbn.
  destruct (TrackedResources s) as [c m g]. cbn in *.
  rewrite !wrap64_add_sub by assumption. reflexivity.
Qed.

(** Test and reservation in one piece keep R1. *)
Lemma admission_check_within_limits r s :
  admission_check r s = None -> within_limits (reserve r s).
Proof.
  unfold admission_check, within_limits, reserve. cbn.
  destruct (_ >? MilliCPU _) eqn:E1; [discriminate|].
  destruct (_ >? MemoryMi _) eqn:E2; [discriminate|].
  destruct (_ >? GpuMemoryMi _) eqn:E3; [discriminate|].
  intros _. lia.
Qed.

(** What the second half of [LaunchContainer] does to the ledger: an
    error leaves it as it was, success adds the admitted request. *)
Lemma launch_start_ledger env app contID st :
  wf_ledger (srv st) ->
  post (launch_start env app contID) st (fun err st' =>
    Config (srv st') = Config (srv st) /\
    match err with
    | Some _ => TrackedResources (srv st') = TrackedResources (srv st)
    | None => exists r, ResourceRequest app = Some r /\
                        admission_check r (srv st) = None /\
                        TrackedResources (srv st') = TrackedResources (reserve r (srv st))
    end).
Proof.
  intros Hwf. unfold launch_start.
  destruct (ResourceRequest app) as [r|]; [|apply post_panic].
  apply post_bind, post_get_srv.
  destruct (admission_check r (srv st)) as [e|] eqn:Hadm.
  { unfold post; simpl. split; reflexivity. }
  apply post_bind, post_modify_srv, post_bind.
  eapply post_mono.
  { apply post_and.
    - apply (post_preserves same_tracked). frame_by preserves_start_and_wait.
    - apply (post_preserves same_conn_kill). frame_by preserves_start_and_wait. }
  intros err st1 (Htr & _ & _ & Hcfg). cbn [srv] in Htr, Hcfg.
  unfold same_tracked in Htr.
  destruct err as [e|].
  - apply post_bind, post_modify_srv. unfold post; simpl.
    split; [exact Hcfg|].
    rewrite Htr. exact (release_reserve r (srv st) Hwf).
  - unfold post; simpl. split; [exact Hcfg|]. exists r. auto.
Qed.

(** Up to its last deferred function, [LaunchContainer] gives back what
    it reserved whenever it fails. *)
Lemma launch_main_ledger env app cont st :
  wf_ledger (srv st) ->
  post (launch_main env app cont) st (fun '(err, _) st' =>
    Config (srv st') = Config (srv st) /\
    match err with
    | Some _ => TrackedResources (srv st') = TrackedResources (srv st)
    | None =>
        TrackedResources (srv st') = TrackedResources (srv st) \/
        exists r, admission_check r (srv st) = None /\
                  TrackedResources (srv st') = TrackedResources (reserve r (srv st))
    end).
Proof.
  intros Hwf. unfold launch_main. destruct cont as [c|].
  - destruct (bool_decide (c_State c = "running")).
    + unfold post; simpl. split; [reflexivity|]. left. reflexivity.
    + apply post_bind. eapply post_mono; [apply launch_start_ledger, Hwf|].
      intros err st1 (Hcfg & Hres). unfold post; simpl. split; [exact Hcfg|].
      destruct err; [exact Hres|]. right.
      destruct Hres as (r & _ & Hadm & Htr). eauto.
  - apply post_bind. eapply post_mono.
    { apply post_and.
      - apply (post_preserves same_tracked). frame_by preserves_launch_create.
      - apply (post_preserves same_conn_kill). frame_by preserves_launch_create. }
    intros [err contID] st1 (Htr & _ & _ & Hcfg). unfold same_tracked in Htr.
    destruct err as [e|].
    { unfold post; simpl. split; [exact Hcfg|exact Htr]. }
    apply post_bind. eapply post_mono.
    { apply launch_start_ledger. unfold wf_ledger. rewrite Htr. exact Hwf. }
    intros err st2 (Hcfg2 & Hres). unfold post; simpl.
    split; [congruence|].
    assert (Hadm : forall r, admission_check r (srv st1) = admission_check r (srv st)).
    { intros r. unfold admission_check. rewrite Htr, Hcfg. reflexivity. }
    assert (Hrsv : forall r, TrackedResources (reserve r (srv st1))
                             = TrackedResources (reserve r (srv st))).
    { intros r. unfold reserve. cbn. rewrite Htr. reflexivity. }
    destruct err; [congruence|]. right.
    destruct Hres as (r & _ & Hadm' & Htr'). exists r.
    split; [rewrite <- (Hadm r); exact Hadm'|exact (eq_trans Htr' (Hrsv r))].
Qed.

(** One launch at a time keeps R1. *)
Lemma LaunchContainer_body_within_limits env app st :
  wf_ledger (srv st) -> within_limits (srv st) ->
  post (LaunchContainer_body env app) st (fun _ st' => within_limits (srv st')).
Proof.
  intros Hwf Hlim.
  unfold LaunchContainer_body.
  apply post_bind, post_call.
  destruct (NewClientWithOpts env (trace st)); [apply post_panic|].
  apply post_bind, post_call.
  match goal with |- context [ContainerList env ?h ?n] =>
    destruct (ContainerList env h n) as [l|e] end;
    [|unfold post; simpl; exact Hlim].
  apply post_bind. eapply post_mono.
  { apply post_and.
    - apply (post_preserves same_tracked). frame_by preserves_validate_image.
    - apply (post_preserves same_conn_kill). frame_by preserves_validate_image. }
  intros v st1 (Htr & Hc1 & Hc2 & Hcfg). cbn [srv] in *. unfold same_tracked in Htr.
  destruct v as [cont|e].
  - assert (Hwf1 : wf_ledger (srv st1)) by (unfold wf_ledger; rewrite Htr; exact Hwf).
    assert (Hlim1 : within_limits (srv st1))
      by (unfold within_limits; rewrite Htr, Hcfg; exact Hlim).
    apply post_bind. eapply post_mono.
    { apply launch_main_ledger. exact Hwf1. }
    intros [err contID] st2 (Hcfg2 & Hres).
    eapply post_mono.
    { apply post_and.
      - apply (post_preserves same_tracked). frame_by preserves_hydrate_ports.
      - apply (post_preserves same_conn_kill). frame_by preserves_hydrate_ports. }
    intros err' st3 (Htr3 & _ & _ & Hcfg3). unfold same_tracked in Htr3.
    assert (Hcase : TrackedResources (srv st3) = TrackedResources (srv st1) \/
                    exists r, admission_check r (srv st1) = None /\
                      TrackedResources (srv st3) = TrackedResources (reserve r (srv st1))).
    { rewrite Htr3. destruct err; [left; exact Hres|exact Hres]. }
    unfold within_limits. rewrite Hcfg3, Hcfg2.
    destruct Hcase as [Heq|(r & Hadm & Heq)]; rewrite Heq.
    + exact Hlim1.
    + apply (admission_check_within_limits r (srv st1) Hadm).
  - unfold post; simpl. unfold within_limits. rewrite Htr, Hcfg. exact Hlim.
Qed.

(** Two goroutines that both pass the test before either reserves are
    both admitted, whatever they ask for. *)
Lemma split_admission_race r1 r2 s :
  admission_check r1 s = None ->
  admission_check r2 s = None ->
  adm_run [0; 1; 0; 1]%nat [MkAdmThread r1 PcCheck; MkAdmThread r2 PcCheck] s
  = Some ([MkAdmThread r1 PcReserved; MkAdmThread r2 PcReserved],
          reserve r2 (reserve r1 s)).
Proof.
  intros H1 H2. cbn. unfold adm_thread_step. cbn. rewrite H1. cbn. rewrite H2. reflexivity.
Qed.

(** C1.  The admission test and the reservation are two critical
    sections.  Two launches of different services that both test
    before either reserves are both admitted: from a ledger within the
    limits, the schedule [racy_schedule] ends with 6000 milli-CPUs
    tracked against a limit of 4000.  Had the first launch reserved
    before the second tested ([serial_schedule]), the second would have
    been rejected and the ledger would be within the limits. *)
Theorem split_admission_exceeds_limits :
  within_limits server0 /\
  (exists ts s',
    adm_run racy_schedule two_launches server0 = Some (ts, s') /\
    Forall (fun t => at_pc t = PcReserved) ts /\
    MilliCPU (TrackedResources s') = 6000 /\
    MilliCPU (Limits (Config s')) = 4000 /\
    ~ within_limits s') /\
  (exists ts s',
    adm_run serial_schedule two_launches server0 = Some (ts, s') /\
    at_pc <$> ts = [PcReserved; PcRejected] /\
    within_limits s').
Proof.
  split; [|split].
  - unfold within_limits. cbn. lia.
  - eexists. eexists. split; [vm_compute; reflexivity|].
    split; [repeat constructor|].
    split; [reflexivity|]. split; [reflexivity|].
    unfold within_limits. cbn. lia.
  - eexists. eexists. split; [vm_compute; reflexivity|].
    split; [reflexivity|]. unfold within_limits. cbn. lia.
Qed.

(** ** [LaunchContainer]: what a call guarantees *)

Lemma bind_inv {S A B} (m : M S A) (k : A -> M S B) st b st' :
  bind m k st = Ret (b, st') ->
  exists a st1, m st = Ret (a, st1) /\ k a st1 = Ret (b, st').
Proof.
  unfold bind. destruct (m st) as [[a st1]| |]; [eauto|discriminate|discriminate].
Qed.

(** The first steps of [LaunchContainer] when the runtime lists a
    running container of the right image: nothing but the deferred
    hydration is left to do. *)
Lemma LaunchContainer_body_running env app st :
  reported_running env app (trace st) ->
  exists c,
    LaunchContainer_body env app st
    = hydrate_ports env app (c_ID c) None
        {| srv := srv st;
           trace := EvContainerList (containerName (Name app)) :: EvNewClient :: trace st |}.
Proof.
  intros (Hcli & l & c & Hlist & Hfind & Himg & Hrun). exists c.
  unfold LaunchContainer_body, bind, call. cbn [trace srv]. rewrite Hcli.
  cbn [trace srv]. rewrite Hlist, Hfind.
  unfold validate_image. rewrite bool_decide_eq_true_2 by exact Himg.
  unfold ret. unfold launch_main. rewrite bool_decide_eq_true_2 by exact Hrun.
  reflexivity.
Qed.

Lemma LaunchContainer_body_running_ledger env app st :
  reported_running env app (trace st) ->
  post (LaunchContainer_body env app) st (fun _ st' =>
    TrackedResources (srv st') = TrackedResources (srv st)) /\
  (is_Some (ServiceProxyHostPortMap (srv st) !! Name app) ->
   LaunchContainer_body env app st
   = Ret (None, {| srv := srv st;
                   trace := EvContainerList (containerName (Name app))
                            :: EvNewClient :: trace st |})).
Proof.
  intros Hrun. destruct (LaunchContainer_body_running env app st Hrun) as [c Heq].
  split.
  - unfold post. rewrite Heq.
    pose proof (hydrate_ports_spec env app (c_ID c) None
                  {| srv := srv st;
                     trace := EvContainerList (containerName (Name app))
                              :: EvNewClient :: trace st |}) as Hh.
    unfold post in Hh.
    destruct (hydrate_ports env app (c_ID c) None _) as [[err st']| |]; [|exact I|exact I].
    destruct Hh as (Htr & _). exact Htr.
  - intros Hentry. rewrite Heq. unfold hydrate_ports, bind, get_srv. cbn [srv].
    destruct Hentry as [m Hm]. rewrite Hm. reflexivity.
Qed.

(** The runtime lists a running container, the service has no entry in
    the port map yet, and the inspection of the deferred hydration
    fails: [LaunchContainer] returns that error. *)
Lemma LaunchContainer_running_returns_error :
  reported_running env_running_no_inspect web (trace st0) /\
  exists st',
    LaunchContainer_body env_running_no_inspect web st0 = Ret (Some "inspect failed", st').
Proof.
  split.
  - split; [reflexivity|]. exists [web_container "running"], (web_container "running").
    repeat split; reflexivity.
  - eexists. vm_compute. reflexivity.
Qed.

(** C4 (amended).  While the runtime reports the container of the
    service running with the configured image, any number of calls of
    [LaunchContainer] leaves [TrackedResources] as it was; and once the
    service has an entry in the port map (as it has after a first
    successful call), every such call returns success at once, with
    no change of the server at all.  Without that entry the call first
    hydrates the port map, and its result is the result of that. *)
Theorem LaunchContainer_running_keeps_ledger (env : Env) (app : Service) :
  (forall h, reported_running env app h) ->
  forall (n : nat) (st : St),
    post (launch_times env app n) st (fun _ st' =>
      TrackedResources (srv st') = TrackedResources (srv st)) /\
    (is_Some (ServiceProxyHostPortMap (srv st) !! Name app) ->
     returns (launch_times env app n) st (fun errs st' =>
       srv st' = srv st /\ length errs = n /\ Forall (fun e => e = None) errs)).
Proof.
  intros Hrun n. induction n as [|n IH]; intros st.
  - split; [reflexivity|]. intros _. cbn. repeat split. constructor.
  - destruct (LaunchContainer_body_running_ledger env app st (Hrun _)) as [Hpost Himm].
    split.
    + cbn [launch_times]. apply post_bind. eapply post_mono; [exact Hpost|].
      intros err st1 Htr. apply post_bind.
      destruct (IH st1) as [IH1 _]. eapply post_mono; [exact IH1|].
      intros errs st2 Htr2. unfold post; simpl. congruence.
    + intros Hentry. cbn [launch_times]. apply returns_bind.
      unfold returns at 1. rewrite (Himm Hentry).
      apply returns_bind. destruct (IH {| srv := srv st;
        trace := EvContainerList (containerName (Name app)) :: EvNewClient :: trace st |})
        as [_ IH2].
      eapply returns_mono; [apply IH2; exact Hentry|].
      intros errs st2 (Hsrv & Hlen & Hall). cbn [srv] in Hsrv.
      unfold returns; simpl. split; [exact Hsrv|]. split; [lia|].
      constructor; [reflexivity|exact Hall].
Qed.

Lemma env_running_reported h : reported_running env_running web h.
Proof.
  split; [reflexivity|].
  exists [web_container "running"], (web_container "running").
  repeat split; reflexivity.
Qed.

Lemma LaunchContainer_running_keeps_ledger_witness :
  (forall h, reported_running env_running web h) /\
  post (launch_times env_running web 3) st0 (fun _ st' =>
    TrackedResources (srv st') = TrackedResources (srv st0)) /\
  returns (launch_times env_running web 3) st_hydrated (fun errs st' =>
    srv st' = srv st_hydrated /\ length errs = 3%nat /\ Forall (fun e => e = None) errs).
Proof.
  split; [exact env_running_reported|]. split.
  - exact (proj1 (LaunchContainer_running_keeps_ledger
                    env_running web env_running_reported 3 st0)).
  - apply (proj2 (LaunchContainer_running_keeps_ledger
                    env_running web env_running_reported 3 st_hydrated)).
    exists {[ 80 := 49200 ]}. reflexivity.
Defined.




(** C3.  A stopped container of [web] exists, the service has no entry
    in the port map, admission, start and readiness all succeed.  The
    deferred function that gives the reservation back runs first and
    sees no error; the deferred hydration runs after it and fails, on
    its inspection or on a binding without a host port.
    [LaunchContainer] returns that error and the reservation stays in
    the ledger. *)
Theorem LaunchContainer_error_keeps_reservation :
  TrackedResources (srv (w_st world0)) = MkResources 0 0 0 /\
  (exists w',
     LaunchContainer env_stopped_inspect_once web world0
     = Ret (Some "inspect failed", w') /\
     TrackedResources (srv (w_st w')) = MkResources 3000 8 0 /\
     In (EvContainerStart "4f2a") (trace (w_st w'))) /\
  (exists w',
     LaunchContainer env_stopped_unbound web world0
     = Ret (Some "strconv.Atoi: invalid syntax", w') /\
     TrackedResources (srv (w_st w')) = MkResources 3000 8 0 /\
     In (EvContainerStart "4f2a") (trace (w_st w'))).
Proof.
  split; [reflexivity|]. split.
  - eexists. split; [vm_compute; reflexivity|]. split; [reflexivity|]. cbn. auto.
  - eexists. split; [vm_compute; reflexivity|]. split; [reflexivity|]. cbn. auto.
Qed.



(** ** [HandleConnection] *)

Lemma lift_inv {A} (m : M St A) w a w' :
  lift m w = Ret (a, w') ->
  m (w_st w) = Ret (a, w_st w') /\ ContainerAPILock w' = ContainerAPILock w.
Proof.
  unfold lift. destruct (m (w_st w)) as [[a0 st']| |]; [|discriminate|discriminate].
  intros Heq. inversion Heq; subst. split; reflexivity.
Qed.

(** One connection opens, closes, and the next one opens: the count is
    1 again and the deadline armed at the close is still there. *)
Lemma acquire_leaves_armed_killTime :
  exists w,
    open_close_open env_running world0 = Ret (true, w) /\
    ServiceConnCount (srv (w_st w)) !! "web" = Some 1 /\
    ServiceKillTime (srv (w_st w)) !! "web" = Some 60000001000.
Proof.
  eexists. split; [vm_compute; reflexivity|]. split; reflexivity.
Qed.

(** C2 (amended).  An acquire that goes through increments
    [ServiceConnCount] of the service, under the writer lock, and leaves
    [ServiceKillTime] exactly as it was: a deadline armed earlier stays
    in the map while connections are live. *)
Theorem acquire_increments_keeps_killTime (env : Env) (app : Service) (w w' : World) :
  HandleConnection_acquire env app w = Ret (true, w') ->
  ServiceConnCount (srv (w_st w'))
  = <[Name app := uint_inc (default 0 (ServiceConnCount (srv (w_st w)) !! Name app))]>
      (ServiceConnCount (srv (w_st w))) /\
  ServiceKillTime (srv (w_st w')) = ServiceKillTime (srv (w_st w)).
Proof.
  unfold HandleConnection_acquire. intros Hret.
  apply bind_inv in Hret as (s & w0 & Hget & Hret).
  apply lift_inv in Hget as [Hget Hlock]. unfold get_srv in Hget.
  inversion Hget as [[Hs Hw0]]. clear Hget.
  assert (Hw : w0 = w).
  { destruct w0, w. cbn in *. congruence. }
  subst w0. clear Hw0 Hlock.
  apply bind_inv in Hret as (err & w1 & Hlaunch & Hret).
  assert (Hsame : same_conn_kill (srv (w_st w)) (srv (w_st w1))).
  { destruct (match ServiceConnCount s !! Name app with
              | Some count => count >? 0
              | None => false
              end).
    - inversion Hlaunch; subst. reflexivity.
    - apply with_ContainerAPILock_inv in Hlaunch.
      exact (post_inv _ _ _ _ _ (LaunchContainer_body_same_conn_kill env app (w_st w))
               Hlaunch). }
  destruct err as [e|]; [inversion Hret|].
  apply bind_inv in Hret as ([] & w2 & Hmod & Hret).
  inversion Hret; subst w2. clear Hret.
  apply lift_inv in Hmod as [Hmod _]. unfold modify_srv in Hmod.
  inversion Hmod as [Hst]. cbn.
  destruct Hsame as (Hc & Hk & _). rewrite Hc, Hk. split; reflexivity.
Qed.

Lemma acquire_increments_keeps_killTime_witness :
  exists w',
    HandleConnection_acquire env_running web world0 = Ret (true, w') /\
    ServiceConnCount (srv (w_st w')) !! "web" = Some 1 /\
    ServiceKillTime (srv (w_st w')) = ServiceKillTime (srv (w_st world0)).
Proof.
  destruct (HandleConnection_acquire env_running web world0) as [[[|] w']| |] eqn:E;
    try (vm_compute in E; discriminate).
  exists w'. split; [reflexivity|].
  destruct (acquire_increments_keeps_killTime env_running web world0 w' E) as [Hc Hk].
  split; [|exact Hk]. rewrite Hc. reflexivity.
Defined.

(** ** [CleanUpContainers] *)

Lemma replicate_snoc_cons {A} (n : nat) (x : A) (l : list A) :
  replicate n x ++ x :: l = replicate (S n) x ++ l.
Proof. induction n as [|n IH]; [reflexivity|]. cbn. f_equal. exact IH. Qed.




Lemma returns_call {A} ev (answer : list Event -> A) st Q :
  Q (answer (trace st)) {| srv := srv st; trace := ev :: trace st |} ->
  returns (call ev answer) st Q.
Proof. exact id. Qed.










(** ** More on the keyed mutex registry *)

Section MutexMapMore.
Context {K : Type} `{Countable K}.
Implicit Types (mm : MutexMap K) (l : list (mm_action K)).

(** X1.  After any completed run of [Lock]/[Unlock] steps on a fresh
    registry, a key has an entry exactly when more [Lock]s than
    [Unlock]s of it have passed the registry, and the entry's count is
    that difference. *)
Theorem MutexMap_holder_count (key : K) l mm' :
  Z.of_nat (length l) < 2 ^ 63 ->
  mm_run l NewMutexMap = Some mm' ->
  match mutexmap mm' !! key with
  | Some a =>
      exists c, mm_heap mm' !! a = Some c /\ e_key c = key /\
                e_count c = locks_of key l - unlocks_of key l /\
                0 < locks_of key l - unlocks_of key l
  | None => locks_of key l = unlocks_of key l
  end.
Proof.
  intros Hlen Hrun.
  pose proof (mm_inv_run l (fun _ : K => 0) NewMutexMap mm' 0 mm_inv_new
                ltac:(intros; lia) ltac:(lia) Hrun) as (H1 & H2 & _).
  destruct (mutexmap mm' !! key) as [a|] eqn:Hk.
  - destruct (H1 _ _ Hk) as (c & Hc & Hck & Hcc & Hpos). exists c.
    repeat split; auto; lia.
  - specialize (H2 _ Hk). simpl in H2. lia.
Qed.

(** X2.  After such a run, [Unlock] of a key panics exactly when no
    [Lock] of that key is outstanding. *)
Theorem Unlock_panics_iff_balanced (key : K) l mm' :
  Z.of_nat (length l) < 2 ^ 63 ->
  mm_run l NewMutexMap = Some mm' ->
  (Unlock_registry key mm' = None <-> locks_of key l = unlocks_of key l).
Proof.
  intros Hlen Hrun.
  pose proof (mm_inv_run l (fun _ : K => 0) NewMutexMap mm' 0 mm_inv_new
                ltac:(intros; lia) ltac:(lia) Hrun) as (H1 & H2 & _).
  unfold Unlock_registry.
  destruct (mutexmap mm' !! key) as [a|] eqn:Hk.
  - destruct (H1 _ _ Hk) as (c & _ & _ & _ & Hpos). simpl in Hpos.
    split; [discriminate|lia].
  - specialize (H2 _ Hk). simpl in H2. split; [lia|reflexivity].
Qed.

(** X3.  [Lock] of a key without an entry succeeds at once, whatever
    other keys are held, and touches no other key's entry: it
    allocates a fresh entry with one holder. *)
Theorem Lock_free_key_independent (key : K) mm :
  mutexmap mm !! key = None ->
  exists mm1,
    Lock key mm = Some mm1 /\
    mutexmap mm1 !! key = Some (mm_next mm) /\
    mm_heap mm1 !! mm_next mm = Some (Entry true 1 key) /\
    (forall k, k <> key -> mutexmap mm1 !! k = mutexmap mm !! k) /\
    (forall a, a <> mm_next mm -> mm_heap mm1 !! a = mm_heap mm !! a).
Proof.
  intros Hfree. unfold Lock, Lock_registry. rewrite Hfree.
  unfold mutex_Lock. cbn [mm_heap mutexmap mm_next].
  rewrite lookup_alter_eq, lookup_insert_eq. cbn.
  eexists. split; [reflexivity|]. cbn [mm_heap mutexmap mm_next].
  split; [apply lookup_insert_eq|]. split; [apply lookup_insert_eq|]. split.
  - intros k Hk. apply lookup_insert_ne. congruence.
  - intros a Ha.
    rewrite lookup_insert_ne, lookup_alter_ne, lookup_insert_ne by congruence.
    reflexivity.
Qed.

(** X4.  [Lock] is not reentrant: once a [Lock] of a key has returned,
    a second [Lock] of the key parks; the holder's [Unlock] goes
    through, and after it the key can be locked again. *)
Theorem Lock_not_reentrant (key : K) mm mm1 :
  Lock key mm = Some mm1 ->
  Lock key mm1 = None /\
  exists mm2, Unlock key mm1 = Some mm2 /\ is_Some (Lock key mm2).
Proof.
  unfold Lock at 1. destruct (Lock_registry key mm) as [e mmr] eqn:Hreg.
  assert (Hkey : mutexmap mmr !! key = Some e).
  { unfold Lock_registry in Hreg.
    destruct (mutexmap mm !! key) as [e0|] eqn:Hk; inversion Hreg; subst; cbn.
    - exact Hk.
    - apply lookup_insert_eq. }
  unfold mutex_Lock. destruct (mm_heap mmr !! e) as [c|] eqn:Hc; [|discriminate].
  destruct (e_locked c) eqn:Hl; [discriminate|].
  intros Heq. inversion Heq; subst mm1; clear Heq. split.
  - unfold Lock, Lock_registry. cbn [mutexmap mm_heap mm_next]. rewrite Hkey.
    unfold mutex_Lock. cbn [mutexmap mm_heap mm_next].
    rewrite lookup_alter_eq, lookup_insert_eq. reflexivity.
  - unfold Unlock, Unlock_registry. cbn [mutexmap mm_heap mm_next]. rewrite Hkey.
    unfold mutex_Unlock. cbn [mutexmap mm_heap mm_next].
    rewrite !lookup_alter_eq, !lookup_insert_eq. cbn.
    eexists. split; [reflexivity|].
    unfold Lock, Lock_registry. cbn [mutexmap mm_heap mm_next].
    case_decide.
    + rewrite lookup_delete_eq. unfold mutex_Lock. cbn [mutexmap mm_heap mm_next].
      rewrite lookup_alter_eq, lookup_insert_eq. cbn. eauto.
    + rewrite Hkey. unfold mutex_Lock. cbn [mutexmap mm_heap mm_next].
      rewrite !lookup_alter_eq, !lookup_insert_eq. cbn. eauto.
Qed.

(** X5.  Hand-over: while a holder has a fresh key, a second [Lock]
    enters the registry and parks on the sub-lock without holding the
    registry; the holder's [Unlock] goes through and keeps the entry
    (one holder is left), and then the waiter gets the sub-lock. *)
Theorem Lock_handover (key : K) mm :
  mutexmap mm !! key = None ->
  exists mm1 e mmw mm2 mm3,
    Lock key mm = Some mm1 /\
    Lock_registry key mm1 = (e, mmw) /\
    mutex_Lock e mmw = None /\
    Unlock key mmw = Some mm2 /\
    mutex_Lock e mm2 = Some mm3 /\
    mutexmap mm3 !! key = Some e /\
    mm_heap mm3 !! e = Some (Entry true 1 key).
Proof.
  intros Hfree.
  destruct (Lock_free_key_independent key mm Hfree) as (mm1 & HL & Hk1 & Hh1 & _ & _).
  exists mm1, (mm_next mm). rewrite HL.
  unfold Lock_registry. rewrite Hk1.
  eexists. eexists. eexists. split; [reflexivity|]. split; [reflexivity|].
  unfold mutex_Lock at 1. cbn [mutexmap mm_heap mm_next].
  rewrite lookup_alter_eq, Hh1. cbn. split; [reflexivity|].
  unfold Unlock, Unlock_registry. cbn [mutexmap mm_heap mm_next]. rewrite Hk1.
  rewrite !lookup_alter_eq, Hh1. cbn.
  unfold mutex_Unlock. cbn [mutexmap mm_heap mm_next].
  rewrite !lookup_alter_eq, Hh1. cbn.
  split; [reflexivity|].
  unfold mutex_Lock. cbn [mutexmap mm_heap mm_next].
  rewrite lookup_insert_eq. cbn. split; [reflexivity|].
  cbn [mutexmap mm_heap mm_next]. split; [exact Hk1|].
  rewrite lookup_insert_eq. reflexivity.
Qed.

(** X6.  In the earlier version of the registry a [Lock] of a held key
    takes the registry lock and parks on the sub-lock while keeping
    it: from then on every step of every goroutine is blocked, the
    holder's [Unlock] included, so the sub-lock is never released. *)
Theorem V1_Lock_held_key_deadlocks (key : K) (s : MutexMapV1 K) e c :
  v_registry s = None ->
  mutexmap (v_mm s) !! key = Some e ->
  mm_heap (v_mm s) !! e = Some c ->
  e_locked c = true ->
  exists s',
    v1_step (V1LockEnter key) s = V1Ok s' /\
    forall a, v1_step a s' = V1Blocked.
Proof.
  intros Hreg Hkey Hc Hl. cbn. unfold V1_Lock_enter. rewrite Hreg.
  unfold Lock_registry. rewrite Hkey. eexists. split; [reflexivity|].
  intros [k|e'|k]; cbn.
  - reflexivity.
  - unfold V1_Lock_acquire. cbn. case_decide; [|reflexivity]. subst e'.
    unfold mutex_Lock. cbn. rewrite lookup_alter_eq, Hc. cbn. rewrite Hl. reflexivity.
  - reflexivity.
Qed.
End MutexMapMore.

Lemma MutexMap_holder_count_witness :
  exists mm',
    mm_run holder_and_waiter NewMutexMap = Some mm' /\
    match mutexmap mm' !! "svc" with
    | Some a =>
        exists c, mm_heap mm' !! a = Some c /\ e_key c = "svc" /\
                  e_count c = locks_of "svc" holder_and_waiter
                              - unlocks_of "svc" holder_and_waiter /\
                  0 < locks_of "svc" holder_and_waiter - unlocks_of "svc" holder_and_waiter
    | None => locks_of "svc" holder_and_waiter = unlocks_of "svc" holder_and_waiter
    end.
Proof.
  eexists. split; [reflexivity|].
  apply (MutexMap_holder_count "svc" holder_and_waiter);
    [vm_compute; reflexivity|reflexivity].
Defined.

Lemma Unlock_panics_iff_balanced_witness :
  exists mm',
    mm_run two_holders NewMutexMap = Some mm' /\
    (Unlock_registry "svc" mm' = None <->
     locks_of "svc" two_holders = unlocks_of "svc" two_holders).
Proof.
  eexists. split; [reflexivity|].
  apply (Unlock_panics_iff_balanced "svc" two_holders);
    [vm_compute; reflexivity|reflexivity].
Defined.

Lemma Lock_free_key_independent_witness :
  exists mm1,
    Lock "api" mm_svc_held = Some mm1 /\
    mutexmap mm1 !! "api" = Some 1%nat /\
    mm_heap mm1 !! 1%nat = Some (Entry true 1 "api") /\
    (forall k, k <> "api" -> mutexmap mm1 !! k = mutexmap mm_svc_held !! k) /\
    (forall a, a <> 1%nat -> mm_heap mm1 !! a = mm_heap mm_svc_held !! a).
Proof.
  exact (Lock_free_key_independent "api" mm_svc_held eq_refl).
Defined.

Lemma Lock_not_reentrant_witness :
  Lock "svc" mm_svc_held = None /\
  exists mm2, Unlock "svc" mm_svc_held = Some mm2 /\ is_Some (Lock "svc" mm2).
Proof.
  exact (Lock_not_reentrant "svc" NewMutexMap mm_svc_held eq_refl).
Defined.

Lemma Lock_handover_witness :
  exists mm1 e mmw mm2 mm3,
    Lock "svc" NewMutexMap = Some mm1 /\
    Lock_registry "svc" mm1 = (e, mmw) /\
    mutex_Lock e mmw = None /\
    Unlock "svc" mmw = Some mm2 /\
    mutex_Lock e mm2 = Some mm3 /\
    mutexmap mm3 !! "svc" = Some e /\
    mm_heap mm3 !! e = Some (Entry true 1 "svc").
Proof.
  exact (Lock_handover "svc" NewMutexMap eq_refl).
Defined.

Lemma V1_Lock_held_key_deadlocks_witness :
  exists s',
    v1_step (V1LockEnter "svc") {| v_registry := None; v_mm := mm_svc_held |} = V1Ok s' /\
    forall a, v1_step a s' = V1Blocked.
Proof.
  exact (V1_Lock_held_key_deadlocks "svc" {| v_registry := None; v_mm := mm_svc_held |}
           0%nat (Entry true 1 "svc") eq_refl eq_refl eq_refl eq_refl).
Defined.

(** ** More on [FindOpenPort] *)

Lemma attempted_ports_lookup_S k a j :
  attempted_ports (S k) a !! S j = attempted_ports k (next_attemptPort a) !! j.
Proof. reflexivity. Qed.

Lemma probe_history_S ip a h j :
  probe_history ip a h (S j)
  = probe_history ip (next_attemptPort a) (EvListen ip a :: h) j.
Proof.
  unfold probe_history. cbn [attempted_ports map rev]. rewrite <- app_assoc. reflexivity.
Qed.

Lemma FindOpenPort_loop_first_free env (i : nat) (ip : string) : forall (a : Z) (st : St),
  in_range a ->
  returns (FindOpenPort_loop env i ip a) st (fun '(p, err) st' =>
    srv st' = srv st /\
    exists k : nat, (k <= i)%nat /\
      trace st' = probe_history ip a (trace st) k /\
      ((err = None /\ exists k', k = S k' /\
          attempted_ports k a !! k' = Some p /\
          net_Listen env (probe_history ip a (trace st) k') ip p = true /\
          (forall j q, (j < k')%nat -> attempted_ports k a !! j = Some q ->
             net_Listen env (probe_history ip a (trace st) j) ip q = false))
       \/ (is_Some err /\ p = -1 /\ k = i /\
           (forall j q, attempted_ports k a !! j = Some q ->
              net_Listen env (probe_history ip a (trace st) j) ip q = false)))).
Proof.
  induction i as [|i IH]; intros a st Ha.
  - cbn. split; [reflexivity|]. exists 0%nat. split; [lia|]. split; [reflexivity|].
    right. split; [eexists; reflexivity|]. split; [reflexivity|]. split; [reflexivity|].
    intros j q Hj. destruct j; discriminate.
  - cbn [FindOpenPort_loop]. unfold bind, call, returns.
    destruct (net_Listen env (trace st) ip a) eqn:Hb.
    + cbn. split; [reflexivity|]. exists 1%nat. split; [lia|].
      split; [reflexivity|]. left. split; [reflexivity|].
      exists 0%nat. split; [reflexivity|]. split; [reflexivity|].
      split; [exact Hb|]. intros j q Hj. lia.
    + fold (next_attemptPort a).
      pose proof (IH (next_attemptPort a)
                     {| srv := srv st; trace := EvListen ip a :: trace st |}
                     (next_attemptPort_in_range a Ha)) as Hrec.
      unfold returns in Hrec.
      destruct (FindOpenPort_loop env i ip (next_attemptPort a) _)
        as [[[p err] st']| |]; [|tauto|tauto].
      destruct Hrec as (Hsrv & k & Hk & Htr & Hres). cbn [srv trace] in *.
      split; [exact Hsrv|]. exists (S k). split; [lia|]. split.
      { rewrite probe_history_S. exact Htr. }
      destruct Hres as [(He & k' & Hkk & Hp & Hfree & Hbusy)|(He & Hp & Hki & Hbusy)].
      * left. split; [exact He|]. exists (S k'). split; [lia|].
        split; [rewrite attempted_ports_lookup_S; exact Hp|].
        split; [rewrite probe_history_S; exact Hfree|].
        intros j q Hj Hq. destruct j as [|j].
        -- cbn in Hq. inversion Hq; subst q. exact Hb.
        -- rewrite probe_history_S. apply Hbusy; [lia|exact Hq].
      * right. split; [exact He|]. split; [exact Hp|]. split; [lia|].
        intros j q Hq. destruct j as [|j].
        -- cbn in Hq. inversion Hq; subst q. exact Hb.
        -- rewrite probe_history_S. apply Hbusy. exact Hq.
Qed.

Lemma returns_and {S A} (m : M S A) st (Q1 Q2 : A -> S -> Prop) :
  returns m st Q1 -> returns m st Q2 -> returns m st (fun a st' => Q1 a st' /\ Q2 a st').
Proof. unfold returns. destruct (m st) as [[a st']| |]; tauto. Qed.

Lemma start_port_in_range env st : in_range (start_port env st).
Proof.
  pose proof (first_attemptPort_bounds (rand_Int63 env (trace st))).
  unfold in_range, start_port. lia.
Qed.

(** X7.  [FindOpenPort] always returns and leaves the server alone.  It
    probes the ports that follow the starting port, one after the
    other; the port it returns is the first of them that could be
    bound, it lies in [49152, 65535] and at most 32 ports were probed;
    if the first 32 all fail, it returns [-1] with an error. *)
Theorem FindOpenPort_first_free (env : Env) (ip : string) (st : St) :
  returns (FindOpenPort env ip) st (fun '(p, err) st' =>
    srv st' = srv st /\
    exists k : nat, (k <= maxAttempts)%nat /\
      trace st' = probe_history ip (start_port env st) (EvRand :: trace st) k /\
      ((err = None /\ in_range p /\ exists k', k = S k' /\
          attempted_ports k (start_port env st) !! k' = Some p /\
          net_Listen env (probe_history ip (start_port env st) (EvRand :: trace st) k') ip p
          = true /\
          (forall j q, (j < k')%nat ->
             attempted_ports k (start_port env st) !! j = Some q ->
             net_Listen env (probe_history ip (start_port env st) (EvRand :: trace st) j) ip q
             = false))
       \/ (is_Some err /\ p = -1 /\ k = maxAttempts /\
           (forall j q, attempted_ports k (start_port env st) !! j = Some q ->
              net_Listen env (probe_history ip (start_port env st) (EvRand :: trace st) j) ip q
              = false)))).
Proof.
  unfold FindOpenPort. apply returns_bind, returns_call.
  fold (start_port env st).
  eapply returns_mono.
  - apply returns_and.
    + apply (FindOpenPort_loop_spec env maxAttempts ip (start_port env st)),
        start_port_in_range.
    + apply (FindOpenPort_loop_first_free env maxAttempts ip (start_port env st)),
        start_port_in_range.
  - intros [p err] st' [Hrange (Hsrv & k & Hk & Htr & Hres)]. cbn [srv trace] in *.
    split; [exact Hsrv|]. exists k. split; [exact Hk|]. split; [exact Htr|].
    destruct Hres as [(He & Hrest)|Hfail]; [left|right; exact Hfail].
    split; [exact He|]. split; [|exact Hrest].
    destruct Hrange as (_ & k0 & _ & _ & [(_ & Hp & _)|([e He'] & _)]);
      [exact Hp|congruence].
Qed.

(** *** The ports probed *)

Lemma next_attemptPort_offset (p : Z) :
  in_range p ->
  next_attemptPort p = rangeStart + (p - rangeStart + 1) mod 16384.
Proof.
  intros Hp. rewrite next_attemptPort_wraps by exact Hp.
  unfold in_range, rangeStart, rangeEnd in *. case_decide.
  - subst p. reflexivity.
  - rewrite Z.mod_small by lia. lia.
Qed.

Lemma attempted_ports_lookup k : forall a j,
  in_range a -> (j < k)%nat ->
  attempted_ports k a !! j = Some (rangeStart + (a - rangeStart + Z.of_nat j) mod 16384).
Proof.
  induction k as [|k IH]; intros a j Ha Hj; [lia|].
  destruct j as [|j].
  - cbn. f_equal. unfold in_range, rangeStart, rangeEnd in *.
    rewrite Z.add_0_r, Z.mod_small by lia. lia.
  - rewrite attempted_ports_lookup_S, IH by (auto using next_attemptPort_in_range; lia).
    f_equal. f_equal. rewrite next_attemptPort_offset by exact Ha.
    replace (rangeStart + (a - rangeStart + 1) mod 16384 - rangeStart + Z.of_nat j)
      with ((a - rangeStart + 1) mod 16384 + Z.of_nat j) by lia.
    rewrite Zplus_mod_idemp_l. f_equal. lia.
Qed.

Lemma attempted_ports_length k a : length (attempted_ports k a) = k.
Proof. revert a. induction k as [|k IH]; intros a; cbn; [reflexivity|]. f_equal. apply IH. Qed.

(** X8.  The ports probed from a starting port of the range all lie in
    [49152, 65535], each is the successor of the one before (with
    65535 followed by 49152), and as long as no more than 16384 ports
    are probed no port is probed twice; in particular the 32 probes of
    [FindOpenPort] go to 32 different ports. *)
Theorem attempted_ports_distinct (k : nat) (a : Z) :
  in_range a -> Z.of_nat k <= 16384 ->
  Forall in_range (attempted_ports k a) /\
  NoDup (attempted_ports k a) /\
  (forall j p q, attempted_ports k a !! j = Some p ->
                 attempted_ports k a !! S j = Some q ->
                 q = if decide (p = rangeEnd) then rangeStart else p + 1).
Proof.
  intros Ha Hk.
  assert (Hlook : forall j p, attempted_ports k a !! j = Some p ->
            (j < k)%nat /\ p = rangeStart + (a - rangeStart + Z.of_nat j) mod 16384).
  { intros j p Hj.
    assert (j < k)%nat.
    { apply lookup_lt_Some in Hj. rewrite attempted_ports_length in Hj. exact Hj. }
    split; [assumption|]. rewrite attempted_ports_lookup in Hj by assumption.
    congruence. }
  split; [|split].
  - apply List.Forall_forall. intros p Hp. apply list_elem_of_In in Hp.
    apply list_elem_of_lookup in Hp as [j Hj].
    apply Hlook in Hj as [_ ->].
    pose proof (Z.mod_pos_bound (a - rangeStart + Z.of_nat j) 16384 ltac:(lia)).
    unfold in_range, rangeStart, rangeEnd in *. lia.
  - apply NoDup_alt. intros i j p Hi Hj.
    apply Hlook in Hi as [Hik Hi]. apply Hlook in Hj as [Hjk Hj].
    assert (Hmod : (a - rangeStart + Z.of_nat i) mod 16384
                   = (a - rangeStart + Z.of_nat j) mod 16384) by lia.
    rewrite (Z.mod_eq _ 16384), (Z.mod_eq (a - rangeStart + Z.of_nat j) 16384) in Hmod by lia.
    nia.
  - intros j p q Hp Hq.
    pose proof (Hlook _ _ Hp) as [_ Hpv]. pose proof (Hlook _ _ Hq) as [_ Hqv].
    assert (Hpr : in_range p).
    { subst p. pose proof (Z.mod_pos_bound (a - rangeStart + Z.of_nat j) 16384 ltac:(lia)).
      unfold in_range, rangeStart, rangeEnd in *. lia. }
    rewrite <- (next_attemptPort_wraps p Hpr), (next_attemptPort_offset p Hpr).
    rewrite Hqv, Hpv. f_equal.
    replace (rangeStart + (a - rangeStart + Z.of_nat j) mod 16384 - rangeStart + 1)
      with ((a - rangeStart + Z.of_nat j) mod 16384 + 1) by lia.
    rewrite Zplus_mod_idemp_l. f_equal. lia.
Qed.

Lemma attempted_ports_distinct_witness :
  Forall in_range (attempted_ports 32 65520) /\
  NoDup (attempted_ports 32 65520) /\
  (forall j p q, attempted_ports 32 65520 !! j = Some p ->
                 attempted_ports 32 65520 !! S j = Some q ->
                 q = if decide (p = rangeEnd) then rangeStart else p + 1).
Proof.
  apply (attempted_ports_distinct 32 65520);
    [unfold in_range, rangeStart, rangeEnd; lia|cbn; lia].
Defined.

(** ** The interactions of the methods with the outside world *)

Lemma emits_ret {A} ok (a : A) : emits ok (ret a).
Proof. intros st. exists []. split; reflexivity. Qed.

Lemma emits_panic {A} ok msg : emits ok (@panic St A msg).
Proof. intros st. exact I. Qed.

Lemma emits_call {A} ok ev (answer : list Event -> A) :
  ok ev = true -> emits ok (call ev answer).
Proof. intros Hev st. exists [ev]. split; [reflexivity|]. cbn. rewrite Hev. reflexivity. Qed.

Lemma emits_get_srv ok : emits ok get_srv.
Proof. intros st. exists []. split; reflexivity. Qed.

Lemma emits_modify_srv ok f : emits ok (modify_srv f).
Proof. intros st. exists []. split; reflexivity. Qed.

Lemma emits_bind {A B} ok (m : M St A) (k : A -> M St B) :
  emits ok m -> (forall a, emits ok (k a)) -> emits ok (bind m k).
Proof.
  intros Hm Hk st. apply post_bind. eapply post_mono; [apply Hm|].
  intros a st1 (new1 & Ht1 & Hok1). eapply post_mono; [apply Hk|].
  intros b st2 (new2 & Ht2 & Hok2). exists (new2 ++ new1). split.
  - rewrite Ht2, Ht1. apply app_assoc.
  - rewrite forallb_app, Hok1, Hok2. reflexivity.
Qed.

Lemma emits_weaken {A} (ok ok' : Event -> bool) (m : M St A) :
  (forall ev, ok ev = true -> ok' ev = true) -> emits ok m -> emits ok' m.
Proof.
  intros Hsub Hm st. eapply post_mono; [apply Hm|].
  intros a st' (new & Ht & Hok). exists new. split; [exact Ht|].
  rewrite forallb_forall in *. auto.
Qed.

(** Breaks an [emits] goal down along the structure of the program;
    the events themselves are left to [auto]. *)
Ltac emits_step :=
  match goal with
  | |- emits _ (ret _) => apply emits_ret
  | |- emits _ (panic _) => apply emits_panic
  | |- emits _ (call _ _) => apply emits_call; solve [auto]
  | |- emits _ get_srv => apply emits_get_srv
  | |- emits _ (modify_srv _) => apply emits_modify_srv
  | |- emits _ (bind _ _) => apply emits_bind; [|intros ?]
  | |- emits _ (match ?x with _ => _ end) => destruct x
  | |- emits _ (if ?x then _ else _) => destruct x
  | |- emits _ (let _ := _ in _) => cbv zeta
  end.

Section EmitsMethods.
Variable env : Env.
Variable ok : Event -> bool.

Section Ports.
Hypothesis ok_listen : forall ip p, ok (EvListen ip p) = true.
Hypothesis ok_rand : ok EvRand = true.

Lemma emits_FindOpenPort_loop i ip : forall a, emits ok (FindOpenPort_loop env i ip a).
Proof.
  induction i as [|i IH]; intros a; cbn [FindOpenPort_loop].
  - repeat emits_step.
  - repeat emits_step. apply IH.
Qed.

Lemma emits_FindOpenPort ip : emits ok (FindOpenPort env ip).
Proof. unfold FindOpenPort. repeat emits_step. apply emits_FindOpenPort_loop. Qed.

Lemma emits_alloc_ports app hostIP ports : forall portMap,
  emits ok (alloc_ports env app hostIP ports portMap).
Proof.
  induction ports as [|port rest IH]; intros portMap; cbn [alloc_ports].
  - repeat emits_step.
  - repeat match goal with
           | |- emits _ (FindOpenPort _ _) => apply emits_FindOpenPort
           | |- emits _ (alloc_ports _ _ _ _ _) => apply IH
           | _ => emits_step
           end.
Qed.
End Ports.

Lemma emits_validate_image app cont :
  (forall id, ok (EvContainerRemove id) = true) ->
  emits ok (validate_image env app cont).
Proof. intros ok_remove. unfold validate_image. repeat emits_step. Qed.

Lemma emits_pull_image app :
  (forall image, ok (EvImagePull image) = true) -> ok EvImageList = true ->
  emits ok (pull_image env app).
Proof. intros ok_pull ok_images. unfold pull_image. repeat emits_step. Qed.

Lemma emits_wait_running n contID :
  (forall id, ok (EvContainerInspect id) = true) ->
  emits ok (wait_running env n contID).
Proof.
  intros ok_inspect. induction n as [|n IH]; cbn [wait_running].
  - repeat emits_step.
  - repeat match goal with
           | |- emits _ (wait_running _ _ _) => apply IH
           | _ => emits_step
           end.
Qed.

Lemma emits_store_bindings name bs : emits ok (store_bindings name bs).
Proof.
  induction bs as [|[natport bindings] rest IH]; cbn [store_bindings].
  - repeat emits_step.
  - repeat match goal with
           | |- emits _ (store_bindings _ _) => apply IH
           | _ => emits_step
           end.
Qed.

Lemma emits_hydrate_ports app contID err :
  (forall id, ok (EvContainerInspect id) = true) ->
  emits ok (hydrate_ports env app contID err).
Proof.
  intros ok_inspect. unfold hydrate_ports.
  repeat match goal with
         | |- emits _ (store_bindings _ _) => apply emits_store_bindings
         | _ => emits_step
         end.
Qed.

Lemma emits_release_stopped name : emits ok (release_stopped name).
Proof. unfold release_stopped. repeat emits_step. Qed.

(** [launch_create] up to the way it pulls. *)
Lemma emits_launch_create app :
  (forall ip p, ok (EvListen ip p) = true) -> ok EvRand = true ->
  (forall name spec, ok (EvContainerCreate name spec) = true) ->
  emits ok (pull_image env app) ->
  emits ok (launch_create env app).
Proof.
  intros ok_listen ok_rand ok_create Hpull. unfold launch_create.
  repeat match goal with
         | |- emits _ (pull_image _ _) => exact Hpull
         | |- emits _ (alloc_ports _ _ _ _ _) => apply emits_alloc_ports; assumption
         | _ => emits_step
         end.
Qed.

Lemma emits_launch_start app contID :
  (forall id, ok (EvContainerInspect id) = true) ->
  (forall id, ok (EvContainerStart id) = true) ->
  emits ok (launch_start env app contID).
Proof.
  intros ok_inspect ok_start. unfold launch_start, start_and_wait.
  repeat match goal with
         | |- emits _ (wait_running _ _ _) => apply emits_wait_running; assumption
         | _ => emits_step
         end.
Qed.
End EmitsMethods.

Lemma emits_launch_main env ok app cont :
  (forall ip p, ok (EvListen ip p) = true) -> ok EvRand = true ->
  (forall name spec, ok (EvContainerCreate name spec) = true) ->
  (forall id, ok (EvContainerStart id) = true) ->
  (forall id, ok (EvContainerInspect id) = true) ->
  emits ok (pull_image env app) ->
  emits ok (launch_main env app cont).
Proof.
  intros ok_listen ok_rand ok_create ok_start ok_inspect Hpull. unfold launch_main.
  repeat match goal with
         | |- emits _ (launch_create _ _) => apply emits_launch_create; assumption
         | |- emits _ (launch_start _ _ _) => apply emits_launch_start; assumption
         | _ => emits_step
         end.
Qed.

(** [LaunchContainer] makes only calls that [ok] admits, when [ok]
    admits every call but those of the pull stage and the pull stage
    itself keeps to [ok]. *)
Lemma emits_LaunchContainer_body_with env ok app :
  ok EvNewClient = true ->
  (forall name, ok (EvContainerList name) = true) ->
  (forall id, ok (EvContainerRemove id) = true) ->
  (forall ip p, ok (EvListen ip p) = true) -> ok EvRand = true ->
  (forall name spec, ok (EvContainerCreate name spec) = true) ->
  (forall id, ok (EvContainerStart id) = true) ->
  (forall id, ok (EvContainerInspect id) = true) ->
  emits ok (pull_image env app) ->
  emits ok (LaunchContainer_body env app).
Proof.
  intros ok_client ok_list ok_remove ok_listen ok_rand ok_create ok_start ok_inspect Hpull.
  unfold LaunchContainer_body.
  repeat match goal with
         | |- emits _ (validate_image _ _ _) => apply emits_validate_image; assumption
         | |- emits _ (launch_main _ _ _) => apply emits_launch_main; assumption
         | |- emits _ (hydrate_ports _ _ _ _) => apply emits_hydrate_ports; assumption
         | _ => emits_step
         end.
Qed.

Lemma emits_LaunchContainer_body env app : emits launch_event (LaunchContainer_body env app).
Proof.
  apply emits_LaunchContainer_body_with; try reflexivity.
  apply emits_pull_image; reflexivity.
Qed.

Lemma emits_StopContainer_body env name : emits stop_event (StopContainer_body env name).
Proof.
  unfold StopContainer_body.
  repeat match goal with
         | |- emits _ (release_stopped _) => apply emits_release_stopped
         | _ => emits_step
         end.
Qed.

Lemma post_with_ContainerAPILock {A} name (body : M St A) w (Q : A -> St -> Prop) :
  post body (w_st w) Q ->
  post (with_ContainerAPILock name body) w (fun a w' => Q a (w_st w')).
Proof.
  unfold post, with_ContainerAPILock.
  destruct (Lock name (ContainerAPILock w)); [|exact (fun _ => I)].
  destruct (body (w_st w)) as [[a st']| |]; [|exact (fun _ => I)|exact (fun _ => I)].
  destruct (Unlock name m); [|exact (fun _ => I)]. exact id.
Qed.

(** X9.  The two methods keep to their own calls.  [StopContainer]
    builds a client, lists, stops and waits, and nothing else: it never
    creates, starts, removes, inspects or pulls.  [LaunchContainer]
    never stops a container nor waits for one, never dials and never
    reads the clock.  Both only ever add to the record of calls. *)
Theorem methods_keep_to_their_calls (env : Env) (app : Service) (name : string) (w : World) :
  post (LaunchContainer env app) w (fun _ w' =>
    exists new, trace (w_st w') = new ++ trace (w_st w) /\
                forallb launch_event new = true) /\
  post (StopContainer env name) w (fun _ w' =>
    exists new, trace (w_st w') = new ++ trace (w_st w) /\
                forallb stop_event new = true).
Proof.
  split.
  - apply (post_with_ContainerAPILock (Name app) (LaunchContainer_body env app) w
             (fun _ st' => exists new, trace st' = new ++ trace (w_st w) /\
                                       forallb launch_event new = true)).
    apply emits_LaunchContainer_body.
  - apply (post_with_ContainerAPILock name (StopContainer_body env name) w
             (fun _ st' => exists new, trace st' = new ++ trace (w_st w) /\
                                       forallb stop_event new = true)).
    apply emits_StopContainer_body.
Qed.

(** ** [StopContainer]: failures and what a success does *)

Lemma post_release_stopped name st :
  post (release_stopped name) st (fun _ st' =>
    trace st' = trace st /\
    match configured name (srv st) with
    | None => srv st' = srv st
    | Some service => exists r, ResourceRequest service = Some r /\
                                srv st' = release r (srv st)
    end).
Proof.
  unfold release_stopped, configured. apply post_bind, post_get_srv.
  destruct (List.find _ _) as [service|].
  - destruct (ResourceRequest service) as [r|]; [|apply post_panic].
    unfold post; simpl. split; [reflexivity|]. exists r. split; reflexivity.
  - unfold post; simpl. split; reflexivity.
Qed.

(** What [StopContainer] has done when it returns, by its result. *)
Lemma StopContainer_body_cases env name st :
  post (StopContainer_body env name) st (fun err st' =>
    match err with
    | Some _ => srv st' = srv st
    | None =>
        exists l cont,
          ContainerList env (EvNewClient :: trace st) (containerName name) = Ok l /\
          searchlist l (containerName name) = Some cont /\
          trace st' = EvContainerWait (c_ID cont) :: EvContainerStop (c_ID cont)
                      :: EvContainerList (containerName name) :: EvNewClient :: trace st /\
          match configured name (srv st) with
          | None => srv st' = srv st
          | Some service => exists r, ResourceRequest service = Some r /\
                                      srv st' = release r (srv st)
          end
    end).
Proof.
  unfold StopContainer_body. apply post_bind, post_get_srv.
  destruct (match ServiceConnCount (srv st) !! name with
            | Some count => count >? 0
            | None => false
            end); [unfold post; simpl; reflexivity|].
  apply post_bind, post_call.
  destruct (NewClientWithOpts env (trace st)); [unfold post; simpl; reflexivity|].
  apply post_bind, post_call. cbn [trace srv].
  destruct (ContainerList env (EvNewClient :: trace st) (containerName name))
    as [l|e] eqn:Hl; [|unfold post; simpl; reflexivity].
  destruct (searchlist l (containerName name)) as [cont|] eqn:Hc;
    [|unfold post; simpl; reflexivity].
  apply post_bind, post_call. cbn [trace srv].
  match goal with |- context [ContainerStop env ?h ?n] =>
    destruct (ContainerStop env h n) end; [unfold post; simpl; reflexivity|].
  apply post_bind, post_call. cbn [trace srv].
  match goal with |- context [ContainerWait env ?h ?n] =>
    destruct (ContainerWait env h n) end; [unfold post; simpl; reflexivity|].
  apply post_bind. eapply post_mono; [apply post_release_stopped|].
  intros [] st' [Htr Hsrv]. cbn [trace srv] in Htr, Hsrv.
  unfold post; simpl. exists l, cont. repeat split; assumption.
Qed.

(** X10.  A call of [StopContainer] that returns an error has changed
    nothing in the server: not the ledger, not a connection count, not
    a deadline, not the port map.  This holds for every error: live
    connections, no client, a failed listing, no such container, a
    failed stop and a failed wait. *)
Theorem StopContainer_error_changes_nothing (env : Env) (name : string) (w : World) :
  post (StopContainer env name) w (fun err w' =>
    err <> None -> srv (w_st w') = srv (w_st w)).
Proof.
  apply (post_with_ContainerAPILock name (StopContainer_body env name) w
           (fun err st' => err <> None -> srv st' = srv (w_st w))).
  eapply post_mono; [apply StopContainer_body_cases|].
  intros [e|] st' Hcase Hne; [exact Hcase|congruence].
Qed.

(** X11.  A successful [StopContainer] has made exactly four calls, in
    this order: it built a client, listed the containers filtered by
    the container name of the service, stopped the first listed
    container that carries that name and waited for it.  After them it
    gave back the request of the first configured service of that name;
    when no service of that name is configured the server is unchanged.
    The ledger is given back whether or not this process ever reserved
    for the container. *)
Theorem StopContainer_success_effects (env : Env) (name : string) (w : World) :
  post (StopContainer env name) w (fun err w' =>
    err = None ->
    exists l cont,
      ContainerList env (EvNewClient :: trace (w_st w)) (containerName name) = Ok l /\
      searchlist l (containerName name) = Some cont /\
      trace (w_st w') = EvContainerWait (c_ID cont) :: EvContainerStop (c_ID cont)
                        :: EvContainerList (containerName name) :: EvNewClient
                        :: trace (w_st w) /\
      match configured name (srv (w_st w)) with
      | None => srv (w_st w') = srv (w_st w)
      | Some service => exists r, ResourceRequest service = Some r /\
                                  srv (w_st w') = release r (srv (w_st w))
      end).
Proof.
  apply (post_with_ContainerAPILock name (StopContainer_body env name) w
           (fun err st' => err = None ->
              exists l cont,
                ContainerList env (EvNewClient :: trace (w_st w)) (containerName name) = Ok l /\
                searchlist l (containerName name) = Some cont /\
                trace st' = EvContainerWait (c_ID cont) :: EvContainerStop (c_ID cont)
                            :: EvContainerList (containerName name) :: EvNewClient
                            :: trace (w_st w) /\
                match configured name (srv (w_st w)) with
                | None => srv st' = srv (w_st w)
                | Some service => exists r, ResourceRequest service = Some r /\
                                            srv st' = release r (srv (w_st w))
                end)).
  eapply post_mono; [apply StopContainer_body_cases|].
  intros [e|] st' Hcase Heq; [discriminate|exact Hcase].
Qed.

(** ** [LaunchContainer]: admission, reservation and the ledger *)

Lemma extends_refl ok h : extends ok h h.
Proof. exists []. split; reflexivity. Qed.

Lemma extends_trans ok h1 h2 h3 : extends ok h1 h2 -> extends ok h2 h3 -> extends ok h1 h3.
Proof.
  intros (n1 & -> & H1) (n2 & -> & H2). exists (n2 ++ n1). split.
  - apply app_assoc.
  - rewrite forallb_app, H1, H2. reflexivity.
Qed.

Lemma extends_cons ok ev h h' : ok ev = true -> extends ok h h' -> extends ok h (ev :: h').
Proof.
  intros Hev (n & -> & Hn). exists (ev :: n). split; [reflexivity|].
  cbn. rewrite Hev, Hn. reflexivity.
Qed.

Lemma post_emits {A} ok (m : M St A) st :
  emits ok m -> post m st (fun _ st' => extends ok (trace st) (trace st')).
Proof. intros Hm. apply Hm. Qed.

(** The three things the theorems below follow through a piece of
    [LaunchContainer] that does not touch the ledger. *)
Lemma post_frame {A} ok (m : M St A) st :
  preserves same_tracked m -> preserves same_conn_kill m -> emits ok m ->
  post m st (fun _ st' =>
    TrackedResources (srv st') = TrackedResources (srv st) /\
    Config (srv st') = Config (srv st) /\
    extends ok (trace st) (trace st')).
Proof.
  intros Ht Hc He. eapply post_mono.
  - apply post_and; [apply (post_preserves same_tracked), Ht|].
    apply post_and; [apply (post_preserves same_conn_kill), Hc|apply post_emits, He].
  - intros a st' (H1 & (_ & _ & H2) & H3). auto.
Qed.

Lemma emits_launch_create_not_start env app : emits not_start_event (launch_create env app).
Proof.
  apply emits_launch_create; [reflexivity|reflexivity|reflexivity|].
  apply emits_pull_image; reflexivity.
Qed.

Lemma launch_start_rejected env app contID r e st :
  ResourceRequest app = Some r -> admission_check r (srv st) = Some e ->
  launch_start env app contID st = Ret (Some e, st).
Proof.
  intros Hr Ha. unfold launch_start. rewrite Hr. unfold bind, get_srv. rewrite Ha.
  reflexivity.
Qed.

Lemma admission_check_same r s s' :
  TrackedResources s' = TrackedResources s -> Config s' = Config s ->
  admission_check r s' = admission_check r s.
Proof. intros Ht Hc. unfold admission_check. rewrite Ht, Hc. reflexivity. Qed.

Lemma launch_main_rejected env app cont r e st :
  ResourceRequest app = Some r -> admission_check r (srv st) = Some e ->
  (forall c, cont = Some c -> c_State c <> "running") ->
  post (launch_main env app cont) st (fun '(err, _) st' =>
    err <> None /\
    TrackedResources (srv st') = TrackedResources (srv st) /\
    extends not_start_event (trace st) (trace st')).
Proof.
  intros Hr Ha Hstate. unfold launch_main. destruct cont as [c|].
  - rewrite bool_decide_eq_false_2 by (apply Hstate; reflexivity).
    unfold post, bind. rewrite (launch_start_rejected env app _ r e st Hr Ha). cbn.
    split; [discriminate|]. split; [reflexivity|apply extends_refl].
  - apply post_bind. eapply post_mono.
    { apply (post_frame not_start_event).
      - frame_by preserves_launch_create.
      - frame_by preserves_launch_create.
      - apply emits_launch_create_not_start. }
    intros [err contID] st1 (Ht & Hc & He). destruct err as [e1|].
    + unfold post; simpl. split; [discriminate|]. split; assumption.
    + unfold post, bind. rewrite (launch_start_rejected env app contID r e st1 Hr).
      * cbn. split; [discriminate|]. split; assumption.
      * rewrite (admission_check_same r (srv st) (srv st1)); assumption.
Qed.

Lemma LaunchContainer_body_rejected env app r e st :
  ResourceRequest app = Some r -> admission_check r (srv st) = Some e ->
  post (LaunchContainer_body env app) st (fun err st' =>
    TrackedResources (srv st') = TrackedResources (srv st) /\
    extends not_start_event (trace st) (trace st') /\
    (err = None -> reported_running env app (trace st))).
Proof.
  intros Hr Ha. unfold LaunchContainer_body.
  apply post_bind, post_call.
  destruct (NewClientWithOpts env (trace st)) eqn:Hclient; [apply post_panic|].
  apply post_bind, post_call. cbn [trace srv].
  destruct (ContainerList env (EvNewClient :: trace st) (containerName (Name app)))
    as [l|e0] eqn:Hl.
  2:{ unfold post; simpl. split; [reflexivity|]. split; [|discriminate].
      do 2 (apply extends_cons; [reflexivity|]). apply extends_refl. }
  set (st1 := {| srv := srv st;
                 trace := EvContainerList (containerName (Name app)) :: EvNewClient
                          :: trace st |}).
  assert (H01 : extends not_start_event (trace st) (trace st1)).
  { do 2 (apply extends_cons; [reflexivity|]). apply extends_refl. }
  assert (Hmain : forall cont st2,
            srv st2 = srv st -> extends not_start_event (trace st) (trace st2) ->
            (forall c, cont = Some c -> c_State c <> "running") ->
            post (bind (launch_main env app cont)
                       (fun '(err, contID) => hydrate_ports env app contID err)) st2
                 (fun err st' =>
                    TrackedResources (srv st') = TrackedResources (srv st) /\
                    extends not_start_event (trace st) (trace st') /\
                    (err = None -> reported_running env app (trace st)))).
  { intros cont st2 Hsrv Hext Hstate. apply post_bind. eapply post_mono.
    { apply (launch_main_rejected env app cont r e st2 Hr);
        [rewrite Hsrv; exact Ha|exact Hstate]. }
    intros [err contID] st3 (Hne & Ht & He).
    destruct err as [e1|]; [|congruence].
    unfold post; simpl. split; [rewrite Ht, Hsrv; reflexivity|].
    split; [exact (extends_trans _ _ _ _ Hext He)|discriminate]. }
  apply post_bind. unfold validate_image.
  destruct (searchlist l (containerName (Name app))) as [c|] eqn:Hs.
  - destruct (bool_decide (c_Image c = Image app)) eqn:Himg.
    + apply bool_decide_eq_true_1 in Himg. apply post_ret.
      destruct (bool_decide (c_State c = "running")) eqn:Hrun.
      * apply bool_decide_eq_true_1 in Hrun. unfold launch_main.
        rewrite bool_decide_eq_true_2 by exact Hrun.
        apply post_bind, post_ret. eapply post_mono.
        { apply (post_frame not_start_event).
          - frame_by preserves_hydrate_ports.
          - frame_by preserves_hydrate_ports.
          - apply emits_hydrate_ports. reflexivity. }
        intros err st' (Ht & _ & He). split; [exact Ht|].
        split; [exact (extends_trans _ _ _ _ H01 He)|]. intros _.
        split; [exact Hclient|]. exists l, c. auto.
      * apply bool_decide_eq_false_1 in Hrun.
        apply (Hmain (Some c) st1); [reflexivity|exact H01|].
        intros c' Heq. inversion Heq; subst. exact Hrun.
    + apply post_bind, post_call. cbn [trace srv].
      match goal with |- context [ContainerRemove env ?h ?n] =>
        destruct (ContainerRemove env h n) end.
      * unfold post; simpl. split; [reflexivity|]. split; [|discriminate].
        apply extends_cons; [reflexivity|exact H01].
      * apply post_ret. apply Hmain; [reflexivity| |discriminate].
        apply extends_cons; [reflexivity|exact H01].
  - apply post_ret. apply (Hmain None st1); [reflexivity|exact H01|discriminate].
Qed.

(** X12.  A launch whose request does not pass the admission test
    starts nothing and reserves nothing: [LaunchContainer] issues no
    [ContainerStart] and leaves [TrackedResources] as it was.  It
    returns an error, unless the runtime listed the container of the
    service as running with the configured image: that container is
    taken over without any admission test. *)
Theorem LaunchContainer_rejected_starts_nothing
        (env : Env) (app : Service) (r : Resources) (e : error) (w : World) :
  ResourceRequest app = Some r ->
  admission_check r (srv (w_st w)) = Some e ->
  post (LaunchContainer env app) w (fun err w' =>
    TrackedResources (srv (w_st w')) = TrackedResources (srv (w_st w)) /\
    extends not_start_event (trace (w_st w)) (trace (w_st w')) /\
    (err = None -> reported_running env app (trace (w_st w)))).
Proof.
  intros Hr Ha.
  apply (post_with_ContainerAPILock (Name app) (LaunchContainer_body env app) w
           (fun err st' =>
              TrackedResources (srv st') = TrackedResources (srv (w_st w)) /\
              extends not_start_event (trace (w_st w)) (trace st') /\
              (err = None -> reported_running env app (trace (w_st w))))).
  apply LaunchContainer_body_rejected with (r := r) (e := e); assumption.
Qed.

Lemma LaunchContainer_rejected_starts_nothing_witness :
  exists e w',
    LaunchContainer env_absent web world_full = Ret (Some e, w') /\
    TrackedResources (srv (w_st w')) = MkResources 3000 0 0 /\
    extends not_start_event [] (trace (w_st w')).
Proof.
  destruct (LaunchContainer env_absent web world_full) as [[[e|] w']| |] eqn:E;
    try (vm_compute in E; discriminate).
  exists e, w'. split; [reflexivity|].
  pose proof (LaunchContainer_rejected_starts_nothing env_absent web
                (MkResources 3000 8 0) "not enough cpu resources to launch container"
                world_full eq_refl eq_refl) as H.
  unfold post in H. rewrite E in H. destruct H as (H1 & H2 & _).
  split; [exact H1|exact H2].
Defined.

Lemma launch_main_started env app cont st :
  wf_ledger (srv st) ->
  (forall c, cont = Some c -> c_State c <> "running") ->
  post (launch_main env app cont) st (fun '(err, _) st' =>
    match err with
    | Some _ => TrackedResources (srv st') = TrackedResources (srv st)
    | None => exists r, ResourceRequest app = Some r /\
                        admission_check r (srv st) = None /\
                        TrackedResources (srv st') = TrackedResources (reserve r (srv st))
    end).
Proof.
  intros Hwf Hstate. unfold launch_main. destruct cont as [c|].
  - rewrite bool_decide_eq_false_2 by (apply Hstate; reflexivity).
    apply post_bind. eapply post_mono; [apply launch_start_ledger, Hwf|].
    intros err st1 (_ & Hres). unfold post; simpl. exact Hres.
  - apply post_bind. eapply post_mono.
    { apply (post_frame (fun _ => true)).
      - frame_by preserves_launch_create.
      - frame_by preserves_launch_create.
      - apply (emits_weaken not_start_event); [reflexivity|].
        apply emits_launch_create_not_start. }
    intros [err contID] st1 (Htr & Hcfg & _).
    destruct err as [e|]; [unfold post; simpl; exact Htr|].
    apply post_bind. eapply post_mono.
    { apply launch_start_ledger. unfold wf_ledger. rewrite Htr. exact Hwf. }
    intros err st2 (_ & Hres). unfold post; simpl.
    destruct err as [e|]; [congruence|].
    destruct Hres as (r & Hr & Hadm & Htr2). exists r. split; [exact Hr|]. split.
    + rewrite <- (admission_check_same r (srv st) (srv st1)); assumption.
    + rewrite Htr2. unfold reserve. cbn. rewrite Htr. reflexivity.
Qed.

(** A successful launch that had to start the container has reserved
    the request of the service, once, after it passed the admission
    test. *)
Lemma LaunchContainer_body_started env app st :
  wf_ledger (srv st) -> not_running env app (trace st) ->
  post (LaunchContainer_body env app) st (fun err st' =>
    err = None ->
    exists r, ResourceRequest app = Some r /\
              admission_check r (srv st) = None /\
              TrackedResources (srv st') = TrackedResources (reserve r (srv st))).
Proof.
  intros Hwf Hnot. unfold LaunchContainer_body.
  apply post_bind, post_call.
  destruct (NewClientWithOpts env (trace st)); [apply post_panic|].
  apply post_bind, post_call. cbn [trace srv].
  destruct (ContainerList env (EvNewClient :: trace st) (containerName (Name app)))
    as [l|e0] eqn:Hl; [|unfold post; simpl; discriminate].
  assert (Hmain : forall cont st2,
            srv st2 = srv st ->
            (forall c, cont = Some c -> c_State c <> "running") ->
            post (bind (launch_main env app cont)
                       (fun '(err, contID) => hydrate_ports env app contID err)) st2
                 (fun err st' =>
                    err = None ->
                    exists r, ResourceRequest app = Some r /\
                              admission_check r (srv st) = None /\
                              TrackedResources (srv st')
                              = TrackedResources (reserve r (srv st)))).
  { intros cont st2 Hsrv Hstate. apply post_bind. eapply post_mono.
    { apply (launch_main_started env app cont st2); [rewrite Hsrv; exact Hwf|exact Hstate]. }
    intros [err contID] st3 Hres. eapply post_mono; [apply hydrate_ports_spec|].
    intros err' st4 (Htr & Hnone & _) Herr'. destruct (Hnone Herr') as [-> _].
    rewrite Hsrv in Hres. destruct Hres as (r & Hr & Hadm & Htr3).
    exists r. split; [exact Hr|]. split; [exact Hadm|].
    unfold same_tracked in Htr. rewrite Htr. exact Htr3. }
  apply post_bind. unfold validate_image.
  destruct (searchlist l (containerName (Name app))) as [c|] eqn:Hs.
  - destruct (bool_decide (c_Image c = Image app)) eqn:Himg.
    + apply bool_decide_eq_true_1 in Himg. apply post_ret.
      apply Hmain; [reflexivity|].
      intros c' Heq. inversion Heq; subst. exact (Hnot l c' Hl Hs Himg).
    + apply post_bind, post_call. cbn [trace srv].
      match goal with |- context [ContainerRemove env ?h ?n] =>
        destruct (ContainerRemove env h n) end; [unfold post; simpl; discriminate|].
      apply post_ret. apply Hmain; [reflexivity|discriminate].
  - apply post_ret. apply Hmain; [reflexivity|discriminate].
Qed.

Lemma release_tracked r s s' :
  TrackedResources s' = TrackedResources s ->
  TrackedResources (release r s') = TrackedResources (release r s).
Proof. intros Ht. unfold release. cbn. rewrite Ht. reflexivity. Qed.

Lemma configured_same name s s' : Config s' = Config s -> configured name s' = configured name s.
Proof. intros Hc. unfold configured. rewrite Hc. reflexivity. Qed.

(** The ledger after a successful [StopContainer] of a configured
    service, from the state before. *)
Lemma StopContainer_body_released env app r st st' :
  configured (Name app) (srv st) = Some app -> ResourceRequest app = Some r ->
  StopContainer_body env (Name app) st = Ret (None, st') ->
  srv st' = release r (srv st).
Proof.
  intros Hcfg Hr Hstop.
  pose proof (post_inv _ _ _ _ _ (StopContainer_body_cases env (Name app) st) Hstop)
    as (_ & _ & _ & _ & _ & Hrel).
  rewrite Hcfg in Hrel. destruct Hrel as (r' & Hr' & Hsrv). congruence.
Qed.

(** X13.  Launch and stop balance in the ledger.  When
    [LaunchContainer] had to start the container (the runtime did not
    list it as running) and succeeds, and a following [StopContainer]
    of the same service succeeds, [TrackedResources] is again what it
    was before the launch, provided the service is the configured one
    of its name. *)
Theorem LaunchContainer_then_StopContainer_restores_ledger
        (env : Env) (app : Service) (w w1 w2 : World) :
  wf_ledger (srv (w_st w)) ->
  configured (Name app) (srv (w_st w)) = Some app ->
  not_running env app (trace (w_st w)) ->
  LaunchContainer env app w = Ret (None, w1) ->
  StopContainer env (Name app) w1 = Ret (None, w2) ->
  TrackedResources (srv (w_st w2)) = TrackedResources (srv (w_st w)).
Proof.
  intros Hwf Hcfg Hnot Hlaunch Hstop.
  apply with_ContainerAPILock_inv in Hlaunch, Hstop.
  destruct (post_inv _ _ _ _ _ (LaunchContainer_body_started env app (w_st w) Hwf Hnot)
              Hlaunch eq_refl) as (r & Hr & _ & Htr).
  pose proof (post_inv _ _ _ _ _ (LaunchContainer_body_same_conn_kill env app (w_st w))
                Hlaunch) as (_ & _ & Hconfig).
  rewrite (StopContainer_body_released env app r (w_st w1) (w_st w2)); [| |exact Hr|exact Hstop].
  - rewrite (release_tracked r (reserve r (srv (w_st w))) (srv (w_st w1)) Htr).
    apply release_reserve, Hwf.
  - rewrite (configured_same _ _ _ Hconfig). exact Hcfg.
Qed.

Lemma LaunchContainer_then_StopContainer_restores_ledger_witness :
  exists w1 w2,
    LaunchContainer env_lifecycle web world0 = Ret (None, w1) /\
    StopContainer env_lifecycle "web" w1 = Ret (None, w2) /\
    TrackedResources (srv (w_st w1)) = MkResources 3000 8 0 /\
    TrackedResources (srv (w_st w2)) = MkResources 0 0 0.
Proof.
  eexists. eexists.
  split; [vm_compute; reflexivity|]. split; [vm_compute; reflexivity|].
  split; [reflexivity|].
  eapply (LaunchContainer_then_StopContainer_restores_ledger env_lifecycle web world0).
  - repeat split; vm_compute; intuition discriminate.
  - reflexivity.
  - intros l c Hl Hs. vm_compute in Hl. inversion Hl; subst. discriminate.
  - vm_compute. reflexivity.
  - vm_compute. reflexivity.
Defined.

(** X14.  Stopping gives back what was never reserved.  When the
    runtime lists the container of the service as running,
    [LaunchContainer] takes it over without reserving; a following
    successful [StopContainer] still subtracts the request of the
    service, so the ledger ends below where it started. *)
Theorem adopted_container_stop_releases_unreserved
        (env : Env) (app : Service) (r : Resources) (w w1 w2 : World) :
  reported_running env app (trace (w_st w)) ->
  configured (Name app) (srv (w_st w)) = Some app ->
  ResourceRequest app = Some r ->
  LaunchContainer env app w = Ret (None, w1) ->
  StopContainer env (Name app) w1 = Ret (None, w2) ->
  TrackedResources (srv (w_st w1)) = TrackedResources (srv (w_st w)) /\
  TrackedResources (srv (w_st w2)) = TrackedResources (release r (srv (w_st w))).
Proof.
  intros Hrun Hcfg Hr Hlaunch Hstop.
  apply with_ContainerAPILock_inv in Hlaunch, Hstop.
  destruct (LaunchContainer_body_running_ledger env app (w_st w) Hrun) as [Hsame _].
  pose proof (post_inv _ _ _ _ _ Hsame Hlaunch) as Htr. cbn beta in Htr.
  pose proof (post_inv _ _ _ _ _ (LaunchContainer_body_same_conn_kill env app (w_st w))
                Hlaunch) as (_ & _ & Hconfig).
  split; [exact Htr|].
  rewrite (StopContainer_body_released env app r (w_st w1) (w_st w2)); [| |exact Hr|exact Hstop].
  - apply release_tracked, Htr.
  - rewrite (configured_same _ _ _ Hconfig). exact Hcfg.
Qed.

Lemma adopted_container_stop_releases_unreserved_witness :
  exists w1 w2,
    LaunchContainer env_running web world0 = Ret (None, w1) /\
    StopContainer env_running "web" w1 = Ret (None, w2) /\
    TrackedResources (srv (w_st world0)) = MkResources 0 0 0 /\
    TrackedResources (srv (w_st w2)) = MkResources (-3000) (-8) 0.
Proof.
  eexists. eexists.
  split; [vm_compute; reflexivity|]. split; [vm_compute; reflexivity|].
  split; [reflexivity|].
  eapply (adopted_container_stop_releases_unreserved env_running web
            (MkResources 3000 8 0) world0).
  - apply env_running_reported.
  - reflexivity.
  - reflexivity.
  - vm_compute. reflexivity.
  - vm_compute. reflexivity.
Defined.

(** Whatever a launch returns, the ledger is what it was or holds one
    more admitted reservation. *)
Lemma LaunchContainer_body_ledger env app st :
  wf_ledger (srv st) ->
  post (LaunchContainer_body env app) st (fun _ st' =>
    Config (srv st') = Config (srv st) /\
    (TrackedResources (srv st') = TrackedResources (srv st) \/
     exists r, admission_check r (srv st) = None /\
               TrackedResources (srv st') = TrackedResources (reserve r (srv st)))).
Proof.
  intros Hwf. unfold LaunchContainer_body.
  apply post_bind, post_call.
  destruct (NewClientWithOpts env (trace st)); [apply post_panic|].
  apply post_bind, post_call. cbn [trace srv].
  match goal with |- context [ContainerList env ?h ?n] =>
    destruct (ContainerList env h n) as [l|e0] end;
    [|unfold post; simpl; split; [reflexivity|left; reflexivity]].
  apply post_bind. eapply post_mono.
  { apply (post_frame (fun _ => true) (validate_image env app (searchlist l _))).
    - frame_by preserves_validate_image.
    - frame_by preserves_validate_image.
    - apply emits_validate_image. reflexivity. }
  intros v st1 (Htr1 & Hcfg1 & _). cbn [srv] in Htr1, Hcfg1.
  destruct v as [cont|e1]; [|unfold post; simpl; split; [exact Hcfg1|left; exact Htr1]].
  apply post_bind. eapply post_mono.
  { apply launch_main_ledger. unfold wf_ledger. rewrite Htr1. exact Hwf. }
  intros [err contID] st2 (Hcfg2 & Hres).
  eapply post_mono; [apply post_and; [apply hydrate_ports_spec|]|].
  { apply (post_preserves same_conn_kill). frame_by preserves_hydrate_ports. }
  intros err' st3 ((Htr3 & _ & _) & (_ & _ & Hcfg3)). unfold same_tracked in Htr3.
  split; [congruence|]. rewrite Htr3.
  assert (Hopt : TrackedResources (srv st2) = TrackedResources (srv st1) \/
                 exists r, admission_check r (srv st1) = None /\
                           TrackedResources (srv st2) = TrackedResources (reserve r (srv st1))).
  { destruct err; [left; exact Hres|exact Hres]. }
  destruct Hopt as [Hsame|(r & Hadm & Hrsv)]; [left; congruence|right].
  exists r. split.
  - rewrite <- (admission_check_same r (srv st) (srv st1)); assumption.
  - rewrite Hrsv. unfold reserve. cbn. rewrite Htr1. reflexivity.
Qed.

Lemma reserve_wf_ledger r s : wf_ledger (reserve r s).
Proof. unfold wf_ledger, reserve, int_add. cbn. repeat split; apply wrap64_is_int. Qed.


(** X15.  Launches made one at a time keep the limits: from a ledger
    within the configured limits, any sequence of [LaunchContainer]
    calls run one after the other, whatever each of them returns,
    leaves every component of [TrackedResources] at or below its
    limit. *)
Theorem sequential_launches_within_limits (env : Env) (apps : list Service) :
  forall w : World,
    wf_ledger (srv (w_st w)) ->
    within_limits (srv (w_st w)) ->
    post (launch_all env apps) w (fun _ w' => within_limits (srv (w_st w'))).
Proof.
  induction apps as [|app rest IH]; intros w Hwf Hlim; cbn [launch_all].
  - exact Hlim.
  - apply post_bind. eapply post_mono.
    { apply (post_with_ContainerAPILock (Name app) (LaunchContainer_body env app) w).
      apply LaunchContainer_body_ledger, Hwf. }
    intros err w1 (Hcfg & Hopt). apply post_bind.
    assert (Hwf1 : wf_ledger (srv (w_st w1))).
    { destruct Hopt as [Hsame|(r & _ & Hrsv)].
      - unfold wf_ledger. rewrite Hsame. exact Hwf.
      - pose proof (reserve_wf_ledger r (srv (w_st w))) as Hr.
        unfold wf_ledger in *. rewrite Hrsv. exact Hr. }
    assert (Hlim1 : within_limits (srv (w_st w1))).
    { destruct Hopt as [Hsame|(r & Hadm & Hrsv)].
      - unfold within_limits. rewrite Hsame, Hcfg. exact Hlim.
      - pose proof (admission_check_within_limits r (srv (w_st w)) Hadm) as Hr.
        unfold within_limits in *. rewrite Hrsv, Hcfg. exact Hr. }
    eapply post_mono; [apply IH; assumption|].
    intros errs w2 Hlim2. exact Hlim2.
Qed.

Lemma sequential_launches_within_limits_witness :
  exists errs w',
    launch_all env_absent [web; api] world0 = Ret (errs, w') /\
    errs = [None; Some "not enough cpu resources to launch container"] /\
    within_limits (srv (w_st w')).
Proof.
  eexists. eexists. split; [vm_compute; reflexivity|]. split; [reflexivity|].
  pose proof (sequential_launches_within_limits env_absent [web; api] world0) as H.
  unfold post in H.
  match type of H with _ -> _ -> match ?m with _ => _ end =>
    replace m with (launch_all env_absent [web; api] world0) in H by reflexivity end.
  apply H.
  - repeat split; vm_compute; intuition discriminate.
  - repeat split; vm_compute; discriminate.
Defined.

(** X16.  Once the port map has an entry for the service, a failed
    launch costs nothing: whenever [LaunchContainer] returns an error,
    [TrackedResources] is what it was before the call.  With the entry
    present the deferred hydration does nothing, so the error is the
    one the deferred release has seen. *)
Theorem LaunchContainer_error_releases_when_ports_known
        (env : Env) (app : Service) (w : World) :
  wf_ledger (srv (w_st w)) ->
  is_Some (ServiceProxyHostPortMap (srv (w_st w)) !! Name app) ->
  post (LaunchContainer env app) w (fun err w' =>
    err <> None ->
    TrackedResources (srv (w_st w')) = TrackedResources (srv (w_st w))).
Proof.
  intros Hwf Hentry.
  apply (post_with_ContainerAPILock (Name app) (LaunchContainer_body env app) w
           (fun err st' => err <> None ->
              TrackedResources (srv st') = TrackedResources (srv (w_st w)))).
  unfold LaunchContainer_body.
  apply post_bind, post_call.
  destruct (NewClientWithOpts env (trace (w_st w))); [apply post_panic|].
  apply post_bind, post_call. cbn [trace srv].
  match goal with |- context [ContainerList env ?h ?n] =>
    destruct (ContainerList env h n) as [l|e0] end;
    [|unfold post; simpl; reflexivity].
  apply post_bind. eapply post_mono.
  { apply post_and.
    - apply (post_preserves same_tracked (validate_image env app (searchlist l _))).
      frame_by preserves_validate_image.
    - apply (post_preserves (keeps_entry (Name app))
               (validate_image env app (searchlist l _))).
      frame_by preserves_validate_image. }
  intros v st1 (Htr1 & Hkeep1). cbn [srv] in Htr1, Hkeep1. unfold same_tracked in Htr1.
  destruct v as [cont|e1]; [|unfold post; simpl; intros _; exact Htr1].
  apply post_bind. eapply post_mono.
  { apply post_and.
    - apply launch_main_ledger. unfold wf_ledger. rewrite Htr1. exact Hwf.
    - apply (post_preserves (keeps_entry (Name app)) (launch_main env app cont)).
      frame_by preserves_launch_main. }
  intros [err contID] st2 ((_ & Hres) & Hkeep2).
  eapply post_mono; [apply hydrate_ports_spec|].
  intros err' st3 (_ & _ & Hid) Hne.
  destruct Hid as [-> ->]; [left; apply Hkeep2, Hkeep1, Hentry|].
  destruct err as [e|]; [congruence|congruence].
Qed.

Lemma LaunchContainer_error_releases_when_ports_known_witness :
  exists e w',
    LaunchContainer env_running_no_inspect web_next
      {| w_st := st_hydrated; ContainerAPILock := NewMutexMap |} = Ret (Some e, w') /\
    In (EvContainerStart "9c1d") (trace (w_st w')) /\
    TrackedResources (srv (w_st w')) = MkResources 0 0 0.
Proof.
  eexists. eexists. split; [vm_compute; reflexivity|]. split; [cbn; tauto|].
  pose proof (LaunchContainer_error_releases_when_ports_known env_running_no_inspect web_next
                {| w_st := st_hydrated; ContainerAPILock := NewMutexMap |}) as H.
  unfold post in H.
  match type of H with _ -> _ -> match ?m with _ => _ end =>
    let v := eval vm_compute in m in change m with v in H end.
  apply H.
  - repeat split; vm_compute; intuition discriminate.
  - eexists. reflexivity.
  - discriminate.
Defined.

(** ** [LaunchContainer]: the readiness poll *)

Lemma inspect_history_S contID h j :
  inspect_history contID (EvContainerInspect contID :: h) j
  = inspect_history contID h (S j).
Proof. unfold inspect_history. apply replicate_snoc_cons. Qed.

Lemma wait_running_step_starting env n contID st c :
  ContainerInspect env (trace st) contID = Ok c -> starting c = true ->
  wait_running env (S n) contID st
  = wait_running env n contID {| srv := srv st; trace := EvContainerInspect contID :: trace st |}.
Proof.
  intros Hc Hs. cbn [wait_running]. unfold bind at 1, call at 1. rewrite Hc.
  unfold starting in Hs. apply andb_true_iff in Hs as [Hstatus Hnot].
  rewrite Hstatus. cbn [negb].
  destruct (bool_decide (default "none" (st_Health c) = "none")).
  - destruct (st_Running c); [discriminate|reflexivity].
  - destruct (bool_decide (default "none" (st_Health c) = "healthy"));
      [discriminate|reflexivity].
Qed.

Lemma wait_running_step_ready env n contID st c :
  ContainerInspect env (trace st) contID = Ok c -> ready c = true ->
  wait_running env (S n) contID st
  = Ret (None, {| srv := srv st; trace := EvContainerInspect contID :: trace st |}).
Proof.
  intros Hc Hr. cbn [wait_running]. unfold bind at 1, call at 1. rewrite Hc.
  unfold ready in Hr. apply andb_true_iff in Hr as [Hstatus Hok].
  rewrite Hstatus. cbn [negb].
  destruct (bool_decide (default "none" (st_Health c) = "none")).
  - rewrite Hok. reflexivity.
  - rewrite Hok. reflexivity.
Qed.

Lemma wait_running_timeout env contID : forall n st,
  (forall j, (j < n)%nat -> exists c,
     ContainerInspect env (inspect_history contID (trace st) j) contID = Ok c /\
     starting c = true) ->
  wait_running env n contID st
  = Ret (Some "container did not start in time"%string,
         {| srv := srv st; trace := inspect_history contID (trace st) n |}).
Proof.
  induction n as [|n IH]; intros st Hall.
  - destruct st; reflexivity.
  - destruct (Hall 0%nat ltac:(lia)) as (c & Hc & Hs).
    rewrite (wait_running_step_starting env n contID st c Hc Hs).
    rewrite IH; cbn [srv trace].
    + rewrite inspect_history_S. reflexivity.
    + intros j Hj. rewrite inspect_history_S. apply Hall. lia.
Qed.

Lemma wait_running_first_ready env contID : forall k n st,
  (k < n)%nat ->
  (forall j, (j < k)%nat -> exists c,
     ContainerInspect env (inspect_history contID (trace st) j) contID = Ok c /\
     starting c = true) ->
  (exists c, ContainerInspect env (inspect_history contID (trace st) k) contID = Ok c /\
             ready c = true) ->
  wait_running env n contID st
  = Ret (None, {| srv := srv st; trace := inspect_history contID (trace st) (S k) |}).
Proof.
  induction k as [|k IH]; intros n st Hlt Hall Hready.
  - destruct n as [|n]; [lia|]. destruct Hready as (c & Hc & Hr).
    exact (wait_running_step_ready env n contID st c Hc Hr).
  - destruct n as [|n]; [lia|].
    destruct (Hall 0%nat ltac:(lia)) as (c & Hc & Hs).
    rewrite (wait_running_step_starting env n contID st c Hc Hs).
    rewrite (IH n); cbn [srv trace].
    + rewrite inspect_history_S. reflexivity.
    + lia.
    + intros j Hj. rewrite inspect_history_S. apply Hall. lia.
    + rewrite inspect_history_S. exact Hready.
Qed.

(** X17.  The readiness poll of [LaunchContainer], run with a budget
    of [n] inspections (the code runs it with 100).  While the runtime
    reports the container in status "running" but not yet running
    without health check or healthy, the loop asks again.  It returns
    success at the first inspection that finds the container ready,
    after exactly that many inspections; when the first [n]
    inspections all find it still starting, it returns "container did
    not start in time" after exactly [n] inspections.  Nothing but the
    record of calls changes. *)
Theorem wait_running_polls (env : Env) (contID : string) (n : nat) (st : St) :
  (forall k,
     (k < n)%nat ->
     (forall j, (j < k)%nat -> exists c,
        ContainerInspect env (inspect_history contID (trace st) j) contID = Ok c /\
        starting c = true) ->
     (exists c,
        ContainerInspect env (inspect_history contID (trace st) k) contID = Ok c /\
        ready c = true) ->
     wait_running env n contID st
     = Ret (None, {| srv := srv st; trace := inspect_history contID (trace st) (S k) |})) /\
  ((forall j, (j < n)%nat -> exists c,
      ContainerInspect env (inspect_history contID (trace st) j) contID = Ok c /\
      starting c = true) ->
   wait_running env n contID st
   = Ret (Some "container did not start in time"%string,
          {| srv := srv st; trace := inspect_history contID (trace st) n |})).
Proof.
  split.
  - intros k. apply wait_running_first_ready.
  - apply wait_running_timeout.
Qed.

Lemma wait_running_polls_witness :
  wait_running env_running 100 "4f2a" st0
  = Ret (None, {| srv := server0; trace := [EvContainerInspect "4f2a"] |}) /\
  wait_running env_starting 100 "4f2a" st0
  = Ret (Some "container did not start in time"%string,
         {| srv := server0; trace := replicate 100 (EvContainerInspect "4f2a") |}).
Proof.
  split.
  - apply (proj1 (wait_running_polls env_running "4f2a" 100 st0) 0%nat).
    + lia.
    + intros j Hj. lia.
    + eexists. split; reflexivity.
  - rewrite (proj2 (wait_running_polls env_starting "4f2a" 100 st0)).
    + unfold inspect_history. rewrite app_nil_r. reflexivity.
    + intros j _. eexists. split; reflexivity.
Defined.

(** ** [LaunchContainer]: pulling and removing *)




Lemma emits_rest_not_remove env app cont :
  emits not_remove_event
    (bind (launch_main env app cont)
          (fun '(err, contID) => hydrate_ports env app contID err)).
Proof.
  apply emits_bind.
  - apply emits_launch_main; try reflexivity. apply emits_pull_image; reflexivity.
  - intros [err contID]. apply emits_hydrate_ports. reflexivity.
Qed.

(** X19.  [LaunchContainer] removes at most one container, and only
    one that is in the way: a removal is always of the first listed
    container that carries the container name of the service, and that
    container was created from another image than the configured one.
    A container of the configured image is never removed. *)
Theorem LaunchContainer_removes_only_other_image (env : Env) (app : Service) (w : World) :
  post (LaunchContainer env app) w (fun _ w' =>
    exists new,
      trace (w_st w') = new ++ trace (w_st w) /\
      (forall id, In (EvContainerRemove id) new ->
         exists l c,
           ContainerList env (EvNewClient :: trace (w_st w)) (containerName (Name app)) = Ok l /\
           searchlist l (containerName (Name app)) = Some c /\
           c_ID c = id /\ c_Image c <> Image app) /\
      (length (List.filter is_remove_event new) <= 1)%nat).
Proof.
  apply (post_with_ContainerAPILock (Name app) (LaunchContainer_body env app) w
           (fun _ st' =>
              exists new,
                trace st' = new ++ trace (w_st w) /\
                (forall id, In (EvContainerRemove id) new ->
                   exists l c,
                     ContainerList env (EvNewClient :: trace (w_st w))
                       (containerName (Name app)) = Ok l /\
                     searchlist l (containerName (Name app)) = Some c /\
                     c_ID c = id /\ c_Image c <> Image app) /\
                (length (List.filter is_remove_event new) <= 1)%nat)).
  set (st := w_st w).
  match goal with |- post _ _ ?Q => set (P := Q) end.
  assert (Hnone : forall new : list Event,
            forallb not_remove_event new = true ->
            List.filter is_remove_event new = [] /\
            forall id, ~ In (EvContainerRemove id) new).
  { intros new Hok. rewrite forallb_forall in Hok. split.
    - induction new as [|ev new IH]; [reflexivity|]. cbn.
      pose proof (Hok ev (or_introl eq_refl)) as Hev. unfold not_remove_event in Hev.
      destruct (is_remove_event ev); [discriminate|].
      apply IH. intros x Hx. apply Hok. right. exact Hx.
    - intros id Hin. apply Hok in Hin. discriminate. }
  assert (Hrest : forall cont st2 pre,
            trace st2 = pre ++ trace st ->
            forallb not_remove_event pre = true ->
            post (bind (launch_main env app cont)
                       (fun '(err, contID) => hydrate_ports env app contID err)) st2 P).
  { intros cont st2 pre Hpre Hok. eapply post_mono; [apply emits_rest_not_remove|].
    intros err st' (new & Hnew & Hoknew). exists (new ++ pre). split.
    - rewrite Hnew, Hpre. apply app_assoc.
    - assert (Hall : forallb not_remove_event (new ++ pre) = true)
        by (rewrite forallb_app, Hoknew, Hok; reflexivity).
      destruct (Hnone _ Hall) as [Hf Hnin]. split.
      + intros id Hin. destruct (Hnin id Hin).
      + rewrite Hf. cbn. lia. }
  unfold LaunchContainer_body.
  apply post_bind, post_call.
  destruct (NewClientWithOpts env (trace st)); [apply post_panic|].
  apply post_bind, post_call. cbn [trace srv].
  destruct (ContainerList env (EvNewClient :: trace st) (containerName (Name app)))
    as [l|e0] eqn:Hl.
  2:{ unfold post; simpl.
      exists [EvContainerList (containerName (Name app)); EvNewClient].
      split; [reflexivity|]. split; [|cbn; lia].
      intros id [Hin|[Hin|[]]]; discriminate. }
  apply post_bind. unfold validate_image.
  destruct (searchlist l (containerName (Name app))) as [c|] eqn:Hs.
  - destruct (bool_decide (c_Image c = Image app)) eqn:Himg.
    + apply post_ret.
      apply (Hrest _ _ [EvContainerList (containerName (Name app)); EvNewClient]);
        reflexivity.
    + apply bool_decide_eq_false_1 in Himg. apply post_bind, post_call. cbn [trace srv].
      match goal with |- context [ContainerRemove env ?h ?n] =>
        destruct (ContainerRemove env h n) end.
      * unfold post; simpl.
        exists [EvContainerRemove (c_ID c); EvContainerList (containerName (Name app));
                EvNewClient].
        split; [reflexivity|]. split; [|cbn; lia].
        intros id [Hin|[Hin|[Hin|[]]]]; try discriminate.
        inversion Hin; subst. exists l, c. auto.
      * apply post_ret. eapply post_mono; [apply emits_rest_not_remove|].
        intros err st' (new & Hnew & Hoknew). cbn [trace] in Hnew.
        exists (new ++ [EvContainerRemove (c_ID c);
                        EvContainerList (containerName (Name app)); EvNewClient]).
        split; [rewrite Hnew, <- app_assoc; reflexivity|].
        destruct (Hnone _ Hoknew) as [Hf Hnin]. split.
        -- intros id Hin. apply in_app_or in Hin as [Hin|Hin]; [destruct (Hnin id Hin)|].
           destruct Hin as [Hin|[Hin|[Hin|[]]]]; try discriminate.
           inversion Hin; subst. exists l, c. auto.
        -- rewrite List.filter_app, Hf. cbn. lia.
  - apply post_ret.
    apply (Hrest _ _ [EvContainerList (containerName (Name app)); EvNewClient]);
      reflexivity.
Qed.

(** ** [HandleConnection]: the life of one connection *)

Lemma returns_lift {A} (m : M St A) w (Q : A -> World -> Prop) :
  returns m (w_st w)
    (fun a st' => Q a {| w_st := st'; ContainerAPILock := ContainerAPILock w |}) ->
  returns (lift m) w Q.
Proof. unfold returns, lift. destruct (m (w_st w)) as [[a st']| |]; auto. Qed.


Lemma uint_dec_inc (c : Z) : is_uint c -> uint_dec (uint_inc c) = c.
Proof.
  unfold is_uint, uint_dec, uint_inc, wrapu64. intros Hc.
  rewrite Zminus_mod_idemp_l. replace (c + 1 - 1) with c by lia.
  apply Z.mod_small. exact Hc.
Qed.




(** X20.  A connection to a service that already has live connections
    goes straight through: [HandleConnection] does not call
    [LaunchContainer], makes no call to the container runtime and does
    not read the clock; it dials the backend and, when that connected,
    copies.  When it is done the server is exactly what it was: the
    connection count is back at its value, no deadline was armed, the
    keyed locks were not touched. *)
Theorem HandleConnection_active_service
        (env : Env) (app : Service) (port : PortMapping) (w : World) (count : Z) :
  ServiceConnCount (srv (w_st w)) !! Name app = Some count ->
  0 < count < 2 ^ 64 - 1 ->
  returns (HandleConnection env app port) w (fun _ w' =>
    srv (w_st w') = srv (w_st w) /\
    ContainerAPILock w' = ContainerAPILock w /\
    exists new,
      trace (w_st w') = new ++ trace (w_st w) /\
      (new = [EvDial (effective_hostIP app (srv (w_st w)))
                     (backendHostPort (Name app) (ContainerPort port) (srv (w_st w)))] \/
       new = [EvCopy;
              EvDial (effective_hostIP app (srv (w_st w)))
                     (backendHostPort (Name app) (ContainerPort port) (srv (w_st w)))])).
Proof.
  intros Hc Hrange. destruct w as [[s h] mm]. cbn [w_st srv trace] in *.
  assert (Hinc : uint_inc count = count + 1).
  { unfold uint_inc, wrapu64. apply Z.mod_small. lia. }
  assert (Hdec : uint_dec (count + 1) = count).
  { rewrite <- Hinc. apply uint_dec_inc. unfold is_uint. lia. }
  assert (Hsrv : decr_conn (Name app) (incr_conn (Name app) s) = s).
  { unfold decr_conn, incr_conn. cbn [ServiceConnCount set_ServiceConnCount].
    rewrite lookup_insert_eq, Hc. cbn [from_option id]. rewrite Hinc, Hdec.
    rewrite insert_insert_eq, (insert_id _ _ _ Hc).
    destruct s; reflexivity. }
  assert (Hcount : ServiceConnCount (decr_conn (Name app) (incr_conn (Name app) s))
                   !! Name app = Some count) by (rewrite Hsrv; exact Hc).
  unfold returns, HandleConnection, HandleConnection_acquire, HandleConnection_forward,
    HandleConnection_release, bind, lift, get_srv, modify_srv, call, ret.
  cbn [w_st srv trace ContainerAPILock]. rewrite Hc.
  assert ((count >? 0) = true) as -> by lia.
  cbn [w_st srv trace ContainerAPILock].
  assert (Hip : effective_hostIP app (incr_conn (Name app) s) = effective_hostIP app s)
    by reflexivity.
  assert (Hport : backendHostPort (Name app) (ContainerPort port) (incr_conn (Name app) s)
                  = backendHostPort (Name app) (ContainerPort port) s) by reflexivity.
  rewrite Hip, Hport.
  destruct (net_Dial env h (effective_hostIP app s)
              (backendHostPort (Name app) (ContainerPort port) s));
    cbn [w_st srv trace ContainerAPILock]; rewrite Hcount;
    (assert ((count =? 0) = false) as -> by lia);
    cbn [w_st srv trace ContainerAPILock]; rewrite Hsrv;
    (split; [reflexivity|]); (split; [reflexivity|]).
  - eexists. split; [|right; reflexivity]. reflexivity.
  - eexists. split; [|left; reflexivity]. reflexivity.
Qed.

Lemma HandleConnection_active_service_witness :
  exists w',
    HandleConnection env_running web (MkPortMapping 80 [80]) world_one_conn = Ret (tt, w') /\
    srv (w_st w') = srv (w_st world_one_conn) /\
    trace (w_st w') = [EvCopy; EvDial "0.0.0.0" (-1)].
Proof.
  eexists. split; [vm_compute; reflexivity|]. split; [|reflexivity].
  pose proof (HandleConnection_active_service env_running web (MkPortMapping 80 [80])
                world_one_conn 1 eq_refl ltac:(lia)) as H.
  unfold returns in H.
  match type of H with match ?m with _ => _ end =>
    let v := eval vm_compute in m in change m with v in H end.
  exact (proj1 H).
Defined.




(** ** Port numbers as text, and back *)

Lemma digit_of_pretty_N_char (d : N) :
  (d < 10)%N -> digit_of (pretty_N_char d) = Some (Z.of_N d).
Proof.
  intros Hd.
  assert (d = 0 \/ d = 1 \/ d = 2 \/ d = 3 \/ d = 4 \/ d = 5 \/ d = 6 \/ d = 7
          \/ d = 8 \/ d = 9)%N as Hcases by lia.
  repeat (destruct Hcases as [->|Hcases]; [reflexivity|]). subst d. reflexivity.
Qed.

Lemma parse_digits_pretty_N_go (x : N) : forall s,
  parse_digits (pretty_N_go x s) 0 = parse_digits s (Z.of_N x).
Proof.
  induction (N.lt_wf_0 x) as [x _ IH]. intros s.
  destruct (decide (x = 0%N)) as [->|Hx]; [reflexivity|].
  rewrite pretty_N_go_step by lia.
  rewrite IH by (apply N.div_lt; lia).
  cbn [parse_digits]. rewrite digit_of_pretty_N_char by (apply N.mod_lt; lia).
  f_equal. rewrite N2Z.inj_div, N2Z.inj_mod. change (Z.of_N 10) with 10.
  pose proof (Z.div_mod (Z.of_N x) 10 ltac:(lia)). lia.
Qed.

Lemma pretty_N_go_head (x : N) : forall s,
  (0 < x)%N ->
  exists c rest d, pretty_N_go x s = String c rest /\ digit_of c = Some d.
Proof.
  induction (N.lt_wf_0 x) as [x _ IH]. intros s Hx.
  rewrite pretty_N_go_step by exact Hx.
  destruct (decide (x `div` 10 = 0)%N) as [Hz|Hnz].
  - rewrite Hz, pretty_N_go_0. eexists. eexists. eexists. split; [reflexivity|].
    apply digit_of_pretty_N_char, N.mod_lt. lia.
  - apply IH; [apply N.div_lt; lia|apply N.neq_0_lt_0; exact Hnz].
Qed.

Lemma strconv_Atoi_digits (c : ascii) (rest : string) (d n : Z) :
  digit_of c = Some d -> parse_digits (String c rest) 0 = Some n ->
  0 <= n < 2 ^ 63 ->
  strconv_Atoi (String c rest) = Ok n.
Proof.
  intros Hd Hn Hrange. unfold strconv_Atoi.
  assert (Hminus : bool_decide (c = "-"%char) = false).
  { apply bool_decide_eq_false_2. intros ->. discriminate. }
  assert (Hplus : bool_decide (c = "+"%char) = false).
  { apply bool_decide_eq_false_2. intros ->. discriminate. }
  rewrite Hminus, Hplus. cbn [orb]. rewrite Hn.
  assert (((- 2 ^ 63 <=? n) && (n <? 2 ^ 63)) = true) as ->; [|reflexivity].
  apply andb_true_iff. split; lia.
Qed.

Lemma parse_digits_pretty_pos (p : positive) :
  parse_digits (pretty_N_go (N.pos p) "") 0 = Some (Z.pos p).
Proof. rewrite parse_digits_pretty_N_go. reflexivity. Qed.

(** [strconv.Atoi] reads back what [fmt.Sprint] wrote. *)
Lemma strconv_Atoi_fmt_Sprint (z : Z) : is_int z -> strconv_Atoi (fmt_Sprint z) = Ok z.
Proof.
  unfold is_int. intros Hz. destruct z as [|p|p].
  - reflexivity.
  - change (fmt_Sprint (Z.pos p)) with (pretty_N_go (N.pos p) "").
    destruct (pretty_N_go_head (N.pos p) "" ltac:(lia)) as (c & rest & d & Heq & Hd).
    pose proof (parse_digits_pretty_pos p) as Hparse. rewrite Heq in *.
    apply (strconv_Atoi_digits c rest d); [exact Hd|exact Hparse|lia].
  - change (fmt_Sprint (Z.neg p)) with (String "-" (pretty_N_go (N.pos p) "")).
    destruct (pretty_N_go_head (N.pos p) "" ltac:(lia)) as (c & rest & d & Heq & Hd).
    pose proof (parse_digits_pretty_pos p) as Hparse. rewrite Heq in *.
    unfold strconv_Atoi. cbn [bool_decide orb]. rewrite bool_decide_eq_true_2 by reflexivity.
    cbn [orb]. rewrite Hparse.
    assert (((- 2 ^ 63 <=? - Z.pos p) && (- Z.pos p <? 2 ^ 63)) = true) as ->;
      [|reflexivity].
    apply andb_true_iff. split; lia.
Qed.

Lemma parse_digits_fmt_Sprint (z : Z) : 0 <= z -> parse_digits (fmt_Sprint z) 0 = Some z.
Proof.
  intros Hz. destruct z as [|p|p]; [reflexivity| |lia].
  apply parse_digits_pretty_pos.
Qed.

Lemma split_first_digits (s t : string) : forall acc v,
  parse_digits s acc = Some v -> split_first "/" (s +:+ String "/" t) = s.
Proof.
  induction s as [|c s IH]; intros acc v Hparse.
  - reflexivity.
  - cbn [parse_digits] in Hparse. destruct (digit_of c) as [d|] eqn:Hd; [|discriminate].
    simpl.
    rewrite bool_decide_eq_false_2 by (intros ->; discriminate).
    f_equal. exact (IH _ _ Hparse).
Qed.

(** ** Hydration reads back what a launch published *)

Lemma store_bindings_published name hostIP : forall pairs st,
  Forall (fun b => 0 <= fst b /\ is_int (fst b) /\ is_int (snd b)) pairs ->
  store_bindings name (map (published hostIP) pairs) st
  = Ret (None, {| srv := foldl (fun s b => store_port name (fst b) (snd b) s) (srv st) pairs;
                  trace := trace st |}).
Proof.
  induction pairs as [|[cp hp] rest IH]; intros st Hok.
  - destruct st; reflexivity.
  - inversion Hok as [|b l (Hnn & Hcp & Hhp) Hrest]; subst. cbn [fst snd] in *.
    cbn [map published store_bindings fst snd].
    change (port_key cp) with (fmt_Sprint cp +:+ String "/" "tcp").
    rewrite (split_first_digits _ _ 0 cp (parse_digits_fmt_Sprint cp Hnn)).
    rewrite (strconv_Atoi_fmt_Sprint cp Hcp). cbn [pb_HostPort].
    rewrite (strconv_Atoi_fmt_Sprint hp Hhp).
    unfold bind at 1, modify_srv at 1. rewrite (IH _ Hrest). reflexivity.
Qed.

Lemma backendHostPort_foldl_store name cp : forall pairs s,
  is_Some (ServiceProxyHostPortMap s !! name) ->
  backendHostPort name cp (foldl (fun s b => store_port name (fst b) (snd b) s) s pairs)
  = recorded pairs cp (backendHostPort name cp s).
Proof.
  induction pairs as [|[cp' hp] rest IH]; intros s Hentry; [reflexivity|].
  cbn [foldl recorded fst snd]. rewrite IH.
  - rewrite backendHostPort_store by exact Hentry. reflexivity.
  - apply (keeps_entry_store name name cp' hp s Hentry).
Qed.

Lemma backendHostPort_absent name cp s :
  ServiceProxyHostPortMap s !! name = None ->
  backendHostPort name cp (ensure_port_map name s) = -1.
Proof.
  intros Hnone. unfold ensure_port_map, backendHostPort. rewrite Hnone. cbn.
  rewrite lookup_insert_eq, lookup_empty. reflexivity.
Qed.

Lemma recorded_In (pairs : list (Z * Z)) (cp hp before : Z) :
  NoDup (map fst pairs) -> In (cp, hp) pairs -> recorded pairs cp before = hp.
Proof.
  revert before. induction pairs as [|[cp' hp'] rest IH]; intros before Hnd Hin; [destruct Hin|].
  cbn [map fst] in Hnd. apply NoDup_cons in Hnd as [Hnin Hnd]. cbn [recorded].
  destruct Hin as [Heq|Hin].
  - inversion Heq; subst. rewrite decide_True by reflexivity.
    clear IH Hnd. revert Hnin. generalize hp. induction rest as [|[cp2 hp2] rest IH2];
      intros v Hnin; [reflexivity|].
    cbn [recorded]. cbn [map fst] in Hnin. rewrite not_elem_of_cons in Hnin.
    destruct Hnin as [Hne Hnin]. rewrite decide_False by congruence. apply IH2, Hnin.
  - apply IH; assumption.
Qed.

(** X22.  The deferred hydration reads back what a launch published.
    The service has no entry in the port map and the inspection lists
    the bindings [pairs] in the form in which [LaunchContainer] hands
    them to [ContainerCreate] (container port and "/tcp" as the key,
    one binding with the host port in decimal).  Then the hydration
    succeeds and the forwarder's lookup of a container port gives the
    host port of the last binding listed for it, and [-1] for a
    container port that is not listed.  With distinct container ports
    every listed pair is found again. *)
Theorem hydrate_ports_recovers_published
        (env : Env) (app : Service) (contID hostIP : string) (st : St)
        (inspect : ContainerJSON) (pairs : list (Z * Z)) :
  ServiceProxyHostPortMap (srv st) !! Name app = None ->
  ContainerInspect env (trace st) contID = Ok inspect ->
  hc_PortBindings inspect = map (published hostIP) pairs ->
  Forall (fun b => 0 <= fst b /\ is_int (fst b) /\ is_int (snd b)) pairs ->
  returns (hydrate_ports env app contID None) st (fun err st' =>
    err = None /\
    (forall cp, backendHostPort (Name app) cp (srv st') = recorded pairs cp (-1)) /\
    (NoDup (map fst pairs) ->
     forall cp hp, In (cp, hp) pairs -> backendHostPort (Name app) cp (srv st') = hp)).
Proof.
  intros Hnone Hinspect Hbind Hok.
  assert (Hrec : forall cp,
            backendHostPort (Name app) cp
              (foldl (fun s b => store_port (Name app) (fst b) (snd b) s)
                     (ensure_port_map (Name app) (srv st)) pairs)
            = recorded pairs cp (-1)).
  { intros cp. rewrite backendHostPort_foldl_store.
    - rewrite backendHostPort_absent by exact Hnone. reflexivity.
    - apply ensure_port_map_entry. }
  unfold returns, hydrate_ports, bind, get_srv, call, modify_srv. rewrite Hnone, Hinspect.
  cbn [srv trace]. rewrite Hbind, (store_bindings_published _ _ _ _ Hok). cbn [srv trace].
  split; [reflexivity|]. split.
  - exact Hrec.
  - intros Hnd cp hp Hin. rewrite Hrec. apply recorded_In; assumption.
Qed.

Lemma hydrate_ports_recovers_published_witness :
  returns (hydrate_ports env_running web "4f2a" None) st0 (fun err st' =>
    err = None /\ backendHostPort "web" 80 (srv st') = 49200 /\
    backendHostPort "web" 443 (srv st') = -1).
Proof.
  pose proof (hydrate_ports_recovers_published env_running web "4f2a" "0.0.0.0" st0
                (inspect_running [("80/tcp", [MkPortBinding "0.0.0.0" "49200"])])
                [(80, 49200)] eq_refl eq_refl eq_refl) as H.
  eapply returns_mono; [apply H|].
  - repeat constructor; cbn; unfold is_int; lia.
  - intros err st' (Herr & Hrec & _). split; [exact Herr|].
    split; [rewrite Hrec; reflexivity|rewrite Hrec; reflexivity].
Defined.

(** ** What [ContainerCreate] is asked for *)

Lemma port_key_inj (cp cp' : Z) : 0 <= cp -> 0 <= cp' -> port_key cp = port_key cp' -> cp = cp'.
Proof.
  intros Hcp Hcp' Heq.
  change (port_key cp) with (fmt_Sprint cp +:+ String "/" "tcp") in Heq.
  change (port_key cp') with (fmt_Sprint cp' +:+ String "/" "tcp") in Heq.
  apply (f_equal (split_first "/")) in Heq.
  rewrite (split_first_digits _ _ 0 cp (parse_digits_fmt_Sprint cp Hcp)) in Heq.
  rewrite (split_first_digits _ _ 0 cp' (parse_digits_fmt_Sprint cp' Hcp')) in Heq.
  exact (pretty_Z_inj _ _ Heq).
Qed.

Lemma nat_NewPort_inv (cp : Z) (natport : string) :
  nat_NewPort "tcp" cp = Ok natport -> 0 <= cp /\ natport = port_key cp.
Proof.
  unfold nat_NewPort. destruct ((0 <=? cp) && (cp <=? 65535)) eqn:E; [|discriminate].
  intros Heq. inversion Heq. split; [lia|reflexivity].
Qed.

Lemma effective_hostIP_same app s s' :
  Config s' = Config s -> effective_hostIP app s' = effective_hostIP app s.
Proof. intros Hc. unfold effective_hostIP. rewrite Hc. reflexivity. Qed.

Lemma publishes_same_ports hostIP name bindings s s' cp :
  same_ports s s' -> publishes hostIP name bindings s cp -> publishes hostIP name bindings s' cp.
Proof.
  unfold same_ports, publishes, backendHostPort. intros Heq. rewrite Heq. exact id.
Qed.

Lemma no_create_in (new : list Event) cname spec :
  forallb not_create_event new = true -> ~ In (EvContainerCreate cname spec) new.
Proof.
  intros Hok Hin. rewrite forallb_forall in Hok. apply Hok in Hin. discriminate.
Qed.

Lemma creates_none app hostIP h0 st' :
  extends not_create_event h0 (trace st') -> creates_as_recorded app hostIP h0 st'.
Proof.
  intros (new & Hnew & Hok). exists new. split; [exact Hnew|].
  intros cname spec Hin. destruct (no_create_in _ _ _ Hok Hin).
Qed.

Lemma creates_prefix app hostIP h0 h1 st' :
  extends not_create_event h0 h1 -> creates_as_recorded app hostIP h1 st' ->
  creates_as_recorded app hostIP h0 st'.
Proof.
  intros (pre & -> & Hok) (new & Hnew & Hrec). exists (new ++ pre).
  split; [rewrite Hnew; apply app_assoc|].
  intros cname spec Hin. apply in_app_or in Hin as [Hin|Hin]; [exact (Hrec _ _ Hin)|].
  destruct (no_create_in _ _ _ Hok Hin).
Qed.

Lemma creates_stable app hostIP h0 st1 st2 :
  creates_as_recorded app hostIP h0 st1 ->
  extends not_create_event (trace st1) (trace st2) ->
  Ports app = [] \/ same_ports (srv st1) (srv st2) ->
  creates_as_recorded app hostIP h0 st2.
Proof.
  intros (new & Hnew & Hrec) (post & Hpost & Hok) Hsame. exists (post ++ new).
  split; [rewrite Hpost, Hnew; apply app_assoc|].
  intros cname spec Hin. apply in_app_or in Hin as [Hin|Hin];
    [destruct (no_create_in _ _ _ Hok Hin)|].
  destruct (Hrec _ _ Hin) as (Hname & Himg & Hports).
  split; [exact Hname|]. split; [exact Himg|].
  intros port Hport. destruct Hsame as [Hnil|Hsame].
  - rewrite Hnil in Hport. destruct Hport.
  - exact (publishes_same_ports _ _ _ _ _ _ Hsame (Hports port Hport)).
Qed.

(** The loop over the declared ports keeps the bindings it builds and
    the port map it writes in step. *)
Lemma alloc_ports_publishes env app hostIP ports : forall portMap st done,
  (forall cp, In cp done -> 0 <= cp /\ publishes hostIP (Name app) portMap (srv st) cp) ->
  post (alloc_ports env app hostIP ports portMap) st (fun '(err, portMap') st' =>
    err = None ->
    forall cp, In cp (map ContainerPort ports ++ done) ->
               0 <= cp /\ publishes hostIP (Name app) portMap' (srv st') cp).
Proof.
  induction ports as [|port rest IH]; intros portMap st done Hdone; cbn [alloc_ports].
  - unfold post; simpl. intros _. exact Hdone.
  - destruct (nat_NewPort "tcp" (ContainerPort port)) as [natport|e] eqn:Hnat;
      [|unfold post; simpl; discriminate].
    apply nat_NewPort_inv in Hnat as [Hnn ->].
    apply post_bind, post_modify_srv, post_bind.
    eapply post_mono; [apply returns_post, FindOpenPort_spec|].
    intros [p err] st1 (Hsrv & _). cbn [srv] in Hsrv.
    apply post_bind, post_modify_srv.
    destruct err as [e|]; [unfold post; simpl; discriminate|].
    eapply post_mono.
    + apply (IH _ _ (ContainerPort port :: done)). cbn [srv]. rewrite Hsrv.
      intros cp Hin.
      assert (Hentry : is_Some (ServiceProxyHostPortMap
                                  (store_port (Name app) (ContainerPort port) p
                                     (ensure_port_map (Name app) (srv st))) !! Name app)).
      { apply (keeps_entry_store (Name app) (Name app)), ensure_port_map_entry. }
      destruct (decide (ContainerPort port = cp)) as [<-|Hne].
      * split; [exact Hnn|]. split; [exact Hentry|].
        rewrite lookup_insert_eq, backendHostPort_store by apply ensure_port_map_entry.
        rewrite decide_True by reflexivity. reflexivity.
      * destruct Hin as [Heq|Hin]; [congruence|].
        destruct (Hdone cp Hin) as (Hcp & _ & Hlook).
        split; [exact Hcp|]. split; [exact Hentry|].
        rewrite lookup_insert_ne
          by (intros Hkey; apply Hne; exact (port_key_inj _ _ Hnn Hcp Hkey)).
        rewrite backendHostPort_store by apply ensure_port_map_entry.
        rewrite decide_False by exact Hne.
        rewrite backendHostPort_ensure. exact Hlook.
    + intros [err' pm] st' Hrec Herr cp Hin. apply (Hrec Herr).
      simpl in Hin. rewrite in_app_iff in *. simpl.
      destruct Hin as [Heq|[Hin|Hin]]; auto.
Qed.

Lemma emits_pull_image_not_create env app : emits not_create_event (pull_image env app).
Proof. apply emits_pull_image; reflexivity. Qed.

Lemma launch_create_creates env app st :
  post (launch_create env app) st (fun _ st' =>
    creates_as_recorded app (effective_hostIP app (srv st)) (trace st) st').
Proof.
  unfold launch_create. apply post_bind. eapply post_mono.
  { apply post_and; [apply post_emits, emits_pull_image_not_create|].
    apply (post_preserves same_conn_kill). frame_by preserves_pull_image. }
  intros [] st1 (Hext1 & _ & _ & Hcfg1).
  apply post_bind, post_get_srv, post_bind.
  rewrite (effective_hostIP_same app (srv st) (srv st1) Hcfg1).
  eapply post_mono.
  { apply post_and.
    - apply (alloc_ports_publishes env app (effective_hostIP app (srv st)) (Ports app) ∅ st1 []).
      intros cp [].
    - apply (post_emits not_create_event), emits_alloc_ports; reflexivity. }
  intros [err portMap] st2 (Hpub & Hext2).
  pose proof (extends_trans _ _ _ _ Hext1 Hext2) as Hext.
  destruct err as [e|]; [unfold post; simpl; apply creates_none, Hext|].
  destruct (ResourceRequest app) as [r|]; [|apply post_panic].
  apply post_bind, post_call.
  assert (Hrec : creates_as_recorded app (effective_hostIP app (srv st)) (trace st)
                   {| srv := srv st2;
                      trace := EvContainerCreate (containerName (Name app))
                                 (create_spec app r portMap) :: trace st2 |}).
  { destruct Hext as (new & Hnew & Hok).
    exists (EvContainerCreate (containerName (Name app)) (create_spec app r portMap) :: new).
    split; [cbn [trace]; rewrite Hnew; reflexivity|].
    intros cname spec [Heq|Hin]; [|destruct (no_create_in _ _ _ Hok Hin)].
    inversion Heq; subst. split; [reflexivity|]. split; [reflexivity|].
    intros port Hport. cbn [srv cs_PortBindings create_spec].
    apply (Hpub eq_refl). rewrite app_nil_r. apply in_map, Hport. }
  match goal with |- context [ContainerCreate env ?h ?n ?sp] =>
    destruct (ContainerCreate env h n sp) as [id|e] end;
    unfold post; simpl; exact Hrec.
Qed.

Lemma launch_main_creates env app cont st :
  post (launch_main env app cont) st (fun _ st' =>
    creates_as_recorded app (effective_hostIP app (srv st)) (trace st) st').
Proof.
  unfold launch_main. destruct cont as [c|].
  - destruct (bool_decide (c_State c = "running")).
    + unfold post; simpl. apply creates_none, extends_refl.
    + apply post_bind. eapply post_mono.
      { apply post_emits, (emits_launch_start env not_create_event); reflexivity. }
      intros err st1 Hext. unfold post; simpl. apply creates_none, Hext.
  - apply post_bind. eapply post_mono; [apply launch_create_creates|].
    intros [err contID] st1 Hrec. destruct err as [e|]; [unfold post; simpl; exact Hrec|].
    apply post_bind. eapply post_mono.
    { apply post_and.
      - apply post_emits, (emits_launch_start env not_create_event); reflexivity.
      - apply (post_preserves same_ports). frame_by preserves_launch_start. }
    intros err st2 (Hext & Hsame). unfold post; simpl.
    apply (creates_stable _ _ _ st1); [exact Hrec|exact Hext|right; exact Hsame].
Qed.

Lemma emits_launch_main_existing env ok app c :
  (forall id, ok (EvContainerStart id) = true) ->
  (forall id, ok (EvContainerInspect id) = true) ->
  emits ok (launch_main env app (Some c)).
Proof.
  intros ok_start ok_inspect. unfold launch_main.
  repeat match goal with
         | |- emits _ (launch_start _ _ _) => apply emits_launch_start; assumption
         | _ => emits_step
         end.
Qed.

Lemma main_hydrate_creates env app cont st :
  post (bind (launch_main env app cont)
             (fun '(err, contID) => hydrate_ports env app contID err)) st
       (fun _ st' =>
          creates_as_recorded app (effective_hostIP app (srv st)) (trace st) st').
Proof.
  destruct cont as [c|].
  - apply (post_mono _ _ (fun _ st' => extends not_create_event (trace st) (trace st')));
      [|intros err st' Hext; apply creates_none, Hext].
    apply post_emits, emits_bind.
    + apply emits_launch_main_existing; reflexivity.
    + intros [err contID]. apply emits_hydrate_ports. reflexivity.
  - apply post_bind. eapply post_mono.
    { apply post_and; [apply launch_main_creates|apply launch_main_absent_ready]. }
    intros [err contID] st1 (Hrec & Hready). eapply post_mono.
    { apply post_and; [apply hydrate_ports_spec|].
      apply post_emits, (emits_hydrate_ports env not_create_event). reflexivity. }
    intros err' st2 ((_ & _ & Hid) & Hext).
    apply (creates_stable _ _ _ st1); [exact Hrec|exact Hext|].
    destruct (Ports app) as [|port rest] eqn:Hports; [left; reflexivity|right].
    destruct err as [e|].
    + assert (Hne : Some e <> None) by discriminate.
      destruct (Hid (or_intror Hne)) as [_ ->]. reflexivity.
    + assert (Hentry : is_Some (ServiceProxyHostPortMap (srv st1) !! Name app)).
      { apply (ports_ready_entry _ _ (ContainerPort port) _ (Hready eq_refl)).
        left. reflexivity. }
      destruct (Hid (or_introl Hentry)) as [_ ->]. reflexivity.
Qed.

(** X23.  What the runtime is asked to publish is what the proxy will
    dial.  Every [ContainerCreate] that a call of [LaunchContainer]
    issues (at most the one of the branch that found no container)
    names the container after the service, uses the configured image,
    and publishes every declared container port, on the effective host
    address, at exactly the host port that the port map holds for that
    container port when [LaunchContainer] returns. *)
Theorem ContainerCreate_publishes_recorded_ports (env : Env) (app : Service) (w : World) :
  post (LaunchContainer env app) w (fun _ w' =>
    creates_as_recorded app (effective_hostIP app (srv (w_st w))) (trace (w_st w)) (w_st w')).
Proof.
  apply (post_with_ContainerAPILock (Name app) (LaunchContainer_body env app) w
           (fun _ st' =>
              creates_as_recorded app (effective_hostIP app (srv (w_st w)))
                (trace (w_st w)) st')).
  set (st := w_st w). unfold LaunchContainer_body.
  apply post_bind, post_call.
  destruct (NewClientWithOpts env (trace st)); [apply post_panic|].
  apply post_bind, post_call. cbn [trace srv].
  assert (H01 : extends not_create_event (trace st)
                  (EvContainerList (containerName (Name app)) :: EvNewClient :: trace st)).
  { do 2 (apply extends_cons; [reflexivity|]). apply extends_refl. }
  match goal with |- context [ContainerList env ?h ?n] =>
    destruct (ContainerList env h n) as [l|e0] end;
    [|unfold post; simpl; apply creates_none, H01].
  apply post_bind. eapply post_mono.
  { apply post_and.
    - apply post_emits, (emits_validate_image env not_create_event). reflexivity.
    - apply (post_preserves same_conn_kill
               (validate_image env app (searchlist l (containerName (Name app))))).
      frame_by preserves_validate_image. }
  intros v st1 (Hext1 & _ & _ & Hcfg1). cbn [trace srv] in Hext1, Hcfg1.
  pose proof (extends_trans _ _ _ _ H01 Hext1) as Hext.
  destruct v as [cont|e1]; [|unfold post; simpl; apply creates_none, Hext].
  eapply post_mono; [apply main_hydrate_creates|].
  intros err st2 Hrec. rewrite (effective_hostIP_same app (srv st) (srv st1) Hcfg1) in Hrec.
  exact (creates_prefix _ _ _ _ _ Hext Hrec).
Qed.

Lemma ContainerCreate_publishes_recorded_ports_witness :
  exists w' spec,
    LaunchContainer env_absent web world0 = Ret (None, w') /\
    In (EvContainerCreate "web-goscalezero" spec) (trace (w_st w')) /\
    backendHostPort "web" 80 (srv (w_st w')) = 49152 /\
    publishes "0.0.0.0" "web" (cs_PortBindings spec) (srv (w_st w')) 80.
Proof.
  eexists. eexists. split; [vm_compute; reflexivity|].
  split; [do 2 right; left; reflexivity|]. split; [reflexivity|].
  pose proof (ContainerCreate_publishes_recorded_ports env_absent web world0) as H.
  unfold post in H.
  match type of H with match ?m with _ => _ end =>
    let v := eval vm_compute in m in change m with v in H end.
  destruct H as (new & Hnew & Hrec). cbn [trace w_st] in Hnew.
  rewrite app_nil_r in Hnew. subst new.
  refine (proj2 (proj2 (Hrec _ _ _)) (MkPortMapping 80 [80]) (or_introl eq_refl)).
  do 2 right. left. reflexivity.
Defined.

(** ** [CleanUpContainers]: a sweep that finds nothing *)



